(** * Xadrez: the chess rules engine and its computer opponent

    A shallow embedding of [src/utils/chess.ts] (move legality, check,
    checkmate and stalemate), of [src/utils/chessAI.ts] (move generation,
    greedy capture and two-ply minimax) and of the board update performed by
    the [ChessBoard] component, followed by the properties of the
    specification that concern them.

    Numbers are integers ([Z]), but for the number [Math.random()] returns,
    which is a binary64 value; a JavaScript array is a list of values
    together with the non-index properties that a store at a negative key
    creates; a read that JavaScript answers with [undefined] is a value of
    its own, and a property read on [undefined] is the [Throw] outcome. *)

From Stdlib Require Import ZArith Bool Lia.
From stdpp Require Import base list.

Local Open Scope Z_scope.

(** ** Outcomes of an evaluation *)

(** [Ret v]: the call returns [v]. [Throw]: the call raises a [TypeError]
    (a property read or write on [undefined]). [Diverge]: a loop of the model
    used up its iteration budget. *)
Inductive result (A : Type) : Type :=
| Ret (a : A)
| Throw
| Diverge.
Arguments Ret {A} a.
Arguments Throw {A}.
Arguments Diverge {A}.

Definition result_bind {A B} (m : result A) (k : A -> result B) : result B :=
  match m with
  | Ret a => k a
  | Throw => Throw
  | Diverge => Diverge
  end.

#[global] Instance result_ret : MRet result := @Ret.
#[global] Instance result_mbind : MBind result :=
  fun A B k m => result_bind m k.

(** [returns m]: the evaluation neither throws nor runs out of budget. *)
Definition returns {A} (m : result A) : Prop := exists v, m = Ret v.

(** ** The data model *)

Module Types.

(** Modelled from the spec: the declarations of [@/types/chess]
    ([PieceType], [ChessPiece], [Position], [BoardState]), which the sources
    import; the constructors are the string literals the code compares
    against and the keys of [pieceValues]. *)
Inductive PieceType := pawn | knight | bishop | rook | queen | king.

Inductive Color := white | black.

Record ChessPiece := mkPiece { type : PieceType; color : Color }.

Record Position := mkPos { row : Z; col : Z }.

End Types.
Export Types.

#[global] Instance PieceType_eq_dec : EqDecision PieceType.
Proof. solve_decision. Defined.
#[global] Instance Color_eq_dec : EqDecision Color.
Proof. solve_decision. Defined.
#[global] Instance ChessPiece_eq_dec : EqDecision ChessPiece.
Proof. solve_decision. Defined.

Definition ptype_eqb (a b : PieceType) : bool := bool_decide (a = b).
Definition color_eqb (a b : Color) : bool := bool_decide (a = b).

(** [color === 'white' ? 'black' : 'white'] *)
Definition opponent (c : Color) : Color :=
  match c with white => black | black => white end.

(** What a read of a board square can produce. *)
Inductive jsval :=
| JUndefined
| JNull
| JPiece (p : ChessPiece).

#[global] Instance jsval_eq_dec : EqDecision jsval.
Proof. solve_decision. Defined.

(** [v === null] *)
Definition is_null (v : jsval) : bool :=
  match v with JNull => true | _ => false end.

(** ** JavaScript arrays *)

(** A row of the board. [elems] are the array elements (a hole reads
    [undefined]); [props] are the properties under keys that are not array
    indices, which a store such as [row[-1] = v] creates. *)
Record Row := mkRow { elems : list jsval; props : list (Z * jsval) }.

Fixpoint prop_get (k : Z) (ps : list (Z * jsval)) : jsval :=
  match ps with
  | [] => JUndefined
  | (k', v) :: ps' => if k' =? k then v else prop_get k ps'
  end.

(** [row[c]] *)
Definition row_get (r : Row) (c : Z) : jsval :=
  if c <? 0 then prop_get c (props r)
  else default JUndefined (elems r !! Z.to_nat c).

(** [row[c] = v]: an index below the length overwrites, an index at or past
    the length grows the array (the skipped slots are holes), a negative key
    becomes a property. *)
Definition row_set (r : Row) (c : Z) (v : jsval) : Row :=
  if c <? 0 then mkRow (elems r) ((c, v) :: props r)
  else if (Z.to_nat c <? length (elems r))%nat
       then mkRow (<[Z.to_nat c := v]> (elems r)) (props r)
       else mkRow (elems r ++ replicate (Z.to_nat c - length (elems r)) JUndefined ++ [v])
                  (props r).

(** [[...row]]: the spread copies the elements and nothing else. *)
Definition spread (r : Row) : Row := mkRow (elems r) [].

(** [BoardState]: an array of rows. The outer array is never stored into. *)
Abbreviation BoardState := (list Row).

(** [board[r]], [None] standing for [undefined]. *)
Definition board_row (b : BoardState) (r : Z) : option Row :=
  if r <? 0 then None else b !! Z.to_nat r.

(** [board[r][c]] *)
Definition rd (b : BoardState) (r c : Z) : result jsval :=
  match board_row b r with
  | Some rw => Ret (row_get rw c)
  | None => Throw
  end.

(** [board[r][c] = v] *)
Definition wr (b : BoardState) (r c : Z) (v : jsval) : result BoardState :=
  match board_row b r with
  | Some rw => Ret (<[Z.to_nat r := row_set rw c v]> b)
  | None => Throw
  end.

(** [board.map((row) => [...row])] *)
Definition cloneBoard (b : BoardState) : BoardState := map spread b.

(** An 8 by 8 board of pieces and [null]s, as [createInitialBoard] builds
    and every board update keeps. *)
Definition is_cell (v : jsval) : bool :=
  match v with JUndefined => false | _ => true end.

Definition wf_row (r : Row) : bool :=
  (length (elems r) =? 8)%nat && forallb is_cell (elems r)
  && match props r with [] => true | _ => false end.

Definition wf_board (b : BoardState) : bool :=
  (length b =? 8)%nat && forallb wf_row b.

(** Coordinates of a square of the board. *)
Definition inside (r c : Z) : Prop := 0 <= r < 8 /\ 0 <= c < 8.

Definition range8 : list Z := [0; 1; 2; 3; 4; 5; 6; 7].

(** The squares in the order of [for (row...) for (col...)]. *)
Definition squares : list (Z * Z) :=
  r ← range8; c ← range8; [(r, c)].

(** ** Loops with an early [return] *)

(** [for (x of l) if (f x) return true; return false] *)
Fixpoint existsR {A} (f : A -> result bool) (l : list A) : result bool :=
  match l with
  | [] => Ret false
  | x :: l' => b ← f x; if (b : bool) then Ret true else existsR f l'
  end.

(** [for (x of l) if (f x) return x; return null] *)
Fixpoint findR {A} (f : A -> result bool) (l : list A) : result (option A) :=
  match l with
  | [] => Ret None
  | x :: l' => b ← f x; if (b : bool) then Ret (Some x) else findR f l'
  end.

(** [for (x of l) if (f x) out.push(x); return out] *)
Fixpoint filterR {A} (f : A -> result bool) (l : list A) : result (list A) :=
  match l with
  | [] => Ret []
  | x :: l' =>
      b ← f x; rest ← filterR f l';
      Ret (if (b : bool) then x :: rest else rest)
  end.

(** ** [utils/chess.ts] *)

Module Chess.

Definition backRank : list PieceType :=
  [rook; knight; bishop; queen; king; bishop; knight; rook].

Definition rowOf (l : list jsval) : Row := mkRow l [].

Definition createInitialBoard : BoardState :=
  [ rowOf (map (fun t => JPiece (mkPiece t black)) backRank);
    rowOf (replicate 8 (JPiece (mkPiece pawn black)));
    rowOf (replicate 8 JNull);
    rowOf (replicate 8 JNull);
    rowOf (replicate 8 JNull);
    rowOf (replicate 8 JNull);
    rowOf (replicate 8 (JPiece (mkPiece pawn white)));
    rowOf (map (fun t => JPiece (mkPiece t white)) backRank) ].

(** The [while] loop of [isPathClear]; [fuel] bounds its iterations. *)
Fixpoint pathLoop (fuel : nat) (b : BoardState)
    (currentRow currentCol toRow toCol rowDirection colDirection : Z)
    : result bool :=
  match fuel with
  | O => Diverge
  | S k =>
      if (currentRow =? toRow) && (currentCol =? toCol) then Ret true
      else
        v ← rd b currentRow currentCol;
        if is_null v
        then pathLoop k b (currentRow + rowDirection) (currentCol + colDirection)
                      toRow toCol rowDirection colDirection
        else Ret false
  end.

Definition stepToward (from to : Z) : Z :=
  if to >? from then 1 else if to <? from then -1 else 0.

Definition isPathClear (b : BoardState) (fromRow fromCol toRow toCol : Z)
    : result bool :=
  let rowDirection := stepToward fromRow toRow in
  let colDirection := stepToward fromCol toCol in
  pathLoop 8 b (fromRow + rowDirection) (fromCol + colDirection)
           toRow toCol rowDirection colDirection.

(** [targetPiece && targetPiece.color === piece.color] *)
Definition same_color (v : jsval) (c : Color) : bool :=
  match v with JPiece q => color_eqb (color q) c | _ => false end.

(** Truthiness of a square: a piece is truthy, [null] and [undefined] are not. *)
Definition truthy (v : jsval) : bool :=
  match v with JPiece _ => true | _ => false end.

Definition pawnMove (b : BoardState) (piece : ChessPiece) (targetPiece : jsval)
    (fromRow fromCol toRow toCol : Z) : result bool :=
  let direction := match color piece with white => -1 | black => 1 end in
  let startRow := match color piece with white => 6 | black => 1 end in
  forward ←
    (if (fromCol =? toCol) && negb (truthy targetPiece) then
       if toRow =? fromRow + direction then Ret true
       else if (fromRow =? startRow) && (toRow =? fromRow + 2 * direction) then
              mid ← rd b (fromRow + direction) fromCol;
              Ret (is_null mid)
            else Ret false
     else Ret false);
  if (forward : bool) then Ret true
  else Ret ((Z.abs (fromCol - toCol) =? 1) && (toRow =? fromRow + direction)
            && truthy targetPiece).

Definition isValidPieceMove (b : BoardState) (fromRow fromCol toRow toCol : Z)
    : result bool :=
  if (toRow <? 0) || (toRow >? 7) || (toCol <? 0) || (toCol >? 7) then Ret false
  else
    p ← rd b fromRow fromCol;
    match p with
    | JPiece piece =>
        if (fromRow =? toRow) && (fromCol =? toCol) then Ret false
        else
          targetPiece ← rd b toRow toCol;
          if same_color targetPiece (color piece) then Ret false
          else
            let rowDiff := Z.abs (toRow - fromRow) in
            let colDiff := Z.abs (toCol - fromCol) in
            match type piece with
            | pawn => pawnMove b piece targetPiece fromRow fromCol toRow toCol
            | rook =>
                if (rowDiff =? 0) || (colDiff =? 0)
                then isPathClear b fromRow fromCol toRow toCol
                else Ret false
            | bishop =>
                if rowDiff =? colDiff
                then isPathClear b fromRow fromCol toRow toCol
                else Ret false
            | queen =>
                if (rowDiff =? 0) || (colDiff =? 0) || (rowDiff =? colDiff)
                then isPathClear b fromRow fromCol toRow toCol
                else Ret false
            | king => Ret ((rowDiff <=? 1) && (colDiff <=? 1))
            | knight =>
                Ret ((rowDiff =? 2) && (colDiff =? 1)
                     || (rowDiff =? 1) && (colDiff =? 2))
            end
    | _ => Ret false
    end.

(** [piece && piece.type === 'king' && piece.color === color] *)
Definition is_king_of (c : Color) (v : jsval) : bool :=
  match v with
  | JPiece q => ptype_eqb (type q) king && color_eqb (color q) c
  | _ => false
  end.

Definition findKingPosition (b : BoardState) (c : Color)
    : result (option (Z * Z)) :=
  findR (fun s => v ← rd b s.1 s.2; Ret (is_king_of c v)) squares.

Definition isSquareAttacked (b : BoardState) (row col : Z) (byColor : Color)
    : result bool :=
  existsR (fun s =>
             v ← rd b s.1 s.2;
             if same_color v byColor
             then isValidPieceMove b s.1 s.2 row col
             else Ret false) squares.

Definition isKingInCheck (b : BoardState) (c : Color) : result bool :=
  kingPos ← findKingPosition b c;
  match kingPos with
  | None => Ret false
  | Some (r, k) => isSquareAttacked b r k (opponent c)
  end.

End Chess.
Export Chess.

Module Legality.

(** The first loop of the castling branch:
    [for (let c = from; c !== rookCol; c += step) if (board[row][c] !== null) return false]
    [Ret true] when the loop runs to its end. *)
Fixpoint gapLoop (fuel : nat) (b : BoardState) (row c rookCol step : Z)
    : result bool :=
  match fuel with
  | O => Diverge
  | S k =>
      if c =? rookCol then Ret true
      else
        v ← rd b row c;
        if is_null v then gapLoop k b row (c + step) rookCol step
        else Ret false
  end.

(** The second loop of the castling branch:
    [for (let c = from; c !== stop; c += step) if (isSquareAttacked(...)) return false] *)
Fixpoint transitLoop (fuel : nat) (b : BoardState) (row c stop step : Z)
    (opponentColor : Color) : result bool :=
  match fuel with
  | O => Diverge
  | S k =>
      if c =? stop then Ret true
      else
        a ← isSquareAttacked b row c opponentColor;
        if (a : bool) then Ret false
        else transitLoop k b row (c + step) stop step opponentColor
  end.

(** The board the castling branch simulates. *)
Definition castleBoard (b : BoardState) (piece rk : ChessPiece)
    (fromRow fromCol toCol rookCol rookDestCol : Z) : result BoardState :=
  b1 ← wr (cloneBoard b) fromRow fromCol JNull;
  b2 ← wr b1 fromRow rookCol JNull;
  b3 ← wr b2 fromRow toCol (JPiece piece);
  wr b3 fromRow rookDestCol (JPiece rk).

(** Branch 1 of [isValidMove], entered for a king that moves two files on
    its row. *)
Definition castling (b : BoardState) (piece : ChessPiece)
    (fromRow fromCol toCol : Z) : result bool :=
  let color := color piece in
  let isKingside := toCol >? fromCol in
  let rookCol := if isKingside then 7 else 0 in
  r ← rd b fromRow rookCol;
  match r with
  | JPiece rk =>
      if negb (ptype_eqb (type rk) rook) || negb (color_eqb (Types.color rk) color)
      then Ret false
      else
        chk ← isKingInCheck b color;
        if (chk : bool) then Ret false
        else
          let step := if isKingside then 1 else -1 in
          gap ← gapLoop 8 b fromRow (fromCol + step) rookCol step;
          if negb gap then Ret false
          else
            let opponentColor := opponent color in
            safe ← transitLoop 3 b fromRow (fromCol + step) (toCol + step) step
                               opponentColor;
            if negb safe then Ret false
            else
              let rookDestCol := if isKingside then toCol - 1 else toCol + 1 in
              newBoard ← castleBoard b piece rk fromRow fromCol toCol rookCol
                                     rookDestCol;
              after ← isKingInCheck newBoard color;
              Ret (negb after)
  | _ => Ret false
  end.

(** What branch 2 of [isValidMove] decides. *)
Inductive EnPassant :=
| NotEnPassant   (* the branch is not entered: [isEnPassant] stays false *)
| Capture        (* [isEnPassant = true] *)
| Refused.       (* the branch returns false *)

#[global] Instance EnPassant_eq_dec : EqDecision EnPassant.
Proof. solve_decision. Defined.

(** [enPassantTarget.row + (piece.color === 'white' ? 1 : -1)] *)
Definition captureRowOf (piece : ChessPiece) (target : Position) : Z :=
  row target + match color piece with white => 1 | black => -1 end.

Definition enPassant (b : BoardState) (piece : ChessPiece)
    (fromRow fromCol toRow toCol : Z) (enPassantTarget : option Position)
    : result EnPassant :=
  match enPassantTarget with
  | Some target =>
      if ptype_eqb (type piece) pawn && (toRow =? row target)
         && (toCol =? col target)
      then
        dest ← rd b toRow toCol;
        if is_null dest then
          let captureRow := captureRowOf piece target in
          let captureCol := col target in
          if (fromRow =? captureRow) && (Z.abs (fromCol - captureCol) =? 1)
          then
            capturedPawn ← rd b captureRow captureCol;
            match capturedPawn with
            | JPiece q =>
                if ptype_eqb (type q) pawn
                   && negb (color_eqb (color q) (color piece))
                then Ret Capture
                else Ret Refused
            | _ => Ret Refused
            end
          else Ret Refused
        else Ret NotEnPassant
      else Ret NotEnPassant
  | None => Ret NotEnPassant
  end.

(** Step 4 of [isValidMove]: the board on which the mover's king is tested. *)
Definition simulate (b : BoardState) (piece : ChessPiece)
    (fromRow fromCol toRow toCol : Z) (isEnPassant : bool)
    (enPassantTarget : option Position) : result BoardState :=
  b1 ← wr (cloneBoard b) fromRow fromCol JNull;
  b2 ← match enPassantTarget with
       | Some target =>
           if isEnPassant
           then wr b1 (captureRowOf piece target) (col target) JNull
           else Ret b1
       | None => Ret b1
       end;
  wr b2 toRow toCol (JPiece piece).

Definition isValidMove (b : BoardState) (fromRow fromCol toRow toCol : Z)
    (enPassantTarget : option Position) : result bool :=
  p ← rd b fromRow fromCol;
  match p with
  | JPiece piece =>
      if ptype_eqb (type piece) king && (fromRow =? toRow)
         && (Z.abs (toCol - fromCol) =? 2)
      then castling b piece fromRow fromCol toCol
      else
        ep ← enPassant b piece fromRow fromCol toRow toCol enPassantTarget;
        match ep with
        | Refused => Ret false
        | _ =>
            let isEnPassant :=
              match ep with Capture => true | _ => false end in
            normal ← (if isEnPassant then Ret true
                      else isValidPieceMove b fromRow fromCol toRow toCol);
            if negb normal then Ret false
            else
              newBoard ← simulate b piece fromRow fromCol toRow toCol
                                  isEnPassant enPassantTarget;
              chk ← isKingInCheck newBoard (color piece);
              Ret (negb chk)
        end
  | _ => Ret false
  end.

(** [piece && piece.color === color] *)
Definition hasAnyLegalMove (b : BoardState) (c : Color)
    (enPassantTarget : option Position) : result bool :=
  existsR (fun from =>
             v ← rd b from.1 from.2;
             if same_color v c
             then existsR (fun to =>
                             isValidMove b from.1 from.2 to.1 to.2
                                         enPassantTarget) squares
             else Ret false) squares.

Definition isCheckmate (b : BoardState) (c : Color)
    (enPassantTarget : option Position) : result bool :=
  chk ← isKingInCheck b c;
  if negb chk then Ret false
  else any ← hasAnyLegalMove b c enPassantTarget; Ret (negb any).

Definition isStalemate (b : BoardState) (c : Color)
    (enPassantTarget : option Position) : result bool :=
  chk ← isKingInCheck b c;
  if (chk : bool) then Ret false
  else any ← hasAnyLegalMove b c enPassantTarget; Ret (negb any).

End Legality.
Export Legality.

(** ** The board update of the [ChessBoard] component *)

Module Game.

(** [const isEnPassantMove = movingPiece.type === 'pawn' && enPassantTarget
    && toRow === enPassantTarget.row && toCol === enPassantTarget.col
    && board[toRow][toCol] === null && Math.abs(fromCol - toCol) === 1] *)
Definition isEnPassantMove (board : BoardState) (movingPiece : ChessPiece)
    (fromCol toRow toCol : Z) (enPassantTarget : option Position)
    : result bool :=
  match enPassantTarget with
  | Some target =>
      if ptype_eqb (type movingPiece) pawn && (toRow =? row target)
         && (toCol =? col target)
      then dest ← rd board toRow toCol;
           Ret (is_null dest && (Z.abs (fromCol - toCol) =? 1))
      else Ret false
  | None => Ret false
  end.

(** The rook's part of a castle: [if (isCastlingMove) { ... }]. *)
Definition moveRook (newBoard : BoardState) (movingPiece : ChessPiece)
    (fromRow fromCol toRow toCol : Z) : result BoardState :=
  let isCastlingMove :=
    ptype_eqb (type movingPiece) king && (fromRow =? toRow)
    && (Z.abs (toCol - fromCol) =? 2) in
  if isCastlingMove then
    let isKingside := toCol >? fromCol in
    let rookFromCol := if isKingside then 7 else 0 in
    let rookToCol := if isKingside then toCol - 1 else toCol + 1 in
    r ← rd newBoard fromRow rookFromCol;
    match r with
    | JPiece rk =>
        if ptype_eqb (type rk) rook then
          b' ← wr newBoard fromRow rookFromCol JNull;
          wr b' fromRow rookToCol (JPiece rk)
        else Ret newBoard
    | _ => Ret newBoard
    end
  else Ret newBoard.

(** The new board [handleSquareClick] computes for the move of the piece on
    the selected square, once [isValidMove] has accepted it. [None]: the
    square holds no piece of the player to move and the board is kept. A pawn
    that reaches the last row is placed as a pawn; the promotion dialog
    replaces it afterwards. *)
Definition playerMove (board : BoardState) (currentPlayer : Color)
    (fromRow fromCol toRow toCol : Z) (enPassantTarget : option Position)
    : result (option BoardState) :=
  let newBoard := cloneBoard board in
  m ← rd newBoard fromRow fromCol;
  match m with
  | JPiece movingPiece =>
      if color_eqb (color movingPiece) currentPlayer then
        isEP ← isEnPassantMove board movingPiece fromCol toRow toCol
                               enPassantTarget;
        b1 ← wr newBoard fromRow fromCol JNull;
        b2 ← match enPassantTarget with
             | Some target =>
                 if (isEP : bool)
                 then wr b1 (captureRowOf movingPiece target) (col target) JNull
                 else Ret b1
             | None => Ret b1
             end;
        b3 ← moveRook b2 movingPiece fromRow fromCol toRow toCol;
        b4 ← wr b3 toRow toCol (JPiece movingPiece);
        Ret (Some b4)
      else Ret None
  | _ => Ret None
  end.

End Game.
Export Game.

(** ** [utils/chessAI.ts] *)

Module AI.

Inductive Difficulty := easy | medium | hard.

(** A JavaScript number of the search: an integer, [Infinity] or
    [-Infinity]. *)
Inductive num := NegInf | Fin (z : Z) | PosInf.

(** [x > y] *)
Definition num_gtb (x y : num) : bool :=
  match x, y with
  | NegInf, _ => false
  | Fin _, NegInf => true
  | Fin a, Fin b => b <? a
  | Fin _, PosInf => false
  | PosInf, PosInf => false
  | PosInf, _ => true
  end.

(** [x === y] *)
Definition num_eqb (x y : num) : bool :=
  match x, y with
  | NegInf, NegInf => true
  | Fin a, Fin b => a =? b
  | PosInf, PosInf => true
  | _, _ => false
  end.

(** [Math.max(x, y)] and [Math.min(x, y)] *)
Definition num_max (x y : num) : num := if num_gtb y x then y else x.
Definition num_min (x y : num) : num := if num_gtb x y then y else x.

Definition pieceValues (t : PieceType) : Z :=
  match t with
  | pawn => 1
  | knight => 3
  | bishop => 3
  | rook => 5
  | queen => 9
  | king => 1000
  end.

(** [for (x of l) acc = f(acc, x); return acc] *)
Fixpoint foldR {A S} (f : S -> A -> result S) (acc : S) (l : list A)
    : result S :=
  match l with
  | [] => Ret acc
  | x :: l' => acc' ← f acc x; foldR f acc' l'
  end.

Definition evaluateBoard (b : BoardState) : result Z :=
  foldR (fun score s =>
           v ← rd b s.1 s.2;
           match v with
           | JPiece piece =>
               let value := pieceValues (type piece) in
               Ret (score + match color piece with
                            | black => value
                            | white => - value
                            end)
           | _ => Ret score
           end) 0 squares.

(** The encoded move pushed by [getAllValidMoves]: [row] is the index of the
    origin, [col] the index of the destination. *)
Definition encode (from to : Z * Z) : Position :=
  mkPos (from.1 * 8 + from.2) (to.1 * 8 + to.2).

(** The moves [getAllValidMoves] pushes for one origin. *)
Definition movesFrom (b : BoardState) (c : Color) (from : Z * Z)
    : result (list Position) :=
  v ← rd b from.1 from.2;
  if same_color v c then
    tos ← filterR (fun to => isValidMove b from.1 from.2 to.1 to.2 None) squares;
    Ret (map (encode from) tos)
  else Ret [].

Definition getAllValidMoves (b : BoardState) (c : Color)
    : result (list Position) :=
  foldR (fun moves from => ms ← movesFrom b c from; Ret (moves ++ ms))
        [] squares.

(** [Math.floor(index / 8)] and [index % 8] *)
Definition decodeIndex (index : Z) : Z * Z := (index / 8, Z.rem index 8).

Definition makeMove (board : BoardState) (from to : Position)
    : result BoardState :=
  let newBoard := cloneBoard board in
  let '(fromRow, fromCol) := decodeIndex (row from) in
  let '(toRow, toCol) := decodeIndex (col to) in
  m ← rd newBoard fromRow fromCol;
  match m with
  | JPiece movingPiece =>
      b1 ← wr newBoard fromRow fromCol JNull;
      let finalPiece :=
        if ptype_eqb (type movingPiece) pawn && ((toRow =? 0) || (toRow =? 7))
        then mkPiece queen (color movingPiece)
        else movingPiece in
      wr b1 toRow toCol (JPiece finalPiece)
  | _ => Ret newBoard
  end.

(** [makeMove(board, { row: move.row, col: 0 }, { row: 0, col: move.col })] *)
Definition play (b : BoardState) (move : Position) : result BoardState :=
  makeMove b (mkPos (row move) 0) (mkPos 0 (col move)).

Fixpoint minimax (b : BoardState) (depth : nat) (isMaximizing : bool)
    : result num :=
  match depth with
  | O => s ← evaluateBoard b; Ret (Fin s)
  | S d =>
      let c := if isMaximizing then black else white in
      moves ← getAllValidMoves b c;
      match moves with
      | [] =>
          inCheck ← isKingInCheck b c;
          if (inCheck : bool)
          then Ret (if isMaximizing then NegInf else PosInf)
          else Ret (Fin 0)
      | _ =>
          if isMaximizing then
            foldR (fun maxEval move =>
                     newBoard ← play b move;
                     evalScore ← minimax newBoard d false;
                     Ret (num_max maxEval evalScore)) NegInf moves
          else
            foldR (fun minEval move =>
                     newBoard ← play b move;
                     evalScore ← minimax newBoard d true;
                     Ret (num_min minEval evalScore)) PosInf moves
      end
  end.

(** The number [Math.random()] returns is a binary64 value in [0, 1). Each
    such value is [significand / 2 ^ scale] for a significand below [2 ^ 53]
    and a scale of at most 1074 (the normal values have a significand from
    [2 ^ 52] on, the subnormal ones and zero have scale 1074), and each such
    quotient below 1 is one of them. *)
Record Draw := mkDraw { significand : Z; scale : Z }.

Definition isDraw (u : Draw) : bool :=
  (0 <=? significand u) && (significand u <? 2 ^ 53)
  && (0 <=? scale u) && (scale u <=? 1074)
  && (significand u <? 2 ^ scale u).

(** A non-negative integer rounded to 53 significant bits, to the nearest
    and to the even significand on a tie: the rounding of binary64. *)
Definition round53 (x : Z) : Z :=
  if x <? 2 ^ 53 then x
  else
    let s := Z.log2 x - 52 in
    let q := x / 2 ^ s in
    let r := x mod 2 ^ s in
    let half := 2 ^ (s - 1) in
    let up := if r <? half then false
              else if half <? r then true
              else Z.odd q in
    (if up then q + 1 else q) * 2 ^ s.

(** [Math.floor(Math.random() * n)] for the draw [u] of [Math.random()] and
    the length [n] of an array. The exact product is
    [significand * n / 2 ^ scale]; the binary64 product is that value with
    its numerator rounded to 53 significant bits (a product with a numerator
    below [2 ^ 53] is exact, and no product of the two underflows or
    overflows); [Math.floor] is the integer quotient. *)
Definition randomIndex (u : Draw) (n : nat) : Z :=
  round53 (significand u * Z.of_nat n) / 2 ^ scale u.

(** [l[i]]; [None] stands for the [undefined] of an index outside the list,
    which a draw of [Math.random()] never produces. *)
Definition pickAt {A} (l : list A) (i : Z) : option A :=
  if i <? 0 then None else l !! Z.to_nat i.

(** The value the medium level gives a move: the value of the piece on its
    destination, 0 when the destination is empty. *)
Definition captureScore (board : BoardState) (move : Position) : result Z :=
  let '(toRow, toCol) := decodeIndex (col move) in
  capturedPiece ← rd board toRow toCol;
  Ret (match capturedPiece with
       | JPiece q => pieceValues (type q)
       | _ => 0
       end).

(** The loop of the medium level, on the pair [(bestMoves, bestScore)]. *)
Definition mediumStep (board : BoardState) (acc : list Position * num)
    (move : Position) : result (list Position * num) :=
  let '(bestMoves, bestScore) := acc in
  score ← captureScore board move;
  if num_gtb (Fin score) bestScore then Ret ([move], Fin score)
  else if num_eqb (Fin score) bestScore then Ret (bestMoves ++ [move], bestScore)
  else Ret (bestMoves, bestScore).

(** The loop of the hard level, on the pair [(bestMove, bestValue)]. *)
Definition hardStep (board : BoardState) (acc : option Position * num)
    (move : Position) : result (option Position * num) :=
  let '(bestMove, bestValue) := acc in
  newBoard ← play board move;
  value ← minimax newBoard 1 false;
  if num_gtb value bestValue then Ret (Some move, value)
  else Ret (bestMove, bestValue).

(** [u] is the number [Math.random()] returns when the level draws one. *)
Definition getAIMove (board : BoardState) (difficulty : Difficulty) (u : Draw)
    : result (option Position) :=
  moves ← getAllValidMoves board black;
  match moves with
  | [] => Ret None
  | _ =>
      match difficulty with
      | easy => Ret (pickAt moves (randomIndex u (length moves)))
      | medium =>
          best ← foldR (mediumStep board) ([], NegInf) moves;
          Ret (pickAt best.1 (randomIndex u (length best.1)))
      | hard =>
          best ← foldR (hardStep board) (None, NegInf) moves;
          Ret best.1
      end
  end.

End AI.
Export AI.

(** ** The rest of the [ChessBoard] component's game flow *)

Module Component.

(** [type PromotionPieceType = Exclude<PieceType, 'king' | 'pawn'>] *)
Inductive PromotionPieceType := toQueen | toRook | toBishop | toKnight.

Definition promotedType (t : PromotionPieceType) : PieceType :=
  match t with
  | toQueen => queen
  | toRook => rook
  | toBishop => bishop
  | toKnight => knight
  end.

(** The local [nextEnPassant] both move handlers compute:
    [{ row: (toRow + fromRow) / 2, col: toCol }] after a pawn has moved two
    rows, [null] otherwise. The sum of two rows two apart is even, so the
    division is exact. What the handlers store is [settleTarget] below. *)
Definition nextEnPassant (movingPiece : ChessPiece) (fromRow toRow toCol : Z)
    : option Position :=
  if ptype_eqb (type movingPiece) pawn && (Z.abs (toRow - fromRow) =? 2)
  then Some (mkPos ((toRow + fromRow) / 2) toCol)
  else None.

(** The en passant target both move handlers store once the new board is
    built: [setEnPassantTarget(null)] when the move checkmates the next
    player, [setEnPassantTarget(null)] when it stalemates them, and
    otherwise, after [isKingInCheck] has been asked for the check mark,
    [setEnPassantTarget(nextEnPassant)]. *)
Definition settleTarget (newBoard : BoardState) (nextPlayer : Color)
    (nextEnPassant : option Position) : result (option Position) :=
  mate ← isCheckmate newBoard nextPlayer nextEnPassant;
  if (mate : bool) then Ret None
  else
    stale ← isStalemate newBoard nextPlayer nextEnPassant;
    if (stale : bool) then Ret None
    else
      _ ← isKingInCheck newBoard nextPlayer;
      Ret nextEnPassant.

(** The en passant target [handleSquareClick] stores after it has put
    [movingPiece] on the new board. For a pawn that reaches row 0 or 7 it
    stores [nextEnPassant] at once and opens the promotion dialog; the next
    player is [currentPlayer === 'white' ? 'black' : 'white']. *)
Definition clickTarget (newBoard : BoardState) (movingPiece : ChessPiece)
    (currentPlayer : Color) (fromRow toRow toCol : Z)
    : result (option Position) :=
  let isPromotionMove :=
    ptype_eqb (type movingPiece) pawn && ((toRow =? 0) || (toRow =? 7)) in
  let nextPlayer := opponent currentPlayer in
  let next := nextEnPassant movingPiece fromRow toRow toCol in
  if isPromotionMove then Ret next
  else settleTarget newBoard nextPlayer next.

(** The new board the effect that plays the computer's move computes from
    the move [getAIMove] returned. [None]: the origin holds no piece and the
    effect gives up. A pawn that reaches row 0 or 7 becomes a queen. *)
Definition aiBoardUpdate (board : BoardState) (aiMove : Position)
    (enPassantTarget : option Position) : result (option BoardState) :=
  let fromRow := row aiMove / 8 in
  let fromCol := Z.rem (row aiMove) 8 in
  let toRow := col aiMove / 8 in
  let toCol := Z.rem (col aiMove) 8 in
  let newBoard := cloneBoard board in
  m ← rd newBoard fromRow fromCol;
  match m with
  | JPiece movingPiece =>
      isEP ← isEnPassantMove board movingPiece fromCol toRow toCol
                             enPassantTarget;
      b1 ← wr newBoard fromRow fromCol JNull;
      b2 ← match enPassantTarget with
           | Some target =>
               if (isEP : bool)
               then wr b1 (captureRowOf movingPiece target) (col target) JNull
               else Ret b1
           | None => Ret b1
           end;
      b3 ← moveRook b2 movingPiece fromRow fromCol toRow toCol;
      let finalPiece :=
        if ptype_eqb (type movingPiece) pawn && ((toRow =? 0) || (toRow =? 7))
        then mkPiece queen (color movingPiece)
        else movingPiece in
      b4 ← wr b3 toRow toCol (JPiece finalPiece);
      Ret (Some b4)
  | _ => Ret None
  end.

(** The new board [handlePromotionChoice] computes: the piece of the chosen
    type, in the mover's colour, is stored on the promotion square. *)
Definition promotionBoard (board : BoardState) (to : Position)
    (pieceType : PromotionPieceType) (movingColor : Color)
    : result BoardState :=
  wr (cloneBoard board) (row to) (col to)
     (JPiece (mkPiece (promotedType pieceType) movingColor)).

End Component.
Export Component.

(** ** Vocabulary of the properties *)

(** An en passant target, when there is one, is a square of the board. *)
Definition target_inside (t : option Position) : Prop :=
  match t with
  | Some p => inside (row p) (col p)
  | None => True
  end.

(** Some square holds a piece of colour [c] from which [isValidMove] accepts
    some destination. *)
Definition legalMoveExists (b : BoardState) (c : Color) (ep : option Position)
    : Prop :=
  exists fr fc tr tc p,
    inside fr fc /\ inside tr tc /\ rd b fr fc = Ret (JPiece p) /\ color p = c
    /\ isValidMove b fr fc tr tc ep = Ret true.

(** A king that moves two files along its row. *)
Definition castleShaped (b : BoardState) (fr fc tr tc : Z) : Prop :=
  exists piece, rd b fr fc = Ret (JPiece piece) /\ type piece = king
                /\ fr = tr /\ Z.abs (tc - fc) = 2.

(** [nb] is the board [b] with king and rook relocated by a castle along
    row [fr]: the rook [rk] stands on column [rookDestCol] and the king
    [piece] on column [tc]; the king's origin, column [fc], and the rook's
    corner, column [rookCol], are empty, unless the king has landed on the
    corner; every other square is as on [b]. *)
Definition castled (b nb : BoardState) (piece rk : ChessPiece)
    (fr fc tc rookCol rookDestCol : Z) : Prop :=
  wf_board nb = true /\
  forall r c,
    rd nb r c =
    if decide (fr = r /\ rookDestCol = c) then Ret (JPiece rk)
    else if decide (fr = r /\ tc = c) then Ret (JPiece piece)
    else if decide (fr = r /\ (rookCol = c \/ fc = c)) then Ret JNull
    else rd b r c.

(** A king beside its rook in the corner, on an otherwise empty board. *)
Definition cornerBoard : BoardState :=
  replicate 7 (rowOf (replicate 8 JNull))
  ++ [rowOf (replicate 6 JNull
             ++ [JPiece (mkPiece king white); JPiece (mkPiece rook white)])].

(** The piece [makeMove] puts on the destination. *)
Definition finalPiece (movingPiece : ChessPiece) (toRow : Z) : ChessPiece :=
  if ptype_eqb (type movingPiece) pawn && ((toRow =? 0) || (toRow =? 7))
  then mkPiece queen (color movingPiece)
  else movingPiece.

(** [m] encodes a move of a piece of colour [c] that [isValidMove] accepts
    when no en passant target is supplied. *)
Definition legalMove (b : BoardState) (c : Color) (m : Position) : Prop :=
  exists fr fc tr tc p,
    m = encode (fr, fc) (tr, tc) /\ inside fr fc /\ inside tr tc
    /\ rd b fr fc = Ret (JPiece p) /\ color p = c
    /\ isValidMove b fr fc tr tc None = Ret true.

(** The value the hard level gives a move: the move is played, and the
    position is searched one ply deep with white to move. *)
Definition moveValue (b : BoardState) (m : Position) : result num :=
  play b m ≫= fun newBoard => minimax newBoard 1 false.

(** After the loop of the hard level over [l]: nothing is chosen when [l] is
    empty; otherwise the chosen move is valued strictly above the moves
    before it and at least as high as the moves after it. *)
Definition firstBest (value : Position -> result num) (l : list Position)
    (acc : option Position * num) : Prop :=
  match acc.1 with
  | None => l = [] /\ acc.2 = NegInf
  | Some m =>
      exists l1 l2,
        l = l1 ++ m :: l2 /\ value m = Ret acc.2
        /\ (forall x, x ∈ l1 -> exists v, value x = Ret v /\ num_gtb acc.2 v = true)
        /\ (forall x, x ∈ l2 -> exists v, value x = Ret v /\ num_gtb v acc.2 = false)
  end.

(** The score the medium level gives a move. *)
Definition scoreOf (b : BoardState) (m : Position) : Z :=
  match captureScore b m with
  | Ret z => z
  | _ => 0
  end.




(** The draw [u] selects within index [k] of [n], up to [slack] parts in
    [2 ^ 53]: with [x] the exact product of the draw and [n],
    [k <= x (1 + slack / 2^53)] and [x (1 - slack / 2^53) < k + 1], both
    stated multiplied by [2 ^ scale * 2 ^ 53]. With slack 0 these are the
    draws from [k / n] up to [(k + 1) / n]. *)
Definition drawnWithin (u : Draw) (n : nat) (k slack : Z) : Prop :=
  let x := significand u * Z.of_nat n in
  let unit := 2 ^ scale u * 2 ^ 53 in
  k * unit <= x * (2 ^ 53 + slack) /\ x * (2 ^ 53 - slack) < (k + 1) * unit.



(** After the loop of the medium level over a non-empty [l], [bestScore] is
    the highest capture value in [l] and [bestMoves] lists, in order, the
    moves of [l] that have it. *)
Definition bestCaptures (b : BoardState) (l : list Position)
    (acc : list Position * num) : Prop :=
  (l = [] /\ acc = ([], NegInf)) \/
  exists s, acc.2 = Fin s /\ (forall x, x ∈ l -> scoreOf b x <= s)
            /\ acc.1 = filter (fun x => scoreOf b x = s) l /\ acc.1 <> [].

Definition emptyRow : Row := rowOf (replicate 8 JNull).

(** White king on e1 with its rook on h1, black king on e8. *)
Definition castleReadyBoard : BoardState :=
  [ rowOf [JNull; JNull; JNull; JNull; JPiece (mkPiece king black);
           JNull; JNull; JNull];
    emptyRow; emptyRow; emptyRow; emptyRow; emptyRow; emptyRow;
    rowOf [JNull; JNull; JNull; JNull; JPiece (mkPiece king white);
           JNull; JNull; JPiece (mkPiece rook white)] ].

(** A white pawn on e5 beside the black pawn that has just played f7-f5. *)
Definition enPassantBoard : BoardState :=
  [ rowOf [JNull; JNull; JNull; JNull; JPiece (mkPiece king black);
           JNull; JNull; JNull];
    emptyRow; emptyRow;
    rowOf [JNull; JNull; JNull; JNull; JPiece (mkPiece pawn white);
           JPiece (mkPiece pawn black); JNull; JNull];
    emptyRow; emptyRow; emptyRow;
    rowOf [JNull; JNull; JNull; JNull; JPiece (mkPiece king white);
           JNull; JNull; JNull] ].




(** The position after 1. f3 e5 2. g4 Qh4. *)
Definition foolsMateBoard : BoardState :=
  [ rowOf [JPiece (mkPiece rook black); JPiece (mkPiece knight black);
           JPiece (mkPiece bishop black); JNull; JPiece (mkPiece king black);
           JPiece (mkPiece bishop black); JPiece (mkPiece knight black);
           JPiece (mkPiece rook black)];
    rowOf [JPiece (mkPiece pawn black); JPiece (mkPiece pawn black);
           JPiece (mkPiece pawn black); JPiece (mkPiece pawn black); JNull;
           JPiece (mkPiece pawn black); JPiece (mkPiece pawn black);
           JPiece (mkPiece pawn black)];
    emptyRow;
    rowOf [JNull; JNull; JNull; JNull; JPiece (mkPiece pawn black);
           JNull; JNull; JNull];
    rowOf [JNull; JNull; JNull; JNull; JNull; JNull;
           JPiece (mkPiece pawn white); JPiece (mkPiece queen black)];
    rowOf [JNull; JNull; JNull; JNull; JNull; JPiece (mkPiece pawn white);
           JNull; JNull];
    rowOf [JPiece (mkPiece pawn white); JPiece (mkPiece pawn white);
           JPiece (mkPiece pawn white); JPiece (mkPiece pawn white);
           JPiece (mkPiece pawn white); JNull; JNull;
           JPiece (mkPiece pawn white)];
    rowOf (map (fun t => JPiece (mkPiece t white)) backRank) ].

(** Black king on h8, white king on f7 and white queen on g6. *)
Definition stalemateBoard : BoardState :=
  [ rowOf [JNull; JNull; JNull; JNull; JNull; JNull; JNull;
           JPiece (mkPiece king black)];
    rowOf [JNull; JNull; JNull; JNull; JNull; JPiece (mkPiece king white);
           JNull; JNull];
    rowOf [JNull; JNull; JNull; JNull; JNull; JNull;
           JPiece (mkPiece queen white); JNull];
    emptyRow; emptyRow; emptyRow; emptyRow; emptyRow ].

(** The squares strictly between two squares of a line hold [null]. *)
Definition pathEmpty (b : BoardState) (fr fc tr tc : Z) : Prop :=
  forall k, 0 < k < Z.max (Z.abs (tr - fr)) (Z.abs (tc - fc)) ->
            rd b (fr + k * stepToward fr tr) (fc + k * stepToward fc tc)
            = Ret JNull.

(** The lines a sliding piece moves along, by row and column difference. *)
Definition lineOf (t : PieceType) (dr dc : Z) : Prop :=
  match t with
  | rook => dr = 0 \/ dc = 0
  | bishop => Z.abs dr = Z.abs dc
  | queen => dr = 0 \/ dc = 0 \/ Z.abs dr = Z.abs dc
  | _ => False
  end.

(** The destination holds no piece of colour [c]. *)
Definition notOwn (b : BoardState) (c : Color) (tr tc : Z) : Prop :=
  forall q, rd b tr tc = Ret (JPiece q) -> color q <> c.

(** The row a pawn of a colour advances by, and the row it starts on. *)
Definition pawnDirection (c : Color) : Z :=
  match c with white => -1 | black => 1 end.

Definition pawnStartRow (c : Color) : Z :=
  match c with white => 6 | black => 1 end.

(** The value of a child of a search node: the move is played and the
    resulting board searched one level less deep, the other side to move. *)
Definition childValue (b : BoardState) (d : nat) (isMaximizing : bool)
    (m : Position) : result num :=
  play b m ≫= fun newBoard => minimax newBoard d isMaximizing.

(** What a square adds to the material balance. *)
Definition signedValue (v : jsval) : Z :=
  match v with
  | JPiece p =>
      match color p with
      | black => pieceValues (type p)
      | white => - pieceValues (type p)
      end
  | _ => 0
  end.

(** The value a board holds on a square ([undefined] off the board). *)
Definition cellAt (b : BoardState) (s : Z * Z) : jsval :=
  match rd b s.1 s.2 with
  | Ret v => v
  | _ => JUndefined
  end.

(** The sum of [g] over a list of squares. *)
Definition total (g : Z * Z -> Z) (l : list (Z * Z)) : Z :=
  foldr (fun s a => g s + a) 0 l.

(** The board of [castleReadyBoard] with a black pawn on f2, the row before
    the square the castling king crosses. *)
Definition pawnBeforeCastleBoard : BoardState :=
  [ rowOf [JNull; JNull; JNull; JNull; JPiece (mkPiece king black);
           JNull; JNull; JNull];
    emptyRow; emptyRow; emptyRow; emptyRow; emptyRow;
    rowOf [JNull; JNull; JNull; JNull; JNull;
           JPiece (mkPiece pawn black); JNull; JNull];
    rowOf [JNull; JNull; JNull; JNull; JPiece (mkPiece king white);
           JNull; JNull; JPiece (mkPiece rook white)] ].

(** The board of [enPassantBoard] one move earlier: the black pawn is still
    on f7. *)
Definition beforeDoubleStepBoard : BoardState :=
  [ rowOf [JNull; JNull; JNull; JNull; JPiece (mkPiece king black);
           JNull; JNull; JNull];
    rowOf [JNull; JNull; JNull; JNull; JNull;
           JPiece (mkPiece pawn black); JNull; JNull];
    emptyRow;
    rowOf [JNull; JNull; JNull; JNull; JPiece (mkPiece pawn white);
           JNull; JNull; JNull];
    emptyRow; emptyRow; emptyRow;
    rowOf [JNull; JNull; JNull; JNull; JPiece (mkPiece king white);
           JNull; JNull; JNull] ].

(** A white pawn on a7, one step from the last row. *)
Definition pawnOnSeventhBoard : BoardState :=
  [ rowOf [JNull; JNull; JNull; JNull; JPiece (mkPiece king black);
           JNull; JNull; JNull];
    rowOf [JPiece (mkPiece pawn white); JNull; JNull; JNull; JNull;
           JNull; JNull; JNull];
    emptyRow; emptyRow; emptyRow; emptyRow; emptyRow;
    rowOf [JNull; JNull; JNull; JNull; JPiece (mkPiece king white);
           JNull; JNull; JNull] ].

(** * Properties *)

(** ** The outcome monad *)

Lemma bind_unfold {A B} (m : result A) (k : A -> result B) :
  (m ≫= k) = result_bind m k.
Proof. reflexivity. Qed.

Lemma bind_Ret {A B} (a : A) (k : A -> result B) : (Ret a ≫= k) = k a.
Proof. reflexivity. Qed.

Lemma bind_Ret_inv {A B} (m : result A) (k : A -> result B) (v : B) :
  (m ≫= k) = Ret v -> exists a, m = Ret a /\ k a = Ret v.
Proof. destruct m; simpl; intros H; try discriminate. eauto. Qed.

Lemma returns_Ret {A} (a : A) : returns (Ret a).
Proof. by exists a. Qed.

Lemma returns_bind {A B} (m : result A) (k : A -> result B) :
  returns m -> (forall a, m = Ret a -> returns (k a)) -> returns (m ≫= k).
Proof. intros [a ->] Hk. rewrite bind_Ret. by apply Hk. Qed.

Create HintDb chess.
#[global] Hint Resolve returns_Ret : chess.

(** Split a hypothesis [(x ← m; k) = Ret v]. *)
Ltac bind_inv H :=
  let a := fresh "a" in
  let Ha := fresh "E" in
  apply bind_Ret_inv in H; destruct H as (a & Ha & H).

(** ** Early-exit loops *)

Section Loops.
Context {A : Type} (f : A -> result bool).

Lemma existsR_returns (l : list A) :
  (forall x, x ∈ l -> returns (f x)) -> returns (existsR f l).
Proof.
  induction l as [|x l IH]; intros H; simpl; [apply returns_Ret|].
  destruct (H x) as [v Hv]; [left|]. rewrite Hv, bind_Ret.
  destruct v; [apply returns_Ret|]. apply IH. intros y Hy. apply H. by right.
Qed.

Lemma existsR_true (l : list A) :
  existsR f l = Ret true -> exists x, x ∈ l /\ f x = Ret true.
Proof.
  induction l as [|x l IH]; simpl; intros H; [discriminate|].
  bind_inv H. destruct a.
  - exists x. split; [left | done].
  - destruct (IH H) as (y & Hy & Hf). exists y. split; [by right | done].
Qed.

Lemma existsR_false (l : list A) :
  existsR f l = Ret false -> forall x, x ∈ l -> f x = Ret false.
Proof.
  induction l as [|x l IH]; simpl; intros H y Hy; [by apply elem_of_nil in Hy|].
  bind_inv H. destruct a; [discriminate|].
  apply elem_of_cons in Hy as [->|Hy]; [done | by apply IH].
Qed.

Lemma existsR_intro (l : list A) x :
  (forall y, y ∈ l -> returns (f y)) -> x ∈ l -> f x = Ret true ->
  existsR f l = Ret true.
Proof.
  intros Hr Hx Hf. destruct (existsR_returns l Hr) as [[] Hv]; [done|].
  rewrite (existsR_false l Hv x Hx) in Hf. discriminate.
Qed.

Lemma findR_returns (l : list A) :
  (forall x, x ∈ l -> returns (f x)) -> returns (findR f l).
Proof.
  induction l as [|x l IH]; intros H; simpl; [apply returns_Ret|].
  destruct (H x) as [v Hv]; [left|]. rewrite Hv, bind_Ret.
  destruct v; [apply returns_Ret|]. apply IH. intros y Hy. apply H. by right.
Qed.

Lemma findR_Some (l : list A) x :
  findR f l = Ret (Some x) -> x ∈ l /\ f x = Ret true.
Proof.
  induction l as [|y l IH]; simpl; intros H; [discriminate|].
  bind_inv H. destruct a.
  - injection H as ->. split; [left | done].
  - destruct (IH H). split; [by right | done].
Qed.

Lemma filterR_returns (l : list A) :
  (forall x, x ∈ l -> returns (f x)) -> returns (filterR f l).
Proof.
  induction l as [|x l IH]; intros H; simpl; [apply returns_Ret|].
  destruct (H x) as [v Hv]; [left|]. rewrite Hv, bind_Ret.
  destruct IH as [r Hr]; [intros y Hy; apply H; by right|].
  rewrite Hr, bind_Ret. apply returns_Ret.
Qed.

Lemma filterR_elem (l out : list A) x :
  filterR f l = Ret out -> (x ∈ out <-> x ∈ l /\ f x = Ret true).
Proof.
  revert out. induction l as [|y l IH]; simpl; intros out H.
  - injection H as <-. split; [intros Hx; by apply elem_of_nil in Hx|].
    intros [Hx _]. by apply elem_of_nil in Hx.
  - bind_inv H. bind_inv H. injection H as <-. specialize (IH _ E0).
    destruct a.
    + rewrite !elem_of_cons, IH. split.
      * intros [->|[? ?]]; eauto.
      * intros [[->|?] ?]; eauto.
    + rewrite elem_of_cons, IH. split.
      * intros [? ?]; eauto.
      * intros [[->|?] Hf]; [congruence | eauto].
Qed.
End Loops.

Section Fold.
Context {A S : Type} (f : S -> A -> result S).

Lemma foldR_returns (l : list A) (acc : S) :
  (forall s x, x ∈ l -> returns (f s x)) -> returns (foldR f acc l).
Proof.
  revert acc. induction l as [|x l IH]; intros acc H; simpl; [apply returns_Ret|].
  destruct (H acc x) as [v Hv]; [left|]. rewrite Hv, bind_Ret.
  apply IH. intros s y Hy. apply H. by right.
Qed.

Lemma foldR_ext (g : S -> A -> result S) (l : list A) (acc : S) :
  (forall s x, f s x = g s x) -> foldR f acc l = foldR g acc l.
Proof.
  intros Hfg. revert acc. induction l as [|x l IH]; intros acc; simpl; [done|].
  rewrite Hfg. destruct (g acc x); simpl; [apply IH | done | done].
Qed.

Lemma foldR_app (l1 l2 : list A) (acc : S) :
  foldR f acc (l1 ++ l2) = (foldR f acc l1 ≫= fun s => foldR f s l2).
Proof.
  revert acc. induction l1 as [|x l1 IH]; intros acc; simpl; [done|].
  destruct (f acc x); simpl; [apply IH | done | done].
Qed.
End Fold.

Arguments existsR : simpl never.
Arguments findR : simpl never.
Arguments filterR : simpl never.
Arguments foldR : simpl never.

(** ** Boards *)

Lemma elem_of_squares r c : (r, c) ∈ squares <-> inside r c.
Proof.
  unfold inside. split.
  - intros H. apply list_elem_of_In in H. simpl in H.
    repeat (destruct H as [H|H]; [injection H as <- <-; lia|]). done.
  - intros [Hr Hc]. apply list_elem_of_In.
    assert (r = 0 \/ r = 1 \/ r = 2 \/ r = 3 \/ r = 4 \/ r = 5 \/ r = 6 \/ r = 7)
      as Hr' by lia.
    assert (c = 0 \/ c = 1 \/ c = 2 \/ c = 3 \/ c = 4 \/ c = 5 \/ c = 6 \/ c = 7)
      as Hc' by lia.
    destruct Hr' as [->|[->|[->|[->|[->|[->|[->| ->]]]]]]];
      destruct Hc' as [->|[->|[->|[->|[->|[->|[->| ->]]]]]]]; simpl; tauto.
Qed.

Lemma squares_inside s : s ∈ squares -> inside s.1 s.2.
Proof. destruct s as [r c]. apply elem_of_squares. Qed.

Lemma wf_row_spec rw :
  wf_row rw = true <->
  length (elems rw) = 8%nat /\ Forall (fun v => is_cell v = true) (elems rw)
  /\ props rw = [].
Proof.
  unfold wf_row. rewrite !andb_true_iff, Nat.eqb_eq, forallb_forall, Forall_forall.
  setoid_rewrite <- list_elem_of_In.
  destruct (props rw); intuition congruence.
Qed.

Lemma wf_board_spec b :
  wf_board b = true <->
  length b = 8%nat /\ Forall (fun rw => wf_row rw = true) b.
Proof.
  unfold wf_board. rewrite andb_true_iff, Nat.eqb_eq, forallb_forall, Forall_forall.
  setoid_rewrite <- list_elem_of_In. tauto.
Qed.

Lemma wf_board_row b r :
  wf_board b = true -> 0 <= r < 8 ->
  exists rw, board_row b r = Some rw /\ wf_row rw = true.
Proof.
  intros [Hl Hf]%wf_board_spec Hr. unfold board_row.
  destruct (Z.ltb_spec r 0); [lia|].
  destruct (lookup_lt_is_Some_2 b (Z.to_nat r)) as [rw Hrw]; [lia|].
  exists rw. split; [done|]. rewrite Forall_forall in Hf. apply Hf.
  eapply list_elem_of_lookup_2, Hrw.
Qed.

Lemma board_row_outside b r :
  length b = 8%nat -> ~ 0 <= r < 8 -> board_row b r = None.
Proof.
  intros Hl Hr. unfold board_row. destruct (Z.ltb_spec r 0); [done|].
  apply lookup_ge_None. lia.
Qed.

Lemma wf_row_get rw c :
  wf_row rw = true -> 0 <= c < 8 ->
  exists v, elems rw !! Z.to_nat c = Some v /\ row_get rw c = v /\ is_cell v = true.
Proof.
  intros (Hl & Hf & Hp)%wf_row_spec Hc. unfold row_get.
  destruct (Z.ltb_spec c 0); [lia|].
  destruct (lookup_lt_is_Some_2 (elems rw) (Z.to_nat c)) as [v Hv]; [lia|].
  exists v. rewrite Hv. repeat split. rewrite Forall_forall in Hf. apply Hf.
  eapply list_elem_of_lookup_2, Hv.
Qed.

Lemma wf_row_get_outside rw c :
  wf_row rw = true -> ~ 0 <= c < 8 -> row_get rw c = JUndefined.
Proof.
  intros (Hl & Hf & Hp)%wf_row_spec Hc. unfold row_get.
  destruct (Z.ltb_spec c 0); [by rewrite Hp|].
  rewrite (lookup_ge_None_2 (elems rw)); [done | lia].
Qed.

(** A read of a square of the board gives a piece or [null]. *)
Lemma rd_inside b r c :
  wf_board b = true -> inside r c ->
  exists v, rd b r c = Ret v /\ is_cell v = true.
Proof.
  intros Hb [Hr Hc]. destruct (wf_board_row b r Hb Hr) as (rw & Hrw & Hw).
  destruct (wf_row_get rw c Hw Hc) as (v & _ & Hv & Hcell).
  exists v. unfold rd. by rewrite Hrw, Hv.
Qed.

(** A read in an existing row never throws. *)
Lemma rd_returns b r c : wf_board b = true -> 0 <= r < 8 -> returns (rd b r c).
Proof.
  intros Hb Hr. destruct (wf_board_row b r Hb Hr) as (rw & Hrw & _).
  unfold rd. rewrite Hrw. apply returns_Ret.
Qed.

(** Past the eight columns a row reads [undefined]. *)
Lemma rd_outside_col b r c :
  wf_board b = true -> 0 <= r < 8 -> ~ 0 <= c < 8 -> rd b r c = Ret JUndefined.
Proof.
  intros Hb Hr Hc. destruct (wf_board_row b r Hb Hr) as (rw & Hrw & Hw).
  unfold rd. by rewrite Hrw, wf_row_get_outside.
Qed.

(** Outside the eight rows [board[r]] is [undefined] and the read throws. *)
Lemma rd_outside_row b r c :
  wf_board b = true -> ~ 0 <= r < 8 -> rd b r c = Throw.
Proof.
  intros [Hl _]%wf_board_spec Hr. unfold rd. by rewrite board_row_outside.
Qed.

(** A piece is only ever read on a square of the board. *)
Lemma rd_piece_inside b r c p :
  wf_board b = true -> rd b r c = Ret (JPiece p) -> inside r c.
Proof.
  intros Hb H.
  destruct (decide (0 <= r < 8)) as [Hr|Hr];
    [|rewrite rd_outside_row in H by done; discriminate].
  destruct (decide (0 <= c < 8)) as [Hc|Hc]; [done|].
  rewrite rd_outside_col in H by done. discriminate.
Qed.

Lemma spread_wf rw : wf_row rw = true -> spread rw = rw.
Proof. intros (_ & _ & Hp)%wf_row_spec. destruct rw; simpl in *. by subst. Qed.

(** Copying a well-formed board gives an equal board. *)
Lemma cloneBoard_wf b : wf_board b = true -> cloneBoard b = b.
Proof.
  intros [_ Hf]%wf_board_spec. unfold cloneBoard.
  induction Hf as [|rw l Hrw Hl IH]; simpl; [done|]. by rewrite spread_wf, IH.
Qed.

Lemma row_set_inside rw c v :
  wf_row rw = true -> 0 <= c < 8 ->
  row_set rw c v = mkRow (<[Z.to_nat c := v]> (elems rw)) [].
Proof.
  intros (Hl & _ & Hp)%wf_row_spec Hc. unfold row_set.
  destruct (Z.ltb_spec c 0); [lia|].
  destruct (Nat.ltb_spec (Z.to_nat c) (length (elems rw))); [|lia].
  by rewrite Hp.
Qed.

Lemma row_set_wf rw c v :
  wf_row rw = true -> 0 <= c < 8 -> is_cell v = true ->
  wf_row (row_set rw c v) = true.
Proof.
  intros Hw Hc Hv. rewrite row_set_inside by done.
  apply wf_row_spec in Hw as (Hl & Hf & Hp). apply wf_row_spec; simpl.
  rewrite length_insert. repeat split; [done|].
  apply Forall_insert; done.
Qed.

Lemma row_get_set rw c v c' :
  wf_row rw = true -> 0 <= c < 8 ->
  row_get (row_set rw c v) c' = if decide (c = c') then v else row_get rw c'.
Proof.
  intros Hw Hc. rewrite row_set_inside by done.
  apply wf_row_spec in Hw as (Hl & Hf & Hp). unfold row_get; simpl. rewrite Hp.
  destruct (Z.ltb_spec c' 0).
  - destruct (decide (c = c')); [lia | done].
  - destruct (decide (c = c')) as [->|Hne].
    + rewrite list_lookup_insert_eq; [done | lia].
    + rewrite list_lookup_insert_ne; [done | lia].
Qed.

(** A store on a square of the board succeeds and keeps the board 8 by 8. *)
Lemma wr_inside b r c v :
  wf_board b = true -> inside r c -> is_cell v = true ->
  exists b', wr b r c v = Ret b' /\ wf_board b' = true.
Proof.
  intros Hb [Hr Hc] Hv. destruct (wf_board_row b r Hb Hr) as (rw & Hrw & Hw).
  unfold wr. rewrite Hrw. eexists. split; [done|].
  apply wf_board_spec in Hb as [Hl Hf]. apply wf_board_spec.
  rewrite length_insert. split; [done|].
  apply Forall_insert; [done|]. by apply row_set_wf.
Qed.

(** A read after a store on a square of the board. *)
Lemma rd_wr b r c v b' r' c' :
  wf_board b = true -> inside r c -> wr b r c v = Ret b' ->
  rd b' r' c' = if decide (r = r' /\ c = c') then Ret v else rd b r' c'.
Proof.
  intros Hb [Hr Hc] H. destruct (wf_board_row b r Hb Hr) as (rw & Hrw & Hw).
  unfold wr in H. rewrite Hrw in H. injection H as <-.
  unfold rd, board_row in *. destruct (Z.ltb_spec r 0); [lia|].
  destruct (Z.ltb_spec r' 0).
  - destruct (decide (r = r' /\ c = c')); [lia | done].
  - destruct (decide (r = r')) as [<-|Hne].
    + rewrite list_lookup_insert_eq, Hrw
        by (apply wf_board_spec in Hb as [-> _]; lia).
      rewrite row_get_set by done.
      destruct (decide (c = c')), (decide (r = r /\ c = c')); tauto || done.
    + rewrite list_lookup_insert_ne by lia.
      destruct (decide (r = r' /\ c = c')); [tauto | done].
Qed.

Lemma rd_wr_same b r c v b' :
  wf_board b = true -> inside r c -> wr b r c v = Ret b' -> rd b' r c = Ret v.
Proof.
  intros Hb Hi H. rewrite (rd_wr b r c v b') by done.
  destruct (decide (r = r /\ c = c)); tauto.
Qed.

Lemma rd_wr_other b r c v b' r' c' :
  wf_board b = true -> inside r c -> wr b r c v = Ret b' ->
  (r, c) <> (r', c') -> rd b' r' c' = rd b r' c'.
Proof.
  intros Hb Hi H Hne. rewrite (rd_wr b r c v b') by done.
  destruct (decide (r = r' /\ c = c')) as [[-> ->]|]; [done | done].
Qed.

(** Two 8 by 8 boards with the same squares are equal. *)
Lemma board_ext b1 b2 :
  wf_board b1 = true -> wf_board b2 = true ->
  (forall r c, inside r c -> rd b1 r c = rd b2 r c) -> b1 = b2.
Proof.
  intros H1 H2 Heq. apply list_eq. intros i.
  destruct (decide (i < 8)%nat) as [Hi|Hi].
  - assert (0 <= Z.of_nat i < 8) as Hr by lia.
    destruct (wf_board_row b1 _ H1 Hr) as (rw1 & Hrw1 & Hw1).
    destruct (wf_board_row b2 _ H2 Hr) as (rw2 & Hrw2 & Hw2).
    unfold board_row in Hrw1, Hrw2.
    destruct (Z.ltb_spec (Z.of_nat i) 0); [lia|]. rewrite Nat2Z.id in Hrw1, Hrw2.
    rewrite Hrw1, Hrw2. f_equal.
    assert (elems rw1 = elems rw2) as He.
    { apply list_eq. intros j. destruct (decide (j < 8)%nat) as [Hj|Hj].
      - assert (0 <= Z.of_nat j < 8) as Hc by lia.
        specialize (Heq (Z.of_nat i) (Z.of_nat j) (conj Hr Hc)).
        unfold rd, board_row in Heq.
        destruct (Z.ltb_spec (Z.of_nat i) 0); [lia|].
        rewrite Nat2Z.id, Hrw1, Hrw2 in Heq. injection Heq as Heq.
        destruct (wf_row_get rw1 _ Hw1 Hc) as (v1 & Hv1 & Hg1 & _).
        destruct (wf_row_get rw2 _ Hw2 Hc) as (v2 & Hv2 & Hg2 & _).
        rewrite Nat2Z.id in Hv1, Hv2. congruence.
      - apply wf_row_spec in Hw1 as (Hl1 & _). apply wf_row_spec in Hw2 as (Hl2 & _).
        rewrite !lookup_ge_None_2; [done | lia | lia]. }
    apply wf_row_spec in Hw1 as (_ & _ & Hp1).
    apply wf_row_spec in Hw2 as (_ & _ & Hp2).
    destruct rw1, rw2; simpl in *. congruence.
  - apply wf_board_spec in H1 as [Hl1 _]. apply wf_board_spec in H2 as [Hl2 _].
    rewrite !lookup_ge_None_2; [done | lia | lia].
Qed.

(** Stores on two different squares commute. *)
Lemma wr_comm b r1 c1 v1 r2 c2 v2 ba bb ba' bb' :
  wf_board b = true -> inside r1 c1 -> inside r2 c2 ->
  is_cell v1 = true -> is_cell v2 = true -> (r1, c1) <> (r2, c2) ->
  wr b r1 c1 v1 = Ret ba -> wr ba r2 c2 v2 = Ret ba' ->
  wr b r2 c2 v2 = Ret bb -> wr bb r1 c1 v1 = Ret bb' ->
  ba' = bb'.
Proof.
  intros Hb H1 H2 Hv1 Hv2 Hne Ha Ha' Hb' Hb''.
  destruct (wr_inside b r1 c1 v1) as (x & Hx & Hwa); [done..|].
  destruct (wr_inside b r2 c2 v2) as (y & Hy & Hwb); [done..|].
  assert (x = ba) by congruence. assert (y = bb) by congruence. subst x y.
  destruct (wr_inside ba r2 c2 v2) as (x & Hx' & Hwa'); [done..|].
  destruct (wr_inside bb r1 c1 v1) as (y & Hy' & Hwb'); [done..|].
  assert (x = ba') by congruence. assert (y = bb') by congruence. subst x y.
  apply board_ext; [done..|]. intros r c Hi.
  rewrite (rd_wr ba r2 c2 v2 ba'), (rd_wr b r1 c1 v1 ba) by done.
  rewrite (rd_wr bb r1 c1 v1 bb'), (rd_wr b r2 c2 v2 bb) by done.
  repeat case_decide; try done. destruct_and!. congruence.
Qed.

(** ** Boolean tests on integers *)

Ltac bool_hyps :=
  repeat match goal with
  | H : (_ >? _) = true |- _ => apply Z.gtb_lt in H
  | H : (_ >? _) = false |- _ => rewrite Z.gtb_ltb in H; apply Z.ltb_ge in H
  | H : negb _ = true |- _ => apply negb_true_iff in H
  | H : negb _ = false |- _ => apply negb_false_iff in H
  | H : (_ && _) = true |- _ => apply andb_true_iff in H as [? ?]
  | H : (_ || _) = false |- _ => apply orb_false_iff in H as [? ?]
  | H : (_ && _) = false |- _ => apply andb_false_iff in H
  | H : (_ || _) = true |- _ => apply orb_true_iff in H
  | H : (_ =? _) = true |- _ => apply Z.eqb_eq in H
  | H : (_ =? _) = false |- _ => apply Z.eqb_neq in H
  | H : (_ <? _) = true |- _ => apply Z.ltb_lt in H
  | H : (_ <? _) = false |- _ => apply Z.ltb_ge in H
  | H : (_ <=? _) = true |- _ => apply Z.leb_le in H
  | H : (_ <=? _) = false |- _ => apply Z.leb_gt in H
  | H : ptype_eqb _ _ = true |- _ => apply bool_decide_eq_true in H
  | H : ptype_eqb _ _ = false |- _ => apply bool_decide_eq_false in H
  | H : color_eqb _ _ = true |- _ => apply bool_decide_eq_true in H
  | H : color_eqb _ _ = false |- _ => apply bool_decide_eq_false in H
  end.

(** Case analysis on the test of the first conditional of the goal. *)
Ltac if_case H :=
  match goal with
  | |- context [if ?c then _ else _] => destruct c eqn:H
  end.

(** ** The legality engine returns *)

Section Returns.
Variable b : BoardState.
Hypothesis Hwf : wf_board b = true.

Lemma pathLoop_returns (fuel n : nat) cr cc tr tc dr dc :
  (n < fuel)%nat -> tr = cr + Z.of_nat n * dr -> tc = cc + Z.of_nat n * dc ->
  0 <= cr < 8 -> 0 <= tr < 8 -> -1 <= dr <= 1 ->
  returns (pathLoop fuel b cr cc tr tc dr dc).
Proof.
  revert n cr cc. induction fuel as [|k IH]; intros n cr cc Hn Hr Hc Hcr Htr Hdr;
    [lia|]. simpl.
  destruct ((cr =? tr) && (cc =? tc)) eqn:Hat; [apply returns_Ret|].
  destruct (rd_returns b cr cc Hwf Hcr) as [v Hv]. rewrite Hv, bind_Ret.
  destruct (is_null v); [|apply returns_Ret].
  destruct n as [|m].
  - bool_hyps. lia.
  - apply (IH m); [lia | lia | lia | nia | done | done].
Qed.

Lemma isPathClear_returns fr fc tr tc :
  inside fr fc -> inside tr tc ->
  Z.abs (tr - fr) = 0 \/ Z.abs (tc - fc) = 0
    \/ Z.abs (tr - fr) = Z.abs (tc - fc) ->
  returns (isPathClear b fr fc tr tc).
Proof.
  intros [Hfr Hfc] [Htr Htc] Hal. unfold isPathClear.
  destruct (decide (fr = tr /\ fc = tc)) as [[-> ->]|Hne].
  - apply (pathLoop_returns 8 0); unfold stepToward;
      rewrite ?Z.gtb_ltb, ?Z.ltb_irrefl; lia.
  - apply (pathLoop_returns 8
             (Z.to_nat (Z.max (Z.abs (tr - fr)) (Z.abs (tc - fc)) - 1)));
      unfold stepToward; rewrite ?Z.gtb_ltb;
      repeat match goal with
             | |- context [?x <? ?y] => destruct (Z.ltb_spec x y)
             end; try lia.
Qed.

Lemma pawnMove_returns piece target fr fc tr tc :
  inside fr fc -> returns (pawnMove b piece target fr fc tr tc).
Proof.
  intros [Hfr Hfc]. unfold pawnMove.
  destruct ((fc =? tc) && negb (truthy target)); [|apply returns_Ret].
  destruct (tr =? fr + _); [apply returns_Ret|].
  destruct ((fr =? _) && _) eqn:Hs; [|apply returns_Ret].
  destruct (rd_returns b (fr + match color piece with white => -1 | black => 1 end) fc)
    as [v Hv]; [done | destruct (color piece); bool_hyps; lia|].
  rewrite Hv. simpl. destruct (is_null v); apply returns_Ret.
Qed.

Lemma isValidPieceMove_returns fr fc tr tc :
  0 <= fr < 8 -> returns (isValidPieceMove b fr fc tr tc).
Proof.
  intros Hfr. unfold isValidPieceMove.
  if_case Hb; [apply returns_Ret|].
  assert (inside tr tc) as Hto by (unfold inside; bool_hyps; lia).
  destruct (rd_returns b fr fc Hwf Hfr) as [[| |piece] Hv]; rewrite Hv, bind_Ret;
    try apply returns_Ret.
  assert (inside fr fc) as Hfrom by (eapply rd_piece_inside; eauto).
  if_case Hnull; [apply returns_Ret|].
  destruct (rd_inside b tr tc Hwf Hto) as (t & Ht & _). rewrite Ht, bind_Ret.
  if_case Hsame; [apply returns_Ret|].
  destruct (type piece); try apply returns_Ret;
    try (by apply pawnMove_returns);
    (if_case Hd; [|apply returns_Ret]);
    (apply isPathClear_returns; [done..|]); bool_hyps; lia.
Qed.

Lemma isSquareAttacked_returns r c byColor :
  returns (isSquareAttacked b r c byColor).
Proof.
  apply existsR_returns. intros s [Hs1 Hs2]%squares_inside.
  destruct (rd_returns b s.1 s.2 Hwf Hs1) as [v Hv]. rewrite Hv, bind_Ret.
  destruct (same_color v byColor); [|apply returns_Ret].
  by apply isValidPieceMove_returns.
Qed.

Lemma findKingPosition_returns c : returns (findKingPosition b c).
Proof.
  apply findR_returns. intros s [Hs1 Hs2]%squares_inside.
  destruct (rd_returns b s.1 s.2 Hwf Hs1) as [v Hv]. rewrite Hv, bind_Ret.
  apply returns_Ret.
Qed.

(** The position [findKingPosition] reports is a square that holds the
    king of the colour asked for. *)
Lemma findKingPosition_Some c r k :
  findKingPosition b c = Ret (Some (r, k)) ->
  inside r k /\ exists q, rd b r k = Ret (JPiece q) /\ type q = king /\ color q = c.
Proof.
  intros [Hin Hf]%findR_Some. split; [by apply elem_of_squares|].
  simpl in Hf. bind_inv Hf. injection Hf as Hf. destruct a; try discriminate.
  exists p. unfold is_king_of in Hf. bool_hyps. done.
Qed.

Lemma isKingInCheck_returns c : returns (isKingInCheck b c).
Proof.
  unfold isKingInCheck. destruct (findKingPosition_returns c) as [[[r k]|] Hv];
    rewrite Hv, bind_Ret; [apply isSquareAttacked_returns | apply returns_Ret].
Qed.
End Returns.

Section ReturnsMove.
Variable b : BoardState.
Hypothesis Hwf : wf_board b = true.

Lemma gapLoop_returns (fuel n : nat) r c rookCol step :
  (n < fuel)%nat -> rookCol = c + Z.of_nat n * step -> 0 <= r < 8 ->
  returns (gapLoop fuel b r c rookCol step).
Proof.
  revert n c. induction fuel as [|k IH]; intros n c Hn Hc Hr; [lia|]. simpl.
  if_case Hat; [apply returns_Ret|].
  destruct (rd_returns b r c Hwf Hr) as [v Hv]. rewrite Hv, bind_Ret.
  destruct (is_null v); [|apply returns_Ret].
  destruct n as [|m]; [bool_hyps; lia|]. apply (IH m); lia.
Qed.

Lemma transitLoop_returns (fuel n : nat) r c stop step opp :
  (n < fuel)%nat -> stop = c + Z.of_nat n * step ->
  returns (transitLoop fuel b r c stop step opp).
Proof.
  revert n c. induction fuel as [|k IH]; intros n c Hn Hc; [lia|]. simpl.
  if_case Hat; [apply returns_Ret|].
  destruct (isSquareAttacked_returns b Hwf r c opp) as [v Hv]. rewrite Hv, bind_Ret.
  destruct v; [apply returns_Ret|].
  destruct n as [|m]; [bool_hyps; lia|]. apply (IH m); lia.
Qed.

(** The simulated castle is again an 8 by 8 board. *)
Lemma castleBoard_wf piece rk fr fc tc rookCol rookDestCol :
  inside fr fc -> 0 <= tc < 8 -> 0 <= rookCol < 8 -> 0 <= rookDestCol < 8 ->
  exists nb, castleBoard b piece rk fr fc tc rookCol rookDestCol = Ret nb
             /\ wf_board nb = true.
Proof.
  intros [Hfr Hfc] Htc Hrc Hrd. unfold castleBoard. rewrite cloneBoard_wf by done.
  destruct (wr_inside b fr fc JNull) as (b1 & -> & H1); [done..|]. rewrite bind_Ret.
  destruct (wr_inside b1 fr rookCol JNull) as (b2 & -> & H2); [done..|].
  rewrite bind_Ret.
  destruct (wr_inside b2 fr tc (JPiece piece)) as (b3 & -> & H3); [done..|].
  rewrite bind_Ret. by apply wr_inside.
Qed.

Lemma castling_returns piece fr fc tc :
  inside fr fc -> 0 <= tc < 8 -> Z.abs (tc - fc) = 2 ->
  returns (castling b piece fr fc tc).
Proof.
  intros [Hfr Hfc] Htc Habs. unfold castling.
  destruct (rd_returns b fr (if tc >? fc then 7 else 0) Hwf Hfr) as [[| |rk] Hv];
    rewrite Hv, bind_Ret; try apply returns_Ret.
  if_case Hrook; [apply returns_Ret|].
  destruct (isKingInCheck_returns b Hwf (color piece)) as [chk Hchk].
  rewrite Hchk, bind_Ret. destruct chk; [apply returns_Ret|]. simpl.
  apply returns_bind.
  { rewrite Z.gtb_ltb. destruct (Z.ltb_spec fc tc).
    - apply (gapLoop_returns 8 (Z.to_nat (6 - fc))); lia.
    - apply (gapLoop_returns 8 (Z.to_nat (fc - 1))); lia. }
  intros gap _. destruct gap; [|apply returns_Ret]. simpl.
  apply returns_bind.
  { apply (transitLoop_returns 3 2); [lia|].
    rewrite Z.gtb_ltb. destruct (Z.ltb_spec fc tc); lia. }
  intros safe _. destruct safe; [|apply returns_Ret]. simpl.
  destruct (castleBoard_wf piece rk fr fc tc (if tc >? fc then 7 else 0)
              (if tc >? fc then tc - 1 else tc + 1)) as (nb & Hnb & Hw);
    [done | done | destruct (tc >? fc); lia
    | rewrite Z.gtb_ltb; destruct (Z.ltb_spec fc tc); lia|].
  rewrite Hnb, bind_Ret.
  destruct (isKingInCheck_returns nb Hw (color piece)) as [a Ha].
  rewrite Ha. apply returns_Ret.
Qed.

Lemma enPassant_returns piece fr fc tr tc ep :
  0 <= fr < 8 -> inside tr tc \/ target_inside ep ->
  returns (enPassant b piece fr fc tr tc ep).
Proof.
  intros Hfr Hto. unfold enPassant. destruct ep as [t|]; [|apply returns_Ret].
  if_case Hhit; [|apply returns_Ret].
  assert (inside tr tc) as [Htr Htc].
  { destruct Hto as [?|[? ?]]; [done|]. bool_hyps. unfold inside. lia. }
  destruct (rd_returns b tr tc Hwf Htr) as [d Hd]. rewrite Hd, bind_Ret.
  destruct (is_null d); [|apply returns_Ret].
  if_case Hadj; [|apply returns_Ret].
  destruct (rd_returns b (captureRowOf piece t) (col t)) as [v Hv];
    [done | bool_hyps; lia|].
  rewrite Hv, bind_Ret. destruct v; try apply returns_Ret.
  if_case Hpawn; apply returns_Ret.
Qed.

(** What the en passant branch has established when it sets
    [isEnPassant]. *)
Lemma enPassant_Capture piece fr fc tr tc ep :
  enPassant b piece fr fc tr tc ep = Ret Capture ->
  exists t q,
    ep = Some t /\ type piece = pawn /\ tr = row t /\ tc = col t
    /\ rd b tr tc = Ret JNull
    /\ fr = captureRowOf piece t /\ Z.abs (fc - col t) = 1
    /\ rd b (captureRowOf piece t) (col t) = Ret (JPiece q)
    /\ type q = pawn /\ color q <> color piece.
Proof.
  unfold enPassant. intros H. destruct ep as [t|]; [|discriminate].
  destruct (_ && _) eqn:Hhit in H; [|discriminate].
  bind_inv H. destruct (is_null a) eqn:Hn; [|discriminate].
  destruct (_ && _) eqn:Hadj in H; [|discriminate].
  bind_inv H. destruct a0 as [| |q]; try discriminate.
  destruct (_ && _) eqn:Hpawn in H; [|discriminate].
  destruct a; try discriminate. bool_hyps. exists t, q. repeat split; done.
Qed.

(** The simulated move is again an 8 by 8 board. *)
Lemma simulate_wf piece fr fc tr tc (isEP : bool) ep :
  inside fr fc -> inside tr tc ->
  (isEP = true -> forall t, ep = Some t -> inside (captureRowOf piece t) (col t)) ->
  exists nb, simulate b piece fr fc tr tc isEP ep = Ret nb /\ wf_board nb = true.
Proof.
  intros Hfrom Hto Hcap. unfold simulate. rewrite cloneBoard_wf by done.
  destruct (wr_inside b fr fc JNull) as (b1 & -> & H1); [done..|]. rewrite bind_Ret.
  assert (exists b2,
             match ep with
             | Some target =>
                 if isEP then wr b1 (captureRowOf piece target) (col target) JNull
                 else Ret b1
             | None => Ret b1
             end = Ret b2 /\ wf_board b2 = true) as (b2 & -> & H2).
  { destruct ep as [t|]; [|by exists b1]. destruct isEP; [|by exists b1].
    apply wr_inside; [done | by apply Hcap | done]. }
  rewrite bind_Ret. by apply wr_inside.
Qed.

(** On a square of the board [isValidMove] returns, whatever the origin
    column and the en passant target. *)
Lemma isValidMove_returns fr fc tr tc ep :
  0 <= fr < 8 -> inside tr tc -> returns (isValidMove b fr fc tr tc ep).
Proof.
  intros Hfr Hto. unfold isValidMove.
  destruct (rd_returns b fr fc Hwf Hfr) as [[| |piece] Hv]; rewrite Hv, bind_Ret;
    try apply returns_Ret.
  assert (inside fr fc) as Hfrom by (eapply rd_piece_inside; eauto).
  if_case Hcastle.
  { bool_hyps. apply castling_returns; [done | apply Hto | done]. }
  destruct (enPassant_returns piece fr fc tr tc ep Hfr (or_introl Hto)) as [e He].
  rewrite He, bind_Ret.
  assert (forall isEP : bool,
             (isEP = true -> e = Capture) ->
             returns (simulate b piece fr fc tr tc isEP ep ≫= fun newBoard =>
                      isKingInCheck newBoard (color piece) ≫= fun chk =>
                      Ret (negb chk))) as Hsim.
  { intros isEP HisEP.
    destruct (simulate_wf piece fr fc tr tc isEP ep) as (nb & Hnb & Hw);
      [done | done | |].
    - intros -> t ->. rewrite HisEP in He by done.
      apply enPassant_Capture in He as (t' & q & [= <-] & _ & -> & -> & _ & <- & _).
      split; [done | apply Hto].
    - rewrite Hnb, bind_Ret.
      destruct (isKingInCheck_returns nb Hw (color piece)) as [a Ha].
      rewrite Ha. apply returns_Ret. }
  destruct e; [| |apply returns_Ret].
  - destruct (isValidPieceMove_returns b Hwf fr fc tr tc Hfr) as [n Hn].
    rewrite Hn, bind_Ret. destruct n; [|apply returns_Ret]. simpl.
    apply Hsim. discriminate.
  - rewrite bind_Ret. simpl. by apply Hsim.
Qed.
End ReturnsMove.

Arguments pathLoop : simpl never.
Arguments gapLoop : simpl never.
Arguments transitLoop : simpl never.
Arguments isKingInCheck : simpl never.
Arguments isSquareAttacked : simpl never.
Arguments isValidPieceMove : simpl never.
Arguments castleBoard : simpl never.
Arguments simulate : simpl never.
Arguments enPassant : simpl never.
Arguments rd : simpl never.
Arguments wr : simpl never.
Arguments cloneBoard : simpl never.

(** ** A legal move leaves the mover's king safe *)

Section Safety.
Variable b : BoardState.
Hypothesis Hwf : wf_board b = true.

(** What an accepted castle has established. *)
Lemma castling_true piece fr fc tc :
  castling b piece fr fc tc = Ret true ->
  let rookCol := if tc >? fc then 7 else 0 in
  let step := if tc >? fc then 1 else -1 in
  let rookDestCol := if tc >? fc then tc - 1 else tc + 1 in
  exists rk nb,
    rd b fr rookCol = Ret (JPiece rk) /\ type rk = rook
    /\ color rk = color piece
    /\ isKingInCheck b (color piece) = Ret false
    /\ gapLoop 8 b fr (fc + step) rookCol step = Ret true
    /\ transitLoop 3 b fr (fc + step) (tc + step) step (opponent (color piece))
       = Ret true
    /\ castleBoard b piece rk fr fc tc rookCol rookDestCol = Ret nb
    /\ isKingInCheck nb (color piece) = Ret false.
Proof.
  unfold castling. intros H. bind_inv H. destruct a as [| |rk]; try discriminate.
  destruct (_ || _) eqn:Hrook in H; [discriminate|].
  bind_inv H. destruct a; [discriminate|]. simpl in H.
  bind_inv H. destruct a; [|discriminate]. simpl in H.
  bind_inv H. destruct a; [|discriminate]. simpl in H.
  bind_inv H. bind_inv H. injection H as H. destruct a0; [discriminate|].
  bool_hyps. exists rk, a. repeat split; done.
Qed.

Lemma playerMove_castle piece fr fc tc ep :
  inside fr fc -> 0 <= tc < 8 -> Z.abs (tc - fc) = 2 ->
  rd b fr fc = Ret (JPiece piece) -> type piece = king ->
  castling b piece fr fc tc = Ret true ->
  exists nb, playerMove b (color piece) fr fc fr tc ep = Ret (Some nb)
             /\ isKingInCheck nb (color piece) = Ret false.
Proof.
  intros [Hfr Hfc] Htc Habs Hp Hk H.
  apply castling_true in H
    as (rk & nb & Hrk & Hrook & Hcol & _ & _ & _ & Hnb & Hsafe).
  exists nb. split; [|done].
  set (rookCol := if tc >? fc then 7 else 0) in *.
  set (rookDest := if tc >? fc then tc - 1 else tc + 1) in *.
  assert (0 <= rookCol < 8) as HrC by (subst rookCol; destruct (tc >? fc); lia).
  assert (0 <= rookDest < 8 /\ rookDest <> tc) as [HrD Hne].
  { subst rookDest. rewrite Z.gtb_ltb. destruct (Z.ltb_spec fc tc); lia. }
  assert (rookCol <> fc) as Hne'.
  { intros Heq. rewrite Heq, Hp in Hrk. injection Hrk as ->. congruence. }
  unfold castleBoard in Hnb. rewrite cloneBoard_wf in Hnb by done.
  bind_inv Hnb. rename a into b1. bind_inv Hnb. rename a into b2.
  bind_inv Hnb. rename a into b3.
  destruct (wr_inside b fr fc JNull) as (? & ? & Hw1); [done..|].
  replace x with b1 in * by congruence.
  destruct (wr_inside b1 fr rookCol JNull) as (? & ? & Hw2); [done..|].
  replace x0 with b2 in * by congruence.
  unfold playerMove. rewrite cloneBoard_wf by done. rewrite Hp, bind_Ret.
  unfold color_eqb. rewrite bool_decide_eq_true_2 by done.
  assert (isEnPassantMove b piece fc fr tc ep = Ret false) as ->.
  { unfold isEnPassantMove. destruct ep; [|done]. by rewrite Hk. }
  rewrite bind_Ret, E, bind_Ret.
  assert (match ep with
          | Some target =>
              if false then wr b1 (captureRowOf piece target) (col target) JNull
              else Ret b1
          | None => Ret b1
          end = Ret b1) as -> by (by destruct ep).
  rewrite bind_Ret. unfold moveRook. rewrite Hk. unfold ptype_eqb. simpl.
  rewrite Z.eqb_refl, Habs. simpl.
  fold rookCol. fold rookDest.
  rewrite (rd_wr_other b fr fc JNull b1) by (done || congruence).
  rewrite Hrk, bind_Ret, Hrook. simpl. rewrite E0, bind_Ret.
  destruct (wr_inside b2 fr rookDest (JPiece rk)) as (b3' & Hb3' & Hw3');
    [done..|].
  rewrite Hb3', bind_Ret.
  destruct (wr_inside b3' fr tc (JPiece piece)) as (b4' & Hb4' & Hw4'); [done..|].
  rewrite Hb4', bind_Ret. do 2 f_equal.
  eapply (wr_comm b2 fr rookDest (JPiece rk) fr tc (JPiece piece));
    try eassumption; try done. congruence.
Qed.

(** The component and the legality check agree on what an en passant
    capture is, for a move the check did not refuse. *)
Lemma isEnPassantMove_agrees piece fr fc tr tc ep e :
  enPassant b piece fr fc tr tc ep = Ret e -> e <> Refused ->
  isEnPassantMove b piece fc tr tc ep
  = Ret (match e with Capture => true | _ => false end).
Proof.
  intros He Hne.
  destruct (decide (e = Capture)) as [->|Hnc].
  - apply enPassant_Capture in He
      as (t & q & -> & Hpawn & -> & -> & Hd & _ & Habs & _).
    unfold isEnPassantMove. rewrite Hpawn, !Z.eqb_refl. simpl.
    rewrite Hd, bind_Ret. simpl. by rewrite Habs.
  - unfold enPassant in He. unfold isEnPassantMove.
    destruct ep as [t|]; [|by injection He as <-].
    if_case Hhit; [|by injection He as <-].
    try rewrite Hhit in He. bind_inv He. rewrite E, bind_Ret.
    destruct (is_null a); [|by injection He as <-]. exfalso.
    destruct (_ && _) in He; [|by injection He as <-].
    bind_inv He. destruct a0; try (by injection He as <-).
    destruct (_ && _) in He; by injection He as <-.
Qed.

Lemma playerMove_simulate piece fr fc tr tc ep e nb :
  inside fr fc -> inside tr tc -> rd b fr fc = Ret (JPiece piece) ->
  ptype_eqb (type piece) king && (fr =? tr) && (Z.abs (tc - fc) =? 2) = false ->
  enPassant b piece fr fc tr tc ep = Ret e -> e <> Refused ->
  simulate b piece fr fc tr tc (match e with Capture => true | _ => false end) ep
  = Ret nb ->
  playerMove b (color piece) fr fc tr tc ep = Ret (Some nb).
Proof.
  intros Hfrom Hto Hp Hcastle He Hne Hsim.
  unfold playerMove. rewrite cloneBoard_wf by done. rewrite Hp, bind_Ret.
  unfold color_eqb. rewrite bool_decide_eq_true_2 by done.
  rewrite (isEnPassantMove_agrees piece fr fc tr tc ep e) by done.
  rewrite bind_Ret. unfold simulate in Hsim. rewrite cloneBoard_wf in Hsim by done.
  bind_inv Hsim. rewrite E, bind_Ret. bind_inv Hsim. rewrite E0, bind_Ret.
  unfold moveRook. rewrite Hcastle, bind_Ret, Hsim. done.
Qed.
End Safety.

(** C1. Whenever [isValidMove] accepts the move of the piece on a square of
    an 8 by 8 board to another square of it, under any en passant target, the
    board the game computes for that move (origin cleared, the pawn taken en
    passant removed, the rook of a castle moved, the piece placed on its
    destination) has the mover's king out of check. *)
Theorem legal_move_leaves_king_safe (b : BoardState) (fr fc tr tc : Z)
    (ep : option Position) (piece : ChessPiece) :
  wf_board b = true -> inside fr fc -> inside tr tc ->
  rd b fr fc = Ret (JPiece piece) ->
  isValidMove b fr fc tr tc ep = Ret true ->
  exists nb, playerMove b (color piece) fr fc tr tc ep = Ret (Some nb)
             /\ isKingInCheck nb (color piece) = Ret false.
Proof.
  intros Hwf Hfrom Hto Hp H. unfold isValidMove in H. rewrite Hp, bind_Ret in H.
  destruct (_ && _) eqn:Hcastle in H.
  - bool_hyps. subst tr. apply playerMove_castle; try done. apply Hto.
  - bind_inv H. rename a into e. destruct (decide (e = Refused)) as [->|Hne];
      [discriminate|].
    assert (exists nb,
               simulate b piece fr fc tr tc
                 (match e with Capture => true | _ => false end) ep = Ret nb
               /\ isKingInCheck nb (color piece) = Ret false) as (nb & Hnb & Hsafe).
    { destruct e; [| |done]; bind_inv H; (destruct a; [|discriminate]);
        simpl in H; bind_inv H; bind_inv H; injection H as H;
        (destruct a0; [discriminate|]); eauto. }
    exists nb. split; [|done]. by eapply playerMove_simulate.
Qed.

(** ** Checkmate and stalemate *)

Section Terminal.
Variable b : BoardState.
Hypothesis Hwf : wf_board b = true.
Variables (c : Color) (ep : option Position).

Lemma same_color_piece v k :
  same_color v k = true <-> exists p, v = JPiece p /\ color p = k.
Proof.
  destruct v as [| |p]; simpl; try (split; [discriminate | by intros (? & ? & ?)]).
  unfold color_eqb. rewrite bool_decide_eq_true. split; [eauto|].
  by intros (? & [= <-] & ?).
Qed.

Lemma hasAnyLegalMove_returns : returns (hasAnyLegalMove b c ep).
Proof.
  apply existsR_returns. intros from [Hf1 Hf2]%squares_inside.
  destruct (rd_returns b from.1 from.2 Hwf Hf1) as [v Hv]. rewrite Hv, bind_Ret.
  destruct (same_color v c); [|apply returns_Ret].
  apply existsR_returns. intros to Hto%squares_inside.
  by apply isValidMove_returns.
Qed.

Lemma hasAnyLegalMove_true :
  hasAnyLegalMove b c ep = Ret true <-> legalMoveExists b c ep.
Proof.
  split.
  - intros ([fr fc] & Hfrom & H)%existsR_true. simpl in H. bind_inv H.
    destruct (same_color a c) eqn:Hc; [|discriminate].
    apply same_color_piece in Hc as (p & -> & Hp).
    apply existsR_true in H as ([tr tc] & Hto & H). simpl in H.
    exists fr, fc, tr, tc, p. by rewrite <- !elem_of_squares.
  - intros (fr & fc & tr & tc & p & Hfrom & Hto & Hp & Hc & H).
    unfold hasAnyLegalMove.
    apply (existsR_intro _ _ (fr, fc)); [|by apply elem_of_squares|].
    + intros from [Hf1 Hf2]%squares_inside.
      destruct (rd_returns b from.1 from.2 Hwf Hf1) as [v Hv]. rewrite Hv, bind_Ret.
      destruct (same_color v c); [|apply returns_Ret].
      apply existsR_returns. intros to Hto'%squares_inside.
      by apply isValidMove_returns.
    + simpl. rewrite Hp, bind_Ret.
      rewrite (proj2 (same_color_piece (JPiece p) c)) by eauto.
      apply (existsR_intro _ _ (tr, tc)); [|by apply elem_of_squares|done].
      intros to Hto'%squares_inside. apply isValidMove_returns; [done| apply Hfrom |done].
Qed.

Lemma hasAnyLegalMove_false :
  hasAnyLegalMove b c ep = Ret false <-> ~ legalMoveExists b c ep.
Proof.
  rewrite <- hasAnyLegalMove_true.
  destruct hasAnyLegalMove_returns as [[] ->]; split; congruence.
Qed.
End Terminal.

(** C2. On an 8 by 8 board [isCheckmate] returns, and returns true exactly
    when the king of the colour is in check and that colour has no legal
    move; [isStalemate] returns, and returns true exactly when the king is
    not in check and the colour has no legal move. *)
Theorem checkmate_stalemate_spec (b : BoardState) (c : Color)
    (ep : option Position) :
  wf_board b = true ->
  (returns (isCheckmate b c ep) /\
   (isCheckmate b c ep = Ret true <->
    isKingInCheck b c = Ret true /\ ~ legalMoveExists b c ep)) /\
  (returns (isStalemate b c ep) /\
   (isStalemate b c ep = Ret true <->
    isKingInCheck b c = Ret false /\ ~ legalMoveExists b c ep)).
Proof.
  intros Hwf. unfold isCheckmate, isStalemate.
  rewrite <- (hasAnyLegalMove_false b Hwf c ep).
  destruct (isKingInCheck_returns b Hwf c) as [chk ->].
  destruct (hasAnyLegalMove_returns b Hwf c ep) as [any ->].
  rewrite !bind_Ret.
  destruct chk, any; simpl; (repeat split; try apply returns_Ret);
    intros; destruct_and?; congruence.
Qed.

Lemma checkmate_stalemate_spec_witness :
  (returns (isCheckmate createInitialBoard white None) /\
   (isCheckmate createInitialBoard white None = Ret true <->
    isKingInCheck createInitialBoard white = Ret true
    /\ ~ legalMoveExists createInitialBoard white None)) /\
  (returns (isStalemate createInitialBoard white None) /\
   (isStalemate createInitialBoard white None = Ret true <->
    isKingInCheck createInitialBoard white = Ret false
    /\ ~ legalMoveExists createInitialBoard white None)).
Proof. apply (checkmate_stalemate_spec createInitialBoard white None). reflexivity. Defined.

Lemma legal_move_leaves_king_safe_witness :
  exists nb,
    playerMove createInitialBoard white 6 4 4 4 None = Ret (Some nb)
    /\ isKingInCheck nb white = Ret false.
Proof.
  apply (legal_move_leaves_king_safe createInitialBoard 6 4 4 4 None
           (mkPiece pawn white)).
  - reflexivity.
  - unfold inside; lia.
  - unfold inside; lia.
  - reflexivity.
  - vm_compute; reflexivity.
Defined.

(** ** Castling *)

Section Castling.
Variable b : BoardState.

(** The first loop succeeds exactly when the squares it visits hold
    [null]. *)
Lemma gapLoop_true (fuel n : nat) r c rookCol step :
  (n < fuel)%nat -> rookCol = c + Z.of_nat n * step -> step <> 0 ->
  gapLoop fuel b r c rookCol step = Ret true <->
  forall k : nat, (k < n)%nat -> rd b r (c + Z.of_nat k * step) = Ret JNull.
Proof.
  revert n c. induction fuel as [|f IH]; intros n c Hn Hc Hs; [lia|].
  unfold gapLoop; fold gapLoop. destruct (Z.eqb_spec c rookCol) as [Heq|Hneq].
  - assert (n = 0%nat) as -> by nia. split; [intros _ k Hk; lia | done].
  - destruct n as [|m]; [lia|]. split.
    + intros H k Hk. bind_inv H. destruct (is_null a) eqn:Hnull; [|discriminate].
      destruct a; try discriminate.
      destruct k as [|k]; [by rewrite Z.mul_0_l, Z.add_0_r|].
      pose proof (proj1 (IH m (c + step) ltac:(lia) ltac:(lia) Hs) H) as H'.
      clear H. rename H' into H. specialize (H k ltac:(lia)). rewrite <- H. f_equal. lia.
    + intros H. pose proof (H 0%nat ltac:(lia)) as H0.
      rewrite Z.mul_0_l, Z.add_0_r in H0. rewrite H0, bind_Ret. simpl.
      apply (proj2 (IH m (c + step) ltac:(lia) ltac:(lia) Hs)).
      intros k Hk. rewrite <- (H (S k) ltac:(lia)). f_equal. lia.
Qed.

(** The second loop succeeds exactly when neither of the two squares the
    king crosses is attacked. *)
Lemma transitLoop_true r c step opp :
  step <> 0 ->
  transitLoop 3 b r c (c + 2 * step) step opp = Ret true <->
  isSquareAttacked b r c opp = Ret false
  /\ isSquareAttacked b r (c + step) opp = Ret false.
Proof.
  intros Hs. unfold transitLoop.
  destruct (Z.eqb_spec c (c + 2 * step)); [lia|].
  destruct (Z.eqb_spec (c + step) (c + 2 * step)); [lia|].
  destruct (Z.eqb_spec (c + step + step) (c + 2 * step)); [|lia].
  destruct (isSquareAttacked b r c opp) as [[]| |]; simpl;
    try (split; [discriminate | intros [? ?]; discriminate]).
  destruct (isSquareAttacked b r (c + step) opp) as [[]| |]; simpl;
    try (split; [discriminate | intros [? ?]; discriminate]).
  done.
Qed.
End Castling.

(** The simulated castle: the king stands on its destination, the rook on
    the square the king crossed, their origins are empty and every other
    square is as before. *)
Lemma castleBoard_squares b piece rk fr fc tc rookCol rookDestCol nb :
  wf_board b = true -> inside fr fc -> 0 <= tc < 8 -> 0 <= rookCol < 8 ->
  0 <= rookDestCol < 8 ->
  castleBoard b piece rk fr fc tc rookCol rookDestCol = Ret nb ->
  forall r c,
    rd nb r c =
    if decide (fr = r /\ rookDestCol = c) then Ret (JPiece rk)
    else if decide (fr = r /\ tc = c) then Ret (JPiece piece)
    else if decide (fr = r /\ rookCol = c) then Ret JNull
    else if decide (fr = r /\ fc = c) then Ret JNull
    else rd b r c.
Proof.
  intros Hwf [Hfr Hfc] Htc Hrc Hrd H r c. unfold castleBoard in H.
  rewrite cloneBoard_wf in H by done.
  destruct (wr_inside b fr fc JNull) as (b1 & Hb1 & Hw1); [done..|].
  destruct (wr_inside b1 fr rookCol JNull) as (b2 & Hb2 & Hw2); [done..|].
  destruct (wr_inside b2 fr tc (JPiece piece)) as (b3 & Hb3 & Hw3); [done..|].
  rewrite Hb1, bind_Ret, Hb2, bind_Ret, Hb3, bind_Ret in H.
  rewrite (rd_wr b3 fr rookDestCol (JPiece rk) nb) by done.
  rewrite (rd_wr b2 fr tc (JPiece piece) b3) by done.
  rewrite (rd_wr b1 fr rookCol JNull b2) by done.
  by rewrite (rd_wr b fr fc JNull b1).
Qed.

(** The board the castling branch simulates is the board with king and
    rook relocated, and no other. *)
Lemma castleBoard_castled b piece rk fr fc tc rookCol rookDestCol nb :
  wf_board b = true -> inside fr fc -> 0 <= tc < 8 -> 0 <= rookCol < 8 ->
  0 <= rookDestCol < 8 ->
  castleBoard b piece rk fr fc tc rookCol rookDestCol = Ret nb
  <-> castled b nb piece rk fr fc tc rookCol rookDestCol.
Proof.
  intros Hwf Hfrom Htc Hrc Hrd.
  destruct (castleBoard_wf b Hwf piece rk fr fc tc rookCol rookDestCol)
    as (nb0 & Hnb0 & Hwf0); try done.
  pose proof (castleBoard_squares b piece rk fr fc tc rookCol rookDestCol nb0
                Hwf Hfrom Htc Hrc Hrd Hnb0) as Hsq.
  assert (castled b nb0 piece rk fr fc tc rookCol rookDestCol) as Hc0.
  { split; [done|]. intros r c. rewrite Hsq.
    repeat case_decide; destruct_and?; try done; try tauto.
    all: destruct_or?; destruct_and?; tauto. }
  split.
  - intros H. by assert (nb = nb0) as -> by congruence.
  - intros [Hwfn Hrdn]. rewrite Hnb0. f_equal.
    apply board_ext; [done..|]. intros r c _.
    destruct Hc0 as [_ Hrd0]. by rewrite Hrd0, Hrdn.
Qed.

(** C3. For a king that moves two files along its row on an 8 by 8 board,
    [isValidMove] returns true exactly when a rook of the king's colour
    stands on the corner file of that side, the king is not in check, the
    squares strictly between king and rook are empty, neither the square
    the king crosses nor its destination is attacked by the opponent, and
    the king is not in check on the board with king and rook relocated: the
    rook on the square the king crossed, the king on its destination, their
    origins empty and every other square unchanged. *)
Theorem castling_spec (b : BoardState) (fr fc tc : Z) (ep : option Position)
    (piece : ChessPiece) :
  wf_board b = true -> inside fr fc -> 0 <= tc < 8 ->
  rd b fr fc = Ret (JPiece piece) -> type piece = king ->
  Z.abs (tc - fc) = 2 ->
  let rookCol := if tc >? fc then 7 else 0 in
  let step := if tc >? fc then 1 else -1 in
  let rookDestCol := if tc >? fc then tc - 1 else tc + 1 in
  returns (isValidMove b fr fc fr tc ep) /\
  (isValidMove b fr fc fr tc ep = Ret true <->
   exists rk,
     rd b fr rookCol = Ret (JPiece rk) /\ type rk = rook
     /\ color rk = color piece
     /\ isKingInCheck b (color piece) = Ret false
     /\ (forall c, Z.min fc rookCol < c < Z.max fc rookCol ->
                   rd b fr c = Ret JNull)
     /\ isSquareAttacked b fr (fc + step) (opponent (color piece)) = Ret false
     /\ isSquareAttacked b fr tc (opponent (color piece)) = Ret false
     /\ exists nb,
          castled b nb piece rk fr fc tc rookCol rookDestCol
          /\ isKingInCheck nb (color piece) = Ret false).
Proof.
  intros Hwf Hfrom Htc Hp Hk Habs rookCol step rookDestCol.
  assert (forall rk nb,
            castleBoard b piece rk fr fc tc rookCol rookDestCol = Ret nb
            <-> castled b nb piece rk fr fc tc rookCol rookDestCol) as Hsim.
  { intros rk nb. apply castleBoard_castled; try done.
    - subst rookCol. destruct (tc >? fc); lia.
    - subst rookDestCol. destruct Hfrom as [_ ?].
      destruct (Z.gtb_spec tc fc); lia. }
  split; [apply isValidMove_returns; [done | apply Hfrom | by split; [apply Hfrom|]]|].
  assert (isValidMove b fr fc fr tc ep = castling b piece fr fc tc) as ->.
  { unfold isValidMove. rewrite Hp, bind_Ret, Hk, Z.eqb_refl, Habs. done. }
  destruct Hfrom as [Hfr Hfc].
  assert (step <> 0) as Hstep by (subst step; destruct (tc >? fc); lia).
  assert (tc = fc + 2 * step /\
          exists n : nat, (n < 8)%nat /\ rookCol = fc + step + Z.of_nat n * step)
    as [Htc2 (n & Hn & HrookCol)].
  { subst step rookCol. rewrite Z.gtb_ltb. destruct (Z.ltb_spec fc tc).
    - split; [lia|]. exists (Z.to_nat (6 - fc)). lia.
    - split; [lia|]. exists (Z.to_nat (fc - 1)). lia. }
  assert ((forall c, Z.min fc rookCol < c < Z.max fc rookCol -> rd b fr c = Ret JNull)
          <-> gapLoop 8 b fr (fc + step) rookCol step = Ret true) as Hgap.
  { rewrite (gapLoop_true b 8 n) by done. split.
    - intros H k Hlt. apply H. subst step. destruct (tc >? fc); lia.
    - intros H c Hc.
      assert (exists k : nat, (k < n)%nat /\ c = fc + step + Z.of_nat k * step)
        as (k & Hlt & ->).
      { subst step. destruct (tc >? fc).
        - exists (Z.to_nat (c - fc - 1)). lia.
        - exists (Z.to_nat (fc - 1 - c)). lia. }
      by apply H. }
  assert (transitLoop 3 b fr (fc + step) (tc + step) step (opponent (color piece))
          = Ret true <->
          isSquareAttacked b fr (fc + step) (opponent (color piece)) = Ret false
          /\ isSquareAttacked b fr tc (opponent (color piece)) = Ret false)
    as Htransit.
  { replace (tc + step) with (fc + step + 2 * step) by lia.
    rewrite transitLoop_true by done.
    by replace (fc + step + step) with tc by lia. }
  split.
  - intros H. apply castling_true in H
      as (rk & nb & Hrk & Hrook & Hcol & Hchk & Hg & Ht & Hnb & Hsafe).
    exists rk. rewrite Hgap. apply Htransit in Ht as [? ?].
    repeat split; try done. exists nb. split; [by apply Hsim | done].
  - intros (rk & Hrk & Hrook & Hcol & Hchk & Hg & Ht1 & Ht2 & nb & Hnb & Hsafe).
    apply Hsim in Hnb.
    unfold castling. fold rookCol step rookDestCol.
    rewrite Hrk, bind_Ret, Hrook, Hcol. unfold ptype_eqb, color_eqb.
    rewrite !bool_decide_eq_true_2 by done. simpl.
    rewrite Hchk, bind_Ret. apply Hgap in Hg. rewrite Hg, bind_Ret. simpl.
    rewrite (proj2 Htransit) by done. rewrite bind_Ret. simpl.
    rewrite Hnb, bind_Ret, Hsafe. done.
Qed.

(** ** En passant *)

Lemma rd_null_inside b r c :
  wf_board b = true -> rd b r c = Ret JNull -> inside r c.
Proof.
  intros Hb H.
  destruct (decide (0 <= r < 8)) as [Hr|Hr];
    [|rewrite rd_outside_row in H by done; discriminate].
  destruct (decide (0 <= c < 8)) as [Hc|Hc]; [done|].
  rewrite rd_outside_col in H by done. discriminate.
Qed.

(** C4. When [isValidMove] takes the move of a pawn for an en passant capture
    ([isEnPassant] set), the destination is the en passant target, that
    square is empty, the pawn stands one file away on the row behind the
    target (towards the mover's side), and the square behind the target in
    the target's file holds an enemy pawn. The board on which the move is
    then tested for check has that square cleared, the pawn on the target
    and its origin cleared, every other square being as before. *)
Theorem en_passant_spec (b : BoardState) (fr fc tr tc : Z)
    (ep : option Position) (piece : ChessPiece) :
  wf_board b = true -> rd b fr fc = Ret (JPiece piece) ->
  enPassant b piece fr fc tr tc ep = Ret Capture ->
  exists t,
    ep = Some t /\ type piece = pawn /\ tr = row t /\ tc = col t /\
    let captureRow :=
      row t + match color piece with white => 1 | black => -1 end in
    (rd b (row t) (col t) = Ret JNull
     /\ fr = captureRow /\ Z.abs (fc - col t) = 1
     /\ exists q, rd b captureRow (col t) = Ret (JPiece q) /\ type q = pawn
                  /\ color q = opponent (color piece))
    /\ exists nb,
         simulate b piece fr fc tr tc true ep = Ret nb
         /\ isValidMove b fr fc tr tc ep
            = (isKingInCheck nb (color piece) ≫= fun chk => Ret (negb chk))
         /\ rd nb captureRow (col t) = Ret JNull
         /\ rd nb (row t) (col t) = Ret (JPiece piece)
         /\ rd nb fr fc = Ret JNull
         /\ forall r c, (r, c) <> (fr, fc) -> (r, c) <> (captureRow, col t) ->
                        (r, c) <> (row t, col t) -> rd nb r c = rd b r c.
Proof.
  intros Hwf Hp He. pose proof He as He'.
  apply enPassant_Capture in He
    as (t & q & -> & Hpawn & -> & -> & Hd & Hfr & Habs & Hq & Hqp & Hqc).
  exists t. repeat split; try done.
  { exists q. repeat split; try done. destruct (color q), (color piece); done. }
  unfold captureRowOf in *.
  set (captureRow := row t + match color piece with white => 1 | black => -1 end) in *.
  assert (inside fr fc) as Hfrom by (by eapply rd_piece_inside).
  assert (inside (row t) (col t)) as Hto by (by eapply rd_null_inside).
  assert (inside captureRow (col t)) as Hcap by (by eapply rd_piece_inside).
  assert (captureRow <> row t) as Hrow by (subst captureRow; destruct (color piece); lia).
  assert (fc <> col t) as Hcol by lia.
  unfold simulate, captureRowOf. fold captureRow. rewrite cloneBoard_wf by done.
  destruct (wr_inside b fr fc JNull) as (b1 & Hb1 & Hw1); [done..|].
  destruct (wr_inside b1 captureRow (col t) JNull) as (b2 & Hb2 & Hw2); [done..|].
  destruct (wr_inside b2 (row t) (col t) (JPiece piece)) as (nb & Hnb & Hw3); [done..|].
  rewrite Hb1, bind_Ret, Hb2, bind_Ret, Hnb. exists nb. split; [done|].
  split.
  { unfold isValidMove. rewrite Hp, bind_Ret, Hpawn. simpl. rewrite He', bind_Ret.
    simpl. unfold simulate, captureRowOf. fold captureRow.
    rewrite cloneBoard_wf by done. by rewrite Hb1, bind_Ret, Hb2, bind_Ret, Hnb. }
  pose proof (fun r c => rd_wr b fr fc JNull b1 r c Hwf Hfrom Hb1) as R1.
  pose proof (fun r c => rd_wr b1 captureRow (col t) JNull b2 r c Hw1 Hcap Hb2) as R2.
  pose proof (fun r c => rd_wr b2 (row t) (col t) (JPiece piece) nb r c Hw2 Hto Hnb)
    as R3.
  repeat split.
  - rewrite R3, R2. repeat case_decide; destruct_and?; done || tauto.
  - rewrite R3. repeat case_decide; destruct_and?; done || tauto.
  - rewrite R3, R2, R1. repeat case_decide; destruct_and?; done || tauto || lia.
  - intros r c H1 H2 H3. rewrite R3, R2, R1.
    repeat case_decide; destruct_and?; subst; done.
Qed.

(** ** Coordinates outside the board *)

(** With an origin row outside the board the first read throws. *)
Lemma isValidMove_origin_row_outside b fr fc tr tc ep :
  wf_board b = true -> ~ 0 <= fr < 8 -> isValidMove b fr fc tr tc ep = Throw.
Proof. intros Hwf Hfr. unfold isValidMove. by rewrite rd_outside_row. Qed.

Lemma isValidMove_no_piece b fr fc tr tc ep v :
  rd b fr fc = Ret v -> truthy v = false -> isValidMove b fr fc tr tc ep = Ret false.
Proof. intros Hv Ht. unfold isValidMove. rewrite Hv, bind_Ret. by destruct v. Qed.

Lemma isValidPieceMove_outside b fr fc tr tc :
  ~ inside tr tc -> isValidPieceMove b fr fc tr tc = Ret false.
Proof.
  intros Hto. unfold isValidPieceMove. if_case Hb; [done|].
  exfalso. apply Hto. unfold inside. bool_hyps. lia.
Qed.

(** C5, as the code has it. On an 8 by 8 board, with the origin row on the
    board and an en passant target that is absent or a square of the board,
    [isValidMove] returns, for every integer origin column and destination,
    unless the move is that of a king moving two files along its row to a
    column outside the board; and it returns false whenever the origin column
    is outside the board, the origin square is empty, or the destination is
    outside the board and the move is not such a king move. *)
Theorem isValidMove_outside (b : BoardState) (fr fc tr tc : Z)
    (ep : option Position) :
  wf_board b = true -> 0 <= fr < 8 -> target_inside ep ->
  (inside tr tc \/ ~ castleShaped b fr fc tr tc) ->
  returns (isValidMove b fr fc tr tc ep) /\
  (~ 0 <= fc < 8 \/ rd b fr fc = Ret JNull \/ ~ inside tr tc ->
   isValidMove b fr fc tr tc ep = Ret false).
Proof.
  intros Hwf Hfr Hep Hshape.
  assert (~ inside tr tc -> ~ castleShaped b fr fc tr tc ->
          forall piece, rd b fr fc = Ret (JPiece piece) ->
          isValidMove b fr fc tr tc ep = Ret false) as Hout.
  { intros Hto Hns piece Hp. unfold isValidMove. rewrite Hp, bind_Ret.
    if_case Hcastle.
    { exfalso. apply Hns. exists piece. bool_hyps. done. }
    assert (enPassant b piece fr fc tr tc ep = Ret NotEnPassant) as ->.
    { unfold enPassant. destruct ep as [t|]; [|done].
      if_case Hhit; [|done]. exfalso. apply Hto. bool_hyps. subst. apply Hep. }
    rewrite bind_Ret. simpl. by rewrite isValidPieceMove_outside. }
  split.
  - destruct (decide (inside tr tc)) as [Hto|Hto];
      [by apply isValidMove_returns|].
    destruct Hshape as [?|Hns]; [done|].
    destruct (rd_returns b fr fc Hwf Hfr) as [v Hv].
    destruct (truthy v) eqn:Ht.
    + destruct v; try discriminate. erewrite Hout by done. apply returns_Ret.
    + erewrite isValidMove_no_piece by done. apply returns_Ret.
  - intros [Hfc|[Hnull|Hto]].
    + eapply isValidMove_no_piece; [by apply rd_outside_col | done].
    + by eapply isValidMove_no_piece.
    + destruct Hshape as [?|Hns]; [done|].
      destruct (rd_returns b fr fc Hwf Hfr) as [v Hv].
      destruct (truthy v) eqn:Ht.
      * destruct v; try discriminate. by eapply Hout.
      * by eapply isValidMove_no_piece.
Qed.

(** C5, as stated, fails: an origin row outside the board makes
    [isValidMove] throw; so does a pawn aimed at an en passant target outside
    the board; and the king of [cornerBoard] is allowed to castle to column
    8. *)
Lemma isValidMove_outside_counterexample :
  wf_board createInitialBoard = true /\ wf_board cornerBoard = true
  /\ isValidMove createInitialBoard 8 0 0 0 None = Throw
  /\ isValidMove createInitialBoard 1 0 (-1) 0 (Some (mkPos (-1) 0)) = Throw
  /\ isValidMove cornerBoard 7 6 7 8 None = Ret true.
Proof. vm_compute. repeat split. Qed.

(** ** The board update of the search *)

Lemma decodeIndex_inside i :
  0 <= i < 64 -> inside (decodeIndex i).1 (decodeIndex i).2.
Proof.
  intros Hi. unfold decodeIndex, inside. simpl.
  rewrite Z.rem_mod_nonneg by lia.
  pose proof (Z.mod_pos_bound i 8 ltac:(lia)).
  pose proof (Z.div_pos i 8 ltac:(lia) ltac:(lia)).
  pose proof (Z.div_lt_upper_bound i 8 8 ltac:(lia) ltac:(lia)). lia.
Qed.

Lemma decodeIndex_encode r c :
  inside r c -> decodeIndex (r * 8 + c) = (r, c).
Proof.
  intros [Hr Hc]. unfold decodeIndex. rewrite Z.rem_mod_nonneg by lia.
  f_equal.
  - rewrite Z.div_add_l by lia. rewrite Z.div_small by lia. lia.
  - rewrite Z.add_comm, Z.mod_add by lia. apply Z.mod_small. lia.
Qed.

Lemma encode_inside r c : inside r c -> 0 <= r * 8 + c < 64.
Proof. unfold inside. lia. Qed.

(** [makeMove] on squares of the board, decoded. *)
Lemma makeMove_inside b from to fr fc tr tc :
  wf_board b = true ->
  decodeIndex (row from) = (fr, fc) -> decodeIndex (col to) = (tr, tc) ->
  inside fr fc -> inside tr tc ->
  exists nb,
    makeMove b from to = Ret nb /\ wf_board nb = true /\
    forall v, rd b fr fc = Ret v ->
      match v with
      | JPiece p =>
          forall r c,
            rd nb r c =
            if decide (tr = r /\ tc = c) then Ret (JPiece (finalPiece p tr))
            else if decide (fr = r /\ fc = c) then Ret JNull
            else rd b r c
      | _ => nb = b
      end.
Proof.
  intros Hwf Hdf Hdt Hfrom Hto. unfold makeMove. rewrite Hdf, Hdt.
  rewrite cloneBoard_wf by done.
  destruct (rd_inside b fr fc Hwf Hfrom) as (v & Hv & _). rewrite Hv, bind_Ret.
  destruct v as [| |p].
  - exists b. repeat split; try done. by intros ? [= <-].
  - exists b. repeat split; try done. by intros ? [= <-].
  - destruct (wr_inside b fr fc JNull) as (b1 & Hb1 & Hw1); [done..|].
    destruct (wr_inside b1 tr tc (JPiece (finalPiece p tr))) as (nb & Hnb & Hw2);
      [done..|].
    rewrite Hb1, bind_Ret. fold (finalPiece p tr). rewrite Hnb.
    exists nb. repeat split; try done. intros ? [= <-] r c.
    rewrite (rd_wr b1 tr tc _ nb) by done. rewrite (rd_wr b fr fc _ b1) by done.
    done.
Qed.

(** C10, as the code has it. For an 8 by 8 board and origin and destination
    indices in 0..63, [makeMove] returns an 8 by 8 board. If the origin square
    is empty it is the input board. Otherwise the destination square holds
    the moved piece (a queen of its colour for a pawn that lands on row 0 or
    7), the origin square is empty when it is not the destination, and every
    other square is unchanged: no rook is relocated, no bypassed pawn is
    removed. *)
Theorem makeMove_frame (b : BoardState) (from to : Position) :
  wf_board b = true -> 0 <= row from < 64 -> 0 <= col to < 64 ->
  let fr := (decodeIndex (row from)).1 in
  let fc := (decodeIndex (row from)).2 in
  let tr := (decodeIndex (col to)).1 in
  let tc := (decodeIndex (col to)).2 in
  exists nb,
    makeMove b from to = Ret nb /\ wf_board nb = true /\
    ((forall p, rd b fr fc <> Ret (JPiece p)) -> nb = b) /\
    (forall p, rd b fr fc = Ret (JPiece p) ->
       rd nb tr tc = Ret (JPiece (finalPiece p tr))
       /\ ((fr, fc) <> (tr, tc) -> rd nb fr fc = Ret JNull)
       /\ forall r c, (r, c) <> (fr, fc) -> (r, c) <> (tr, tc) ->
                      rd nb r c = rd b r c).
Proof.
  intros Hwf Hf Ht fr fc tr tc.
  pose proof (decodeIndex_inside _ Hf) as Hfrom.
  pose proof (decodeIndex_inside _ Ht) as Hto.
  destruct (makeMove_inside b from to fr fc tr tc) as (nb & Hnb & Hw & Hrd);
    [done | by destruct (decodeIndex (row from)) | by destruct (decodeIndex (col to))
    | done | done|].
  exists nb. repeat split; try done.
  - intros Hnp. destruct (rd_inside b fr fc Hwf Hfrom) as (v & Hv & _).
    specialize (Hrd v Hv). destruct v; try done. by destruct (Hnp p).
  - specialize (Hrd _ H). rewrite Hrd. case_decide; tauto.
  - intros Hne. specialize (Hrd _ H). rewrite Hrd.
    repeat case_decide; destruct_and?; try tauto. congruence.
  - intros r c H1 H2. specialize (Hrd _ H). rewrite Hrd.
    repeat case_decide; destruct_and?; subst; tauto.
Qed.

(** C10, as stated, fails when origin and destination are the same square:
    the rook on square 0 of the initial board is still there after
    [makeMove], the origin has not become empty. *)
Lemma makeMove_frame_counterexample :
  wf_board createInitialBoard = true /\
  rd createInitialBoard 0 0 = Ret (JPiece (mkPiece rook black)) /\
  exists nb, makeMove createInitialBoard (mkPos 0 0) (mkPos 0 0) = Ret nb
             /\ rd nb 0 0 = Ret (JPiece (mkPiece rook black))
             /\ rd nb 0 0 <> Ret JNull.
Proof.
  split; [reflexivity|]. split; [reflexivity|].
  eexists. split; [vm_compute; reflexivity|]. split; [reflexivity | discriminate].
Qed.

(** ** Move generation *)

Lemma legalMove_exists b c :
  (exists m, legalMove b c m) <-> legalMoveExists b c None.
Proof.
  split.
  - intros (m & fr & fc & tr & tc & p & _ & H). by exists fr, fc, tr, tc, p.
  - intros (fr & fc & tr & tc & p & H). exists (encode (fr, fc) (tr, tc)).
    by exists fr, fc, tr, tc, p.
Qed.

Section Collect.
Context {A B : Type} (g : A -> result (list B)).

(** What a loop that appends [g x] for each [x] has collected. *)
Lemma foldR_collect (l : list A) (acc out : list B) :
  foldR (fun moves x => g x ≫= fun ms => Ret (moves ++ ms)) acc l = Ret out ->
  forall m, m ∈ out <->
            m ∈ acc \/ exists x ms, x ∈ l /\ g x = Ret ms /\ m ∈ ms.
Proof.
  revert acc. induction l as [|x l IH]; intros acc H m.
  - injection H as <-. split; [by left|]. intros [?|(? & ? & Hx & _)]; [done|].
    by apply elem_of_nil in Hx.
  - unfold foldR in H; fold (@foldR A (list B)) in H. bind_inv H. bind_inv E.
    injection E as <-. rewrite (IH _ H m), elem_of_app. split.
    + intros [[?|?]|(y & ms & Hy & Hg & Hm)]; [by left | |].
      * right. exists x, a0. split; [left | done].
      * right. exists y, ms. split; [by right | done].
    + intros [?|(y & ms & Hy & Hg & Hm)]; [by left; left|].
      apply elem_of_cons in Hy as [->|Hy].
      * left; right. congruence.
      * right. by exists y, ms.
Qed.
End Collect.

Section Generation.
Variable b : BoardState.
Hypothesis Hwf : wf_board b = true.
Variable c : Color.

Lemma movesFrom_spec from :
  from ∈ squares ->
  exists ms, movesFrom b c from = Ret ms /\
    forall m, m ∈ ms <->
      exists to p, to ∈ squares /\ m = encode from to
                   /\ rd b from.1 from.2 = Ret (JPiece p) /\ color p = c
                   /\ isValidMove b from.1 from.2 to.1 to.2 None = Ret true.
Proof.
  intros Hfrom. pose proof (squares_inside _ Hfrom) as [Hf1 Hf2].
  unfold movesFrom. destruct (rd_returns b from.1 from.2 Hwf Hf1) as [v Hv].
  rewrite Hv, bind_Ret. destruct (same_color v c) eqn:Hc.
  - apply same_color_piece in Hc as (p & -> & Hp).
    destruct (filterR_returns
                (fun to => isValidMove b from.1 from.2 to.1 to.2 None) squares)
      as [tos Htos].
    { intros to Hto%squares_inside. by apply isValidMove_returns. }
    rewrite Htos, bind_Ret. eexists. split; [done|]. intros m.
    rewrite list_elem_of_fmap. split.
    + intros (to & -> & Hto). apply (filterR_elem _ _ _ _ Htos) in Hto as [? ?].
      by exists to, p.
    + intros (to & q & Hto & -> & _ & _ & Hv'). exists to. split; [done|].
      by apply (filterR_elem _ _ _ _ Htos).
  - exists []. split; [done|]. intros m. split; [intros H; by apply elem_of_nil in H|].
    intros (to & p & _ & _ & [= ->] & Hp & _).
    rewrite (proj2 (same_color_piece (JPiece p) c)) in Hc by eauto. discriminate.
Qed.

(** [getAllValidMoves] returns the list of the legal moves of a colour. *)
Lemma getAllValidMoves_spec :
  exists moves, getAllValidMoves b c = Ret moves /\
                forall m, m ∈ moves <-> legalMove b c m.
Proof.
  destruct (foldR_returns
              (fun moves from => movesFrom b c from ≫= fun ms => Ret (moves ++ ms))
              squares []) as [moves Hm].
  { intros acc from Hfrom. destruct (movesFrom_spec from Hfrom) as (ms & -> & _).
    apply returns_Ret. }
  exists moves. split; [done|]. intros m.
  rewrite (foldR_collect _ _ _ _ Hm m). split.
  - intros [H|([fr fc] & ms & Hfrom & Hms & Hin)]; [by apply elem_of_nil in H|].
    destruct (movesFrom_spec _ Hfrom) as (ms' & Hms' & Hspec).
    assert (ms' = ms) as -> by congruence.
    apply Hspec in Hin as ([tr tc] & p & Hto & -> & Hp & Hc & Hv).
    exists fr, fc, tr, tc, p. rewrite <- !elem_of_squares. done.
  - intros (fr & fc & tr & tc & p & -> & Hfrom & Hto & Hp & Hc & Hv). right.
    apply elem_of_squares in Hfrom, Hto.
    destruct (movesFrom_spec _ Hfrom) as (ms & Hms & Hspec).
    exists (fr, fc), ms. repeat split; [done..|]. apply Hspec.
    by exists (tr, tc), p.
Qed.
End Generation.

(** The squares of a legal move, read back from its encoding. *)
Lemma legalMove_decode b c m :
  legalMove b c m ->
  exists fr fc tr tc p,
    decodeIndex (row m) = (fr, fc) /\ decodeIndex (col m) = (tr, tc)
    /\ inside fr fc /\ inside tr tc
    /\ rd b fr fc = Ret (JPiece p) /\ color p = c
    /\ isValidMove b fr fc tr tc None = Ret true.
Proof.
  intros (fr & fc & tr & tc & p & -> & Hfrom & Hto & H).
  exists fr, fc, tr, tc, p. simpl. by rewrite !decodeIndex_encode.
Qed.

(** ** The search *)

Section FoldInvariant.
Context {A S : Type} (f : S -> A -> result S) (P : S -> Prop).

Lemma foldR_invariant (l : list A) (acc out : S) :
  P acc ->
  (forall s x s', x ∈ l -> P s -> f s x = Ret s' -> P s') ->
  foldR f acc l = Ret out -> P out.
Proof.
  revert acc. induction l as [|x l IH]; intros acc Hacc Hstep H.
  - by injection H as <-.
  - unfold foldR in H; fold (@foldR A S) in H. bind_inv H.
    apply (IH a); [|intros s y s' Hy; apply Hstep; by right|done].
    apply (Hstep acc x); [left | done | done].
Qed.
End FoldInvariant.

(** The order of the numbers of the search. *)
Ltac num_cases :=
  repeat match goal with
         | x : num |- _ => destruct x
         end;
  simpl in *; try discriminate; try done;
  repeat match goal with
         | H : (_ <? _) = true |- _ => apply Z.ltb_lt in H
         | H : (_ <? _) = false |- _ => apply Z.ltb_ge in H
         | |- (_ <? _) = true => apply Z.ltb_lt
         | |- (_ <? _) = false => apply Z.ltb_ge
         end; try lia.

Lemma num_gtb_irrefl x : num_gtb x x = false.
Proof. num_cases. Qed.

Lemma num_gtb_trans x y z :
  num_gtb x y = true -> num_gtb y z = true -> num_gtb x z = true.
Proof. intros. num_cases. Qed.

Lemma num_gtb_le_trans x y z :
  num_gtb x y = true -> num_gtb z y = false -> num_gtb x z = true.
Proof. intros. num_cases. Qed.

Lemma num_gtb_NegInf x : x <> NegInf -> num_gtb x NegInf = true.
Proof. intros. num_cases. Qed.

Lemma num_gtb_asym x y : num_gtb x y = true -> num_gtb y x = false.
Proof. intros. num_cases. Qed.

Section Search.
Variable b : BoardState.
Hypothesis Hwf : wf_board b = true.

Lemma evaluateBoard_returns : returns (evaluateBoard b).
Proof.
  apply foldR_returns. intros score s [Hs1 Hs2]%squares_inside.
  destruct (rd_returns b s.1 s.2 Hwf Hs1) as [v ->]. rewrite bind_Ret.
  destruct v; apply returns_Ret.
Qed.

(** Playing a legal move gives an 8 by 8 board. *)
Lemma play_wf c m :
  legalMove b c m -> exists nb, play b m = Ret nb /\ wf_board nb = true.
Proof.
  intros (fr & fc & tr & tc & p & Hdf & Hdt & Hfrom & Hto & _)%legalMove_decode.
  destruct (makeMove_inside b (mkPos (row m) 0) (mkPos 0 (col m)) fr fc tr tc)
    as (nb & Hnb & Hw & _); [done..|].
  by exists nb.
Qed.
End Search.

Lemma minimax_returns (d : nat) :
  forall b isMaximizing, wf_board b = true -> returns (minimax b d isMaximizing).
Proof.
  induction d as [|d IH]; intros b isMax Hwf; simpl.
  - destruct (evaluateBoard_returns b Hwf) as [s ->]. apply returns_Ret.
  - set (c := if isMax then black else white).
    destruct (getAllValidMoves_spec b Hwf c) as (moves & -> & Hspec).
    rewrite bind_Ret. destruct moves as [|m0 moves'] eqn:Hm.
    + destruct (isKingInCheck_returns b Hwf c) as [chk ->]. rewrite bind_Ret.
      destruct chk; apply returns_Ret.
    + rewrite <- Hm in *. clear Hm.
      assert (forall isMax' (op : num -> num -> num) acc,
                 returns (foldR (fun best move =>
                                   play b move ≫= fun newBoard =>
                                   minimax newBoard d isMax' ≫= fun evalScore =>
                                   Ret (op best evalScore)) acc moves)) as Hfold.
      { intros isMax' op acc. apply foldR_returns. intros s m Hm.
        destruct (play_wf b Hwf c m) as (nb & -> & Hw); [by apply Hspec|].
        rewrite bind_Ret. destruct (IH nb isMax' Hw) as [e ->]. apply returns_Ret. }
      destruct isMax; apply Hfold.
Qed.

Lemma moveValue_returns b c m :
  wf_board b = true -> legalMove b c m -> returns (moveValue b m).
Proof.
  intros Hwf Hm. unfold moveValue.
  destruct (play_wf b Hwf c m Hm) as (nb & -> & Hw). rewrite bind_Ret.
  by apply minimax_returns.
Qed.

(** With white to move, one ply deep, the search never answers
    [-Infinity]. *)
Lemma minimax_white_not_NegInf b v :
  wf_board b = true -> minimax b 1 false = Ret v -> v <> NegInf.
Proof.
  intros Hwf H. simpl in H.
  destruct (getAllValidMoves_spec b Hwf white) as (moves & Hmoves & Hspec).
  rewrite Hmoves, bind_Ret in H. destruct moves as [|m0 moves'] eqn:Hm.
  - bind_inv H. destruct a; injection H as <-; discriminate.
  - revert H. apply (foldR_invariant _ (fun s => s <> NegInf)); [discriminate|].
    intros s x s' _ Hs Hf. bind_inv Hf. bind_inv Hf. bind_inv E0.
    injection E0 as <-. injection Hf as <-. unfold num_min.
    destruct (num_gtb s (Fin a1)); [discriminate | done].
Qed.

(** ** The two-ply value, in the words of the specification *)







(** ** The hard level *)

Lemma hardStep_unfold b bm bv m :
  hardStep b (bm, bv) m =
  moveValue b m ≫= fun v =>
    if num_gtb v bv then Ret (Some m, v) else Ret (bm, bv).
Proof. unfold hardStep, moveValue. by destruct (play b m). Qed.

Lemma hard_loop b (l : list Position) :
  (forall x, x ∈ l -> exists v, moveValue b x = Ret v /\ v <> NegInf) ->
  exists acc, foldR (hardStep b) (None, NegInf) l = Ret acc
              /\ firstBest (moveValue b) l acc.
Proof.
  induction l as [|x l IH] using rev_ind; intros Hval.
  - exists (None, NegInf). by split.
  - destruct IH as ([bm bv] & Hfold & Hinv).
    { intros y Hy. apply Hval, elem_of_app. by left. }
    destruct (Hval x) as (v & Hv & Hnn); [apply elem_of_app; right; left|].
    rewrite foldR_app, Hfold, bind_Ret.
    unfold foldR. rewrite hardStep_unfold, Hv, !bind_Ret.
    unfold firstBest in Hinv. simpl in Hinv.
    destruct (num_gtb v bv) eqn:Hgt; rewrite bind_Ret; eexists; (split; [done|]).
    + unfold firstBest; simpl. exists l, []. repeat split; [done| |].
      * intros y Hy. destruct bm as [m|].
        -- destruct Hinv as (l1 & l2 & -> & Hm & H1 & H2).
           apply elem_of_app in Hy as [Hy|Hy].
           ++ destruct (H1 y Hy) as (vy & ? & ?). exists vy. split; [done|].
              by eapply num_gtb_trans.
           ++ apply elem_of_cons in Hy as [->|Hy]; [by exists bv|].
              destruct (H2 y Hy) as (vy & ? & ?). exists vy. split; [done|].
              by eapply num_gtb_le_trans.
        -- destruct Hinv as [-> _]. by apply elem_of_nil in Hy.
      * intros y Hy. by apply elem_of_nil in Hy.
    + destruct bm as [m|].
      * destruct Hinv as (l1 & l2 & -> & Hm & H1 & H2).
        unfold firstBest; simpl. exists l1, (l2 ++ [x]).
        repeat split; [by rewrite <- app_assoc | done | done|].
        intros y [Hy|Hy]%elem_of_app; [by apply H2|].
        apply list_elem_of_singleton in Hy as ->. by exists v.
      * destruct Hinv as [_ ->]. by rewrite num_gtb_NegInf in Hgt.
Qed.


(** ** The random draw *)

(** Rounding moves a value by at most a [2 ^ 53]-th of it. *)
Lemma round53_error x :
  0 <= x ->
  exists h, 0 <= h /\ h * 2 ^ 53 <= x /\ x - h <= round53 x <= x + h.
Proof.
  intros Hx. unfold round53. destruct (Z.ltb_spec x (2 ^ 53)) as [Hlt|Hge].
  - exists 0. lia.
  - set (s := Z.log2 x - 52).
    assert (53 <= Z.log2 x) as Hlog by (apply Z.log2_le_pow2; lia).
    assert (1 <= s) as Hs by (subst s; lia).
    set (half := 2 ^ (s - 1)).
    assert (0 < half) as Hhalf by (subst half; apply Z.pow_pos_nonneg; lia).
    assert (2 ^ s = 2 * half) as HP.
    { subst half. rewrite <- (Z.pow_succ_r 2 (s - 1)) by lia. f_equal. lia. }
    assert (half * 2 ^ 53 <= x) as Hbig.
    { subst half. rewrite <- Z.pow_add_r by lia.
      replace (s - 1 + 53) with (Z.log2 x) by (subst s; lia).
      apply Z.log2_spec. lia. }
    pose proof (Z.div_mod x (2 ^ s) ltac:(lia)) as Hdm.
    pose proof (Z.mod_pos_bound x (2 ^ s) ltac:(lia)) as Hr.
    rewrite HP in *. set (q := x / (2 * half)) in *.
    set (r := x mod (2 * half)) in *.
    exists half. split; [lia|]. split; [done|].
    destruct (Z.ltb_spec r half); [nia|].
    destruct (Z.ltb_spec half r); [nia|].
    destruct (Z.odd q); nia.
Qed.

Lemma round53_nonneg x : 0 <= x -> 0 <= round53 x.
Proof.
  intros Hx. destruct (round53_error x Hx) as (h & Hh & Hb & Hlo & _).
  assert (h <= x); [|lia].
  assert (h * 1 <= h * 2 ^ 53) by (apply Z.mul_le_mono_nonneg_l; lia). lia.
Qed.

Lemma isDraw_spec u :
  isDraw u = true <->
  0 <= significand u < 2 ^ 53 /\ 0 <= scale u <= 1074
  /\ significand u < 2 ^ scale u.
Proof.
  unfold isDraw. rewrite !andb_true_iff, !Z.leb_le, !Z.ltb_lt. tauto.
Qed.

(** The index drawn for an array of length [n] is an index of the array:
    the binary64 product of a value below 1 and [n] is below [n]. *)
Lemma randomIndex_range (u : Draw) (n : nat) :
  isDraw u = true -> (0 < n)%nat -> 0 <= randomIndex u n < Z.of_nat n.
Proof.
  intros (Hm & He & Hlt)%isDraw_spec Hn. unfold randomIndex.
  set (m := significand u) in *. set (N := Z.of_nat n).
  assert (0 < N) as HN by lia.
  assert (0 < 2 ^ scale u) as HE by (apply Z.pow_pos_nonneg; lia).
  assert (0 <= m * N) as HM by nia.
  destruct (round53_error (m * N) HM) as (h & Hh & Hb & Hlo & Hhi).
  split.
  - apply Z.div_pos; [|done]. by apply round53_nonneg.
  - apply Z.div_lt_upper_bound; [done|].
    assert (h < N) by nia. nia.
Qed.

(** The draws that select index [k] of [n] are, up to the rounding of the
    product, those from [k / n] up to [(k + 1) / n]: the draws within that
    interval less one part in [2 ^ 53] all select [k], and only draws within
    it plus one part in [2 ^ 53] do. *)
Lemma randomIndex_interval (u : Draw) (n : nat) (k : Z) :
  isDraw u = true ->
  (drawnWithin u n k (-1) -> randomIndex u n = k)
  /\ (randomIndex u n = k -> drawnWithin u n k 1).
Proof.
  intros (Hm & He & Hlt)%isDraw_spec. unfold drawnWithin.
  set (x := significand u * Z.of_nat n). set (unit := 2 ^ scale u * 2 ^ 53).
  unfold randomIndex. fold x.
  assert (0 < 2 ^ scale u) as HE by (apply Z.pow_pos_nonneg; lia).
  assert (0 <= x) as Hx by (subst x; nia).
  destruct (round53_error x Hx) as (h & Hh & Hb & Hlo & Hhi).
  set (E := 2 ^ scale u) in *. set (R := round53 x) in *.
  change (2 ^ 53) with 9007199254740992 in *. subst unit. split.
  - intros [H1 H2]. symmetry. apply Z.div_unique with (r := R - k * E).
    + left. nia.
    + lia.
  - intros <-. pose proof (Z.mul_div_le R E HE).
    pose proof (Z.mul_succ_div_gt R E HE). nia.
Qed.

(** Every index of an array of at most [2 ^ 50] entries is drawn by some
    value of [Math.random()]. *)
Lemma randomIndex_reach (n : nat) (k : Z) :
  Z.of_nat n <= 2 ^ 50 -> 0 <= k < Z.of_nat n ->
  exists u, isDraw u = true /\ randomIndex u n = k.
Proof.
  intros Hn Hk. set (N := Z.of_nat n) in *.
  set (m := (2 * k + 1) * 2 ^ 52 / N).
  change (2 ^ 50) with 1125899906842624 in *.
  change (2 ^ 52) with 4503599627370496 in *.
  pose proof (Z.mul_div_le ((2 * k + 1) * 4503599627370496) N ltac:(lia)) as Hlo.
  pose proof (Z.mul_succ_div_gt ((2 * k + 1) * 4503599627370496) N ltac:(lia))
    as Hhi.
  fold m in Hlo, Hhi.
  assert (0 <= m) as Hm0 by (apply Z.div_pos; lia).
  assert (m < 2 ^ 53) as Hm53.
  { change (2 ^ 53) with 9007199254740992.
    apply Z.div_lt_upper_bound; lia. }
  exists (mkDraw m 53).
  assert (isDraw (mkDraw m 53) = true) as Hd.
  { apply isDraw_spec. simpl. lia. }
  split; [done|].
  apply (randomIndex_interval (mkDraw m 53) n k Hd). unfold drawnWithin.
  simpl. fold N. change (2 ^ 53) with 9007199254740992 in *. nia.
Qed.

Lemma pickAt_elem {A} (l : list A) i x : pickAt l i = Some x -> x ∈ l.
Proof.
  unfold pickAt. destruct (i <? 0); [discriminate|]. apply list_elem_of_lookup_2.
Qed.

Lemma pickAt_range {A} (l : list A) i :
  0 <= i < Z.of_nat (length l) -> exists x, pickAt l i = Some x.
Proof.
  intros Hi. unfold pickAt. destruct (Z.ltb_spec i 0); [lia|].
  apply lookup_lt_is_Some_2. lia.
Qed.

(** ** The medium level *)

Lemma pieceValues_pos t : 0 < pieceValues t.
Proof. destruct t; simpl; lia. Qed.

Lemma captureScore_legal b c m :
  wf_board b = true -> legalMove b c m ->
  captureScore b m = Ret (scoreOf b m) /\ 0 <= scoreOf b m.
Proof.
  intros Hwf (fr & fc & tr & tc & p & Hdf & Hdt & Hfrom & Hto & _)%legalMove_decode.
  unfold scoreOf, captureScore. rewrite Hdt. simpl.
  destruct (rd_inside b tr tc Hwf Hto) as (v & -> & _). rewrite bind_Ret.
  split; [done|]. destruct v as [| |q]; try lia.
  pose proof (pieceValues_pos (type q)). lia.
Qed.


(** [getAllValidMoves] lists at most 64 destinations for each of 64
    origins. *)
Lemma filterR_length {A} (f : A -> result bool) (l out : list A) :
  filterR f l = Ret out -> (length out <= length l)%nat.
Proof.
  revert out. induction l as [|x l IH]; intros out H.
  - by injection H as <-.
  - unfold filterR in H; fold (@filterR A) in H. bind_inv H. bind_inv H.
    injection H as <-. specialize (IH _ E0). destruct a; simpl; lia.
Qed.

Lemma movesFrom_length b c from ms :
  movesFrom b c from = Ret ms -> (length ms <= 64)%nat.
Proof.
  unfold movesFrom. intros H. bind_inv H.
  destruct (same_color a c); [|injection H as <-; simpl; lia].
  bind_inv H. injection H as <-. rewrite length_fmap.
  by apply filterR_length in E0.
Qed.

Lemma collect_length b c (l : list (Z * Z)) (acc out : list Position) :
  foldR (fun moves from => movesFrom b c from ≫= fun ms => Ret (moves ++ ms))
        acc l = Ret out ->
  (length out <= length acc + 64 * length l)%nat.
Proof.
  revert acc. induction l as [|x l IH]; intros acc H.
  - injection H as <-. lia.
  - unfold foldR in H; fold (@foldR (Z * Z) (list Position)) in H.
    bind_inv H. bind_inv E. injection E as <-.
    apply IH in H. apply movesFrom_length in E0.
    rewrite length_app in H. simpl. lia.
Qed.

Lemma getAllValidMoves_length b c moves :
  getAllValidMoves b c = Ret moves -> Z.of_nat (length moves) <= 2 ^ 50.
Proof.
  intros H. apply collect_length in H. simpl in H.
  change (2 ^ 50) with 1125899906842624. lia.
Qed.

Lemma filter_none {A} (P : A -> Prop) `{forall x, Decision (P x)} (l : list A) :
  (forall x, x ∈ l -> ~ P x) -> filter P l = [].
Proof.
  induction l as [|x l IH]; intros Hn; [done|].
  rewrite filter_cons_False by (apply Hn; left). apply IH.
  intros y Hy. apply Hn. by right.
Qed.

Lemma medium_loop b (l : list Position) :
  (forall x, x ∈ l -> captureScore b x = Ret (scoreOf b x)) ->
  exists acc, foldR (mediumStep b) ([], NegInf) l = Ret acc /\ bestCaptures b l acc.
Proof.
  induction l as [|x l IH] using rev_ind; intros Hval.
  - exists ([], NegInf). split; [done | by left].
  - destruct IH as ([best bs] & Hfold & Hinv).
    { intros y Hy. apply Hval, elem_of_app. by left. }
    rewrite foldR_app, Hfold, bind_Ret. unfold foldR, mediumStep.
    rewrite (Hval x) by (apply elem_of_app; right; left). rewrite !bind_Ret.
    set (sx := scoreOf b x).
    destruct Hinv as [[-> [= -> ->]]|(s & Hs & Hle & Hbest & Hne)]; simpl in *.
    + eexists. split; [done|]. right. exists sx. repeat split; simpl; try done.
      * intros y Hy. apply list_elem_of_singleton in Hy as ->. fold sx. lia.
      * by rewrite filter_cons_True.
    + subst bs. simpl. destruct (Z.ltb_spec s sx) as [Hlt|Hge].
      * rewrite bind_Ret. eexists. split; [done|]. right. exists sx.
        repeat split; simpl; try done.
        -- intros y [Hy|Hy]%elem_of_app; [specialize (Hle y Hy); lia|].
           apply list_elem_of_singleton in Hy as ->. fold sx. lia.
        -- rewrite filter_app, filter_cons_True by done.
           rewrite filter_none; [done|]. intros y Hy. specialize (Hle y Hy). lia.
      * destruct (Z.eqb_spec sx s) as [Heq|Hneq]; rewrite bind_Ret;
          (eexists; split; [done|]); right; exists s; repeat split; simpl; try done.
        -- intros y [Hy|Hy]%elem_of_app; [by apply Hle|].
           apply list_elem_of_singleton in Hy as ->. fold sx. lia.
        -- rewrite filter_app, filter_cons_True by done. by rewrite Hbest.
        -- by destruct best.
        -- intros y [Hy|Hy]%elem_of_app; [by apply Hle|].
           apply list_elem_of_singleton in Hy as ->. fold sx. lia.
        -- rewrite filter_app, filter_cons_False by done.
           by rewrite filter_nil, app_nil_r.
Qed.


(** ** What [getAIMove] returns *)

(** The three levels, each on the list [getAllValidMoves] returns. *)
Lemma getAIMove_levels b :
  wf_board b = true ->
  exists moves,
    getAllValidMoves b black = Ret moves
    /\ (forall x, x ∈ moves <-> legalMove b black x)
    /\ (moves = [] -> forall d u, getAIMove b d u = Ret None)
    /\ (moves <> [] -> forall u,
          getAIMove b easy u = Ret (pickAt moves (randomIndex u (length moves)))
          /\ (exists acc, bestCaptures b moves acc /\
                 getAIMove b medium u
                 = Ret (pickAt acc.1 (randomIndex u (length acc.1))))
          /\ (exists acc, firstBest (moveValue b) moves acc /\
                 getAIMove b hard u = Ret acc.1)).
Proof.
  intros Hwf.
  destruct (getAllValidMoves_spec b Hwf black) as (moves & Hmoves & Hspec).
  exists moves. repeat split; try apply Hspec; try done.
  - intros -> d u. unfold getAIMove. by rewrite Hmoves.
  - unfold getAIMove. rewrite Hmoves, bind_Ret. by destruct moves.
  - destruct (medium_loop b moves) as (acc & Hfold & Hinv).
    { intros x Hx%Hspec. by apply (captureScore_legal b black). }
    exists acc. split; [done|]. unfold getAIMove. rewrite Hmoves, bind_Ret.
    destruct moves; [done|]. by rewrite Hfold.
  - destruct (hard_loop b moves) as (acc & Hfold & Hinv).
    { intros x Hx%Hspec. destruct (play_wf b Hwf black x Hx) as (nb & Hnb & Hw).
      destruct (minimax_returns 1 nb false Hw) as [v Hv].
      exists v. unfold moveValue. rewrite Hnb, bind_Ret. split; [done|].
      by eapply minimax_white_not_NegInf. }
    exists acc. split; [done|]. unfold getAIMove. rewrite Hmoves, bind_Ret.
    destruct moves; [done|]. by rewrite Hfold.
Qed.

(** Whatever the draw, a move [getAIMove] returns is a legal black move. *)
Lemma getAIMove_legal b d u m :
  wf_board b = true -> getAIMove b d u = Ret (Some m) -> legalMove b black m.
Proof.
  intros Hwf H.
  destruct (getAIMove_levels b Hwf) as (moves & _ & Hspec & Hnil & Hcons).
  destruct (decide (moves = [])) as [Hm|Hm]; [by rewrite Hnil in H|].
  destruct (Hcons Hm u) as (Heasy & (am & Hmed & Hmedium) & (ah & Hh & Hhard)).
  apply Hspec. destruct d.
  - rewrite Heasy in H. injection H as H. by apply pickAt_elem in H.
  - rewrite Hmedium in H. injection H as H. apply pickAt_elem in H.
    destruct Hmed as [[? ->]|(s & _ & _ & Hbest & _)]; [by apply elem_of_nil in H|].
    rewrite Hbest in H. by apply list_elem_of_filter in H as [_ ?].
  - rewrite Hhard in H. injection H as H. unfold firstBest in Hh. rewrite H in Hh.
    destruct Hh as (l1 & l2 & -> & _). apply elem_of_app. right. left.
Qed.

(** With a draw of [Math.random()], [getAIMove] returns a move as soon as
    black has one. *)
Lemma getAIMove_some b d u :
  wf_board b = true -> isDraw u = true -> legalMoveExists b black None ->
  exists m, getAIMove b d u = Ret (Some m).
Proof.
  intros Hwf Hu Hex.
  destruct (getAIMove_levels b Hwf) as (moves & _ & Hspec & _ & Hcons).
  assert (moves <> []) as Hm.
  { apply legalMove_exists in Hex as [m Hm%Hspec]. intros ->.
    by apply elem_of_nil in Hm. }
  destruct (Hcons Hm u) as (Heasy & (am & Hmed & Hmedium) & (ah & Hh & Hhard)).
  destruct d.
  - rewrite Heasy. destruct (pickAt_range moves (randomIndex u (length moves)))
      as [m ->]; [|by exists m].
    apply randomIndex_range; [done..|]. destruct moves; [done | simpl; lia].
  - rewrite Hmedium.
    destruct Hmed as [[-> _]|(s & _ & _ & _ & Hne)]; [done|].
    destruct (pickAt_range am.1 (randomIndex u (length am.1))) as [m ->];
      [|by exists m].
    apply randomIndex_range; [done..|]. destruct am.1; [done | simpl; lia].
  - rewrite Hhard. unfold firstBest in Hh. destruct ah.1 as [m|]; [by exists m|].
    by destruct Hh as [-> _].
Qed.



(** C8. On an 8 by 8 board, with any number [Math.random()] can return (a
    binary64 value in [0, 1)), [getAIMove] returns at every level; it returns
    [null] exactly when black has no legal move (no en passant target being
    supplied), and a move it returns is one of black's legal moves. *)
Theorem getAIMove_null_iff_no_move (b : BoardState) (d : Difficulty) (u : Draw) :
  wf_board b = true -> isDraw u = true ->
  returns (getAIMove b d u)
  /\ (getAIMove b d u = Ret None <-> ~ legalMoveExists b black None)
  /\ (forall m, getAIMove b d u = Ret (Some m) -> legalMove b black m).
Proof.
  intros Hwf Hu.
  destruct (getAIMove_levels b Hwf) as (moves & _ & Hspec & Hnil & _).
  assert (~ legalMoveExists b black None -> getAIMove b d u = Ret None) as Hnone.
  { intros Hno. apply Hnil. destruct moves as [|m moves]; [done|].
    destruct Hno. apply legalMove_exists. exists m. apply Hspec. left. }
  assert (legalMoveExists b black None -> exists m, getAIMove b d u = Ret (Some m))
    as Hsome by (by apply getAIMove_some).
  split; [|split].
  - destruct (moves) as [|m0 moves'] eqn:Hm.
    + rewrite Hnone; [apply returns_Ret|]. intros [m Hl%Hspec]%legalMove_exists.
      by apply elem_of_nil in Hl.
    + destruct Hsome as [m ->]; [|apply returns_Ret].
      apply legalMove_exists. exists m0. apply Hspec. left.
  - split; [|done]. intros Hn Hex. destruct (Hsome Hex) as [m Hm]. congruence.
  - intros m. by apply getAIMove_legal.
Qed.

(** C9. On an 8 by 8 board, whatever the level and the draw, a move
    [getAIMove] returns is accepted by [isValidMove] with no en passant
    target; and it is not an en passant capture, whatever target the game
    has: [isValidMove] would not take it for one. *)
Theorem getAIMove_never_en_passant (b : BoardState) (d : Difficulty) (u : Draw)
    (m : Position) :
  wf_board b = true -> getAIMove b d u = Ret (Some m) ->
  exists fr fc tr tc p,
    decodeIndex (row m) = (fr, fc) /\ decodeIndex (col m) = (tr, tc)
    /\ inside fr fc /\ inside tr tc
    /\ rd b fr fc = Ret (JPiece p) /\ color p = black
    /\ isValidMove b fr fc tr tc None = Ret true
    /\ forall target, enPassant b p fr fc tr tc (Some target) <> Ret Capture.
Proof.
  intros Hwf H. apply getAIMove_legal in H; [|done].
  apply legalMove_decode in H
    as (fr & fc & tr & tc & p & Hdf & Hdt & Hfrom & Hto & Hp & Hc & Hv).
  exists fr, fc, tr, tc, p. repeat split; try done; try apply Hfrom; try apply Hto.
  intros t He.
  apply enPassant_Capture in He
    as (t' & q & [= <-] & Hpawn & -> & -> & Hd & Hfr & Habs & _).
  unfold isValidMove in Hv. rewrite Hp, bind_Ret, Hpawn in Hv. simpl in Hv.
  bind_inv Hv. destruct a; [|discriminate]. clear Hv.
  unfold isValidPieceMove in E. destruct (_ || _) in E; [discriminate|].
  rewrite Hp, bind_Ret in E. destruct (_ && _) in E; [discriminate|].
  rewrite Hd, bind_Ret in E. simpl in E. rewrite Hpawn in E.
  unfold pawnMove in E. simpl in E.
  assert ((fc =? col t) = false) as Hne by (apply Z.eqb_neq; lia).
  rewrite Hne in E. simpl in E. rewrite !andb_false_r in E. discriminate.
Qed.

(** ** Instances on concrete boards *)

Lemma castling_spec_witness :
  returns (isValidMove castleReadyBoard 7 4 7 6 None) /\
  (isValidMove castleReadyBoard 7 4 7 6 None = Ret true <->
   exists rk,
     rd castleReadyBoard 7 7 = Ret (JPiece rk) /\ type rk = rook
     /\ color rk = white
     /\ isKingInCheck castleReadyBoard white = Ret false
     /\ (forall c, Z.min 4 7 < c < Z.max 4 7 ->
                   rd castleReadyBoard 7 c = Ret JNull)
     /\ isSquareAttacked castleReadyBoard 7 (4 + 1) black = Ret false
     /\ isSquareAttacked castleReadyBoard 7 6 black = Ret false
     /\ exists nb,
          castled castleReadyBoard nb (mkPiece king white) rk 7 4 6 7 5
          /\ isKingInCheck nb white = Ret false).
Proof.
  apply (castling_spec castleReadyBoard 7 4 6 None (mkPiece king white)).
  - reflexivity.
  - unfold inside; lia.
  - lia.
  - reflexivity.
  - reflexivity.
  - reflexivity.
Defined.

Lemma en_passant_spec_witness :
  exists t,
    Some (mkPos 2 5) = Some t /\ type (mkPiece pawn white) = pawn
    /\ 2 = row t /\ 5 = col t /\
    let captureRow := row t + 1 in
    (rd enPassantBoard (row t) (col t) = Ret JNull
     /\ 3 = captureRow /\ Z.abs (4 - col t) = 1
     /\ exists q, rd enPassantBoard captureRow (col t) = Ret (JPiece q)
                  /\ type q = pawn /\ color q = black)
    /\ exists nb,
         simulate enPassantBoard (mkPiece pawn white) 3 4 2 5 true
                  (Some (mkPos 2 5)) = Ret nb
         /\ isValidMove enPassantBoard 3 4 2 5 (Some (mkPos 2 5))
            = (isKingInCheck nb white ≫= fun chk => Ret (negb chk))
         /\ rd nb captureRow (col t) = Ret JNull
         /\ rd nb (row t) (col t) = Ret (JPiece (mkPiece pawn white))
         /\ rd nb 3 4 = Ret JNull
         /\ forall r c, (r, c) <> (3, 4) -> (r, c) <> (captureRow, col t) ->
                        (r, c) <> (row t, col t) ->
                        rd nb r c = rd enPassantBoard r c.
Proof.
  apply (en_passant_spec enPassantBoard 3 4 2 5 (Some (mkPos 2 5))
           (mkPiece pawn white)).
  - reflexivity.
  - reflexivity.
  - vm_compute; reflexivity.
Defined.

Lemma isValidMove_outside_witness :
  returns (isValidMove createInitialBoard 0 (-1) 9 9 None) /\
  (~ 0 <= -1 < 8 \/ rd createInitialBoard 0 (-1) = Ret JNull \/ ~ inside 9 9 ->
   isValidMove createInitialBoard 0 (-1) 9 9 None = Ret false).
Proof.
  apply (isValidMove_outside createInitialBoard 0 (-1) 9 9 None).
  - reflexivity.
  - lia.
  - exact I.
  - right. intros (piece & H & _). vm_compute in H. discriminate.
Defined.

Lemma makeMove_frame_witness :
  exists nb,
    makeMove createInitialBoard (mkPos 8 0) (mkPos 0 16) = Ret nb
    /\ wf_board nb = true
    /\ ((forall p, rd createInitialBoard 1 0 <> Ret (JPiece p)) ->
        nb = createInitialBoard)
    /\ (forall p, rd createInitialBoard 1 0 = Ret (JPiece p) ->
          rd nb 2 0 = Ret (JPiece (finalPiece p 2))
          /\ ((1, 0) <> (2, 0) -> rd nb 1 0 = Ret JNull)
          /\ forall r c, (r, c) <> (1, 0) -> (r, c) <> (2, 0) ->
                         rd nb r c = rd createInitialBoard r c).
Proof.
  apply (makeMove_frame createInitialBoard (mkPos 8 0) (mkPos 0 16)).
  - reflexivity.
  - simpl; lia.
  - simpl; lia.
Defined.


Lemma getAIMove_null_iff_no_move_witness :
  returns (getAIMove createInitialBoard easy (mkDraw 1 1))
  /\ (getAIMove createInitialBoard easy (mkDraw 1 1) = Ret None <->
      ~ legalMoveExists createInitialBoard black None)
  /\ (forall m, getAIMove createInitialBoard easy (mkDraw 1 1) = Ret (Some m) ->
                legalMove createInitialBoard black m).
Proof.
  apply (getAIMove_null_iff_no_move createInitialBoard easy (mkDraw 1 1)).
  - reflexivity.
  - reflexivity.
Defined.

Lemma getAIMove_never_en_passant_witness :
  exists fr fc tr tc p,
    decodeIndex 1 = (fr, fc) /\ decodeIndex 16 = (tr, tc)
    /\ inside fr fc /\ inside tr tc
    /\ rd createInitialBoard fr fc = Ret (JPiece p) /\ color p = black
    /\ isValidMove createInitialBoard fr fc tr tc None = Ret true
    /\ forall target,
         enPassant createInitialBoard p fr fc tr tc (Some target) <> Ret Capture.
Proof.
  apply (getAIMove_never_en_passant createInitialBoard hard (mkDraw 0 0) (mkPos 1 16)).
  - reflexivity.
  - vm_compute; reflexivity.
Defined.


(** ** The engine on known positions *)

Example initial_position_not_terminal :
  isCheckmate createInitialBoard white None = Ret false
  /\ isCheckmate createInitialBoard black None = Ret false
  /\ isStalemate createInitialBoard white None = Ret false
  /\ isStalemate createInitialBoard black None = Ret false.
Proof. vm_compute. repeat split. Qed.

Example fools_mate_is_checkmate :
  wf_board foolsMateBoard = true
  /\ isKingInCheck foolsMateBoard white = Ret true
  /\ isCheckmate foolsMateBoard white None = Ret true
  /\ isStalemate foolsMateBoard white None = Ret false.
Proof. vm_compute. repeat split. Qed.

Example queen_stalemate :
  wf_board stalemateBoard = true
  /\ isKingInCheck stalemateBoard black = Ret false
  /\ isStalemate stalemateBoard black None = Ret true
  /\ isCheckmate stalemateBoard black None = Ret false.
Proof. vm_compute. repeat split. Qed.

Example castle_on_clear_row :
  isValidMove castleReadyBoard 7 4 7 6 None = Ret true
  /\ isValidMove castleReadyBoard 7 4 7 2 None = Ret false.
Proof. vm_compute. repeat split. Qed.

Example en_passant_accepted :
  isValidMove enPassantBoard 3 4 2 5 (Some (mkPos 2 5)) = Ret true
  /\ isValidMove enPassantBoard 3 4 2 5 None = Ret false.
Proof. vm_compute. repeat split. Qed.

(** * Further properties of the code *)

(** ** Movement patterns *)

Section Patterns.
Variable b : BoardState.

Lemma pathLoop_true (fuel n : nat) cr cc tr tc dr dc :
  (n < fuel)%nat -> tr = cr + Z.of_nat n * dr -> tc = cc + Z.of_nat n * dc ->
  dr <> 0 \/ dc <> 0 ->
  pathLoop fuel b cr cc tr tc dr dc = Ret true <->
  forall k : nat, (k < n)%nat ->
                  rd b (cr + Z.of_nat k * dr) (cc + Z.of_nat k * dc) = Ret JNull.
Proof.
  revert n cr cc. induction fuel as [|f IH]; intros n cr cc Hn Hr Hc Hd; [lia|].
  unfold pathLoop; fold pathLoop.
  destruct ((cr =? tr) && (cc =? tc)) eqn:Hat.
  - assert (n = 0%nat) as -> by (bool_hyps; nia).
    split; [intros _ k Hk; lia | done].
  - destruct n as [|m]; [bool_hyps; lia|]. split.
    + intros H k Hk. bind_inv H. destruct (is_null a) eqn:Hnull; [|discriminate].
      destruct a; try discriminate.
      destruct k as [|k]; [by rewrite !Z.mul_0_l, !Z.add_0_r|].
      pose proof (proj1 (IH m (cr + dr) (cc + dc) ltac:(lia) ltac:(lia)
                           ltac:(lia) Hd) H k ltac:(lia)) as H'.
      rewrite <- H'. f_equal; lia.
    + intros H. pose proof (H 0%nat ltac:(lia)) as H0.
      rewrite !Z.mul_0_l, !Z.add_0_r in H0. rewrite H0, bind_Ret. simpl.
      apply (proj2 (IH m (cr + dr) (cc + dc) ltac:(lia) ltac:(lia)
                      ltac:(lia) Hd)).
      intros k Hk. rewrite <- (H (S k) ltac:(lia)). f_equal; lia.
Qed.

Lemma isPathClear_true fr fc tr tc :
  inside fr fc -> inside tr tc -> (fr, fc) <> (tr, tc) ->
  Z.abs (tr - fr) = 0 \/ Z.abs (tc - fc) = 0
    \/ Z.abs (tr - fr) = Z.abs (tc - fc) ->
  isPathClear b fr fc tr tc = Ret true <-> pathEmpty b fr fc tr tc.
Proof.
  intros [Hfr Hfc] [Htr Htc] Hne Hal. unfold isPathClear, pathEmpty.
  set (N := Z.max (Z.abs (tr - fr)) (Z.abs (tc - fc))).
  set (sr := stepToward fr tr). set (sc := stepToward fc tc).
  assert (0 < N) as HN.
  { subst N. destruct (decide (fr = tr)); [|lia].
    destruct (decide (fc = tc)); [congruence | lia]. }
  assert (tr = fr + N * sr /\ tc = fc + N * sc /\ (sr <> 0 \/ sc <> 0))
    as (Htr' & Htc' & Hs).
  { subst N sr sc. unfold stepToward. rewrite !Z.gtb_ltb.
    destruct (Z.ltb_spec fr tr), (Z.ltb_spec tr fr),
      (Z.ltb_spec fc tc), (Z.ltb_spec tc fc); lia. }
  assert (N <= 7) as HN7 by (subst N; lia).
  assert (Z.of_nat (Z.to_nat (N - 1)) = N - 1) as Hn by lia.
  rewrite (pathLoop_true 8 (Z.to_nat (N - 1))); [|lia|rewrite Hn; lia..|done].
  split.
  - intros H k Hk. specialize (H (Z.to_nat (k - 1)) ltac:(lia)).
    rewrite <- H. rewrite Z2Nat.id by lia. f_equal; lia.
  - intros H k Hk. rewrite <- (H (Z.of_nat k + 1)) by lia. f_equal; lia.
Qed.
End Patterns.

(** X1. Between two distinct squares of the board on a common row, column
    or diagonal, [isPathClear] returns, and returns true exactly when every
    square strictly between them is empty. *)
Theorem isPathClear_spec (b : BoardState) (fr fc tr tc : Z) :
  wf_board b = true -> inside fr fc -> inside tr tc -> (fr, fc) <> (tr, tc) ->
  Z.abs (tr - fr) = 0 \/ Z.abs (tc - fc) = 0
    \/ Z.abs (tr - fr) = Z.abs (tc - fc) ->
  (isPathClear b fr fc tr tc = Ret true <-> pathEmpty b fr fc tr tc)
  /\ (isPathClear b fr fc tr tc = Ret false <-> ~ pathEmpty b fr fc tr tc).
Proof.
  intros Hwf Hfrom Hto Hne Hal.
  pose proof (isPathClear_true b fr fc tr tc Hfrom Hto Hne Hal) as Ht.
  split; [done|]. rewrite <- Ht.
  destruct (isPathClear_returns b Hwf fr fc tr tc Hfrom Hto Hal) as [[] ->];
    split; congruence.
Qed.

Section PieceMoves.
Variable b : BoardState.
Hypothesis Hwf : wf_board b = true.
Variables (fr fc tr tc : Z) (piece : ChessPiece).
Hypothesis Hpiece : rd b fr fc = Ret (JPiece piece).

Lemma notOwn_same_color t :
  rd b tr tc = Ret t -> (notOwn b (color piece) tr tc <-> same_color t (color piece) = false).
Proof.
  intros Ht. unfold notOwn. rewrite Ht. split.
  - intros H. destruct t as [| |q]; try done. simpl. unfold color_eqb.
    apply bool_decide_eq_false. by apply H.
  - intros H q [= ->]. simpl in H. unfold color_eqb in H.
    by apply bool_decide_eq_false in H.
Qed.

(** What every pattern check starts with: the destination is on the board,
    differs from the origin and holds no piece of the mover's colour. *)
Lemma isValidPieceMove_guards :
  isValidPieceMove b fr fc tr tc = Ret true ->
  inside tr tc /\ (fr, fc) <> (tr, tc) /\ notOwn b (color piece) tr tc.
Proof.
  unfold isValidPieceMove. intros H.
  destruct (_ || _) eqn:Hb in H; [discriminate|].
  assert (inside tr tc) as Hto by (unfold inside; bool_hyps; lia).
  rewrite Hpiece, bind_Ret in H.
  destruct (_ && _) eqn:Hnull in H; [discriminate|].
  bind_inv H. destruct (same_color a (color piece)) eqn:Hsame; [discriminate|].
  repeat split; try apply Hto.
  - intros [= -> ->]. rewrite !Z.eqb_refl in Hnull. discriminate.
  - by apply (notOwn_same_color a).
Qed.

(** Past those guards the check is the pattern of the piece. *)
Lemma isValidPieceMove_body t :
  inside tr tc -> (fr, fc) <> (tr, tc) -> rd b tr tc = Ret t ->
  same_color t (color piece) = false ->
  isValidPieceMove b fr fc tr tc =
  let rowDiff := Z.abs (tr - fr) in
  let colDiff := Z.abs (tc - fc) in
  match type piece with
  | pawn => pawnMove b piece t fr fc tr tc
  | rook =>
      if (rowDiff =? 0) || (colDiff =? 0) then isPathClear b fr fc tr tc
      else Ret false
  | bishop =>
      if rowDiff =? colDiff then isPathClear b fr fc tr tc else Ret false
  | queen =>
      if (rowDiff =? 0) || (colDiff =? 0) || (rowDiff =? colDiff)
      then isPathClear b fr fc tr tc
      else Ret false
  | king => Ret ((rowDiff <=? 1) && (colDiff <=? 1))
  | knight =>
      Ret ((rowDiff =? 2) && (colDiff =? 1) || (rowDiff =? 1) && (colDiff =? 2))
  end.
Proof.
  intros [Htr Htc] Hne Ht Hsame. unfold isValidPieceMove.
  assert ((tr <? 0) || (tr >? 7) || (tc <? 0) || (tc >? 7) = false) as ->.
  { rewrite !Z.gtb_ltb. repeat (apply orb_false_iff; split); apply Z.ltb_ge; lia. }
  rewrite Hpiece, bind_Ret.
  assert ((fr =? tr) && (fc =? tc) = false) as ->.
  { apply andb_false_iff. destruct (Z.eqb_spec fr tr) as [->|]; [|by left].
    right. apply Z.eqb_neq. congruence. }
  by rewrite Ht, bind_Ret, Hsame.
Qed.
End PieceMoves.

(** X2. A rook, bishop or queen on an 8 by 8 board has a pattern move to a
    square exactly when the destination is another square of the board that
    holds no piece of its colour, lies on one of the piece's lines (row or
    column for the rook, diagonal for the bishop, any of them for the queen)
    and every square strictly between is empty: sliding pieces never jump. *)
Theorem slider_move_spec (b : BoardState) (fr fc tr tc : Z) (piece : ChessPiece) :
  wf_board b = true -> rd b fr fc = Ret (JPiece piece) ->
  type piece = rook \/ type piece = bishop \/ type piece = queen ->
  isValidPieceMove b fr fc tr tc = Ret true <->
  inside tr tc /\ (fr, fc) <> (tr, tc) /\ notOwn b (color piece) tr tc
  /\ lineOf (type piece) (tr - fr) (tc - fc) /\ pathEmpty b fr fc tr tc.
Proof.
  intros Hwf Hp Hty.
  assert (inside fr fc) as Hfrom by (by eapply rd_piece_inside).
  assert (forall t, inside tr tc -> (fr, fc) <> (tr, tc) -> rd b tr tc = Ret t ->
                    same_color t (color piece) = false ->
                    isValidPieceMove b fr fc tr tc = Ret true <->
                    lineOf (type piece) (tr - fr) (tc - fc)
                    /\ pathEmpty b fr fc tr tc) as Hbody.
  { intros t Hto Hne Ht Hsame.
    rewrite (isValidPieceMove_body b fr fc tr tc piece Hp t) by done.
    cbv zeta. unfold lineOf.
    destruct Hty as [->|[->| ->]].
    - destruct (_ || _) eqn:Hl.
      + rewrite isPathClear_true by (done || (bool_hyps; lia)).
        bool_hyps. split; [intros ?; split; [lia | done] | tauto].
      + bool_hyps. split; [discriminate | lia].
    - destruct (_ =? _) eqn:Hl.
      + rewrite isPathClear_true by (done || (bool_hyps; lia)).
        bool_hyps. tauto.
      + bool_hyps. split; [discriminate | tauto].
    - destruct (_ || _) eqn:Hl.
      + rewrite isPathClear_true by (done || (bool_hyps; lia)).
        bool_hyps. split; [intros ?; split; [lia | done] | tauto].
      + bool_hyps. split; [discriminate | lia]. }
  split.
  - intros H.
    destruct (isValidPieceMove_guards b fr fc tr tc piece Hp H) as (Hto & Hne & Hown).
    destruct (rd_inside b tr tc Hwf Hto) as (t & Ht & _).
    repeat split; try done; try apply Hto;
      by apply (Hbody t Hto Hne Ht (proj1 (notOwn_same_color b tr tc piece t Ht) Hown)).
  - intros (Hto & Hne & Hown & Hline & Hpath).
    destruct (rd_inside b tr tc Hwf Hto) as (t & Ht & _).
    by apply (Hbody t Hto Hne Ht (proj1 (notOwn_same_color b tr tc piece t Ht) Hown)).
Qed.

(** X3. A pawn on an 8 by 8 board has a pattern move to a square of the
    board exactly when it steps one row forward in its file onto an empty
    square, or two rows forward from its start row over an empty square onto
    an empty square, or one row forward and one file aside onto a piece of
    the other colour. In particular it has none onto an empty square of
    another file. *)
Theorem pawn_move_spec (b : BoardState) (fr fc tr tc : Z) (piece : ChessPiece) :
  wf_board b = true -> rd b fr fc = Ret (JPiece piece) -> type piece = pawn ->
  let d := pawnDirection (color piece) in
  isValidPieceMove b fr fc tr tc = Ret true <->
  inside tr tc /\
  ((fc = tc /\ rd b tr tc = Ret JNull
    /\ (tr = fr + d \/
        (fr = pawnStartRow (color piece) /\ tr = fr + 2 * d
         /\ rd b (fr + d) fc = Ret JNull)))
   \/ (Z.abs (fc - tc) = 1 /\ tr = fr + d
       /\ exists q, rd b tr tc = Ret (JPiece q) /\ color q <> color piece)).
Proof.
  intros Hwf Hp Hty d.
  assert (inside fr fc) as [Hfr Hfc] by (by eapply rd_piece_inside).
  assert (forall t, inside tr tc -> (fr, fc) <> (tr, tc) -> rd b tr tc = Ret t ->
                    is_cell t = true -> same_color t (color piece) = false ->
                    isValidPieceMove b fr fc tr tc = Ret true <->
                    ((fc = tc /\ t = JNull
                      /\ (tr = fr + d \/
                          (fr = pawnStartRow (color piece) /\ tr = fr + 2 * d
                           /\ rd b (fr + d) fc = Ret JNull)))
                     \/ (Z.abs (fc - tc) = 1 /\ tr = fr + d /\ truthy t = true)))
    as Hbody.
  { intros t Hto Hne Ht Hcell Hsame.
    rewrite (isValidPieceMove_body b fr fc tr tc piece Hp t) by done.
    cbv zeta. rewrite Hty. unfold pawnMove.
    fold (pawnDirection (color piece)). fold (pawnStartRow (color piece)). fold d.
    assert (fr = pawnStartRow (color piece) ->
            exists m, rd b (fr + d) fc = Ret m /\ is_cell m = true) as Hmid.
    { intros Hs. apply rd_inside; [done|]. split; [|done]. subst d.
      unfold pawnDirection, pawnStartRow in *. destruct (color piece); lia. }
    destruct t as [| |q]; [done| |]; simpl;
      repeat match goal with
             | |- context [?x =? ?y] => destruct (Z.eqb_spec x y); simpl
             end;
      try (destruct Hmid as (m & Hm & Hcm); [done|];
           rewrite Hm, bind_Ret; destruct m; simpl);
      (split;
       [ intros Heq; try discriminate Heq; first [left; tauto | right; tauto]
       | intros [(? & ? & [?|(? & ? & ?)])|(? & ? & ?)];
         first [reflexivity | lia | congruence | done] ]). }
  split.
  - intros H.
    destruct (isValidPieceMove_guards b fr fc tr tc piece Hp H) as (Hto & Hne & Hown).
    destruct (rd_inside b tr tc Hwf Hto) as (t & Ht & Hcell).
    split; [done|].
    apply (Hbody t Hto Hne Ht Hcell
             (proj1 (notOwn_same_color b tr tc piece t Ht) Hown)) in H.
    destruct H as [(? & -> & ?)|(? & ? & Htruthy)]; [left; tauto|].
    right. repeat split; try done. destruct t as [| |q]; try discriminate.
    exists q. split; [done|]. by apply Hown.
  - intros (Hto & H).
    destruct (rd_inside b tr tc Hwf Hto) as (t & Ht & Hcell).
    assert ((fr, fc) <> (tr, tc)) as Hne.
    { intros [= <- <-]. subst d. unfold pawnDirection, pawnStartRow in H.
      destruct (color piece), H as [(_ & _ & [?|(_ & ? & _)])|(? & _)]; lia. }
    assert (same_color t (color piece) = false) as Hsame.
    { destruct H as [(_ & Hn & _)|(_ & _ & q & Hq & Hc)];
        rewrite Ht in *.
      - by injection Hn as ->.
      - injection Hq as ->. simpl. unfold color_eqb. by apply bool_decide_eq_false. }
    apply (Hbody t Hto Hne Ht Hcell Hsame).
    destruct H as [(? & Hn & ?)|(? & ? & q & Hq & _)]; rewrite Ht in *.
    + left. injection Hn as ->. tauto.
    + right. injection Hq as ->. tauto.
Qed.

(** X4. A knight has a pattern move exactly to the squares of the board two
    rows and one file, or one row and two files, away that hold no piece of
    its colour; a king exactly to the other squares of the board at most one
    row and one file away that hold no piece of its colour. Neither depends
    on the squares in between. *)
Theorem leaper_move_spec (b : BoardState) (fr fc tr tc : Z) (piece : ChessPiece) :
  wf_board b = true -> rd b fr fc = Ret (JPiece piece) ->
  (type piece = knight ->
   (isValidPieceMove b fr fc tr tc = Ret true <->
    inside tr tc /\ notOwn b (color piece) tr tc
    /\ ((Z.abs (tr - fr) = 2 /\ Z.abs (tc - fc) = 1)
        \/ (Z.abs (tr - fr) = 1 /\ Z.abs (tc - fc) = 2))))
  /\ (type piece = king ->
      (isValidPieceMove b fr fc tr tc = Ret true <->
       inside tr tc /\ (fr, fc) <> (tr, tc) /\ notOwn b (color piece) tr tc
       /\ Z.abs (tr - fr) <= 1 /\ Z.abs (tc - fc) <= 1)).
Proof.
  intros Hwf Hp.
  assert (forall t, inside tr tc -> (fr, fc) <> (tr, tc) -> rd b tr tc = Ret t ->
                    notOwn b (color piece) tr tc ->
                    same_color t (color piece) = false) as Hsame.
  { intros t _ _ Ht Hown. by apply (notOwn_same_color b tr tc piece t Ht). }
  split; intros Hty; split.
  - intros H.
    destruct (isValidPieceMove_guards b fr fc tr tc piece Hp H) as (Hto & Hne & Hown).
    destruct (rd_inside b tr tc Hwf Hto) as (t & Ht & _).
    rewrite (isValidPieceMove_body b fr fc tr tc piece Hp t) in H by eauto.
    cbv zeta in H. rewrite Hty in H. injection H as H.
    repeat split; try done; try apply Hto. bool_hyps. lia.
  - intros (Hto & Hown & Hshape).
    destruct (rd_inside b tr tc Hwf Hto) as (t & Ht & _).
    assert ((fr, fc) <> (tr, tc)) as Hne by (intros [= <- <-]; lia).
    rewrite (isValidPieceMove_body b fr fc tr tc piece Hp t) by eauto.
    cbv zeta. rewrite Hty. f_equal.
    destruct Hshape as [[-> ->]|[-> ->]]; reflexivity.
  - intros H.
    destruct (isValidPieceMove_guards b fr fc tr tc piece Hp H) as (Hto & Hne & Hown).
    destruct (rd_inside b tr tc Hwf Hto) as (t & Ht & _).
    rewrite (isValidPieceMove_body b fr fc tr tc piece Hp t) in H by eauto.
    cbv zeta in H. rewrite Hty in H. injection H as H.
    repeat split; try done; try apply Hto; bool_hyps; lia.
  - intros (Hto & Hne & Hown & Hr & Hc).
    destruct (rd_inside b tr tc Hwf Hto) as (t & Ht & _).
    rewrite (isValidPieceMove_body b fr fc tr tc piece Hp t) by eauto.
    cbv zeta. rewrite Hty. f_equal.
    apply andb_true_iff. split; apply Z.leb_le; lia.
Qed.

(** ** What an accepted move looks like *)

(** X5. A move [isValidMove] accepts is never a move to the origin square.
    It is a king's move of two files along its row, or an en passant capture,
    or a pattern move of the piece; and unless it is such a king's move, its
    destination is a square of the board that holds no piece of the mover's
    colour. *)
Theorem accepted_move_shape (b : BoardState) (fr fc tr tc : Z)
    (ep : option Position) (piece : ChessPiece) :
  wf_board b = true -> rd b fr fc = Ret (JPiece piece) ->
  isValidMove b fr fc tr tc ep = Ret true ->
  (fr, fc) <> (tr, tc)
  /\ ((type piece = king /\ fr = tr /\ Z.abs (tc - fc) = 2)
      \/ enPassant b piece fr fc tr tc ep = Ret Capture
      \/ isValidPieceMove b fr fc tr tc = Ret true)
  /\ (~ (type piece = king /\ fr = tr /\ Z.abs (tc - fc) = 2) ->
      inside tr tc /\ notOwn b (color piece) tr tc).
Proof.
  intros Hwf Hp H. unfold isValidMove in H. rewrite Hp, bind_Ret in H.
  destruct (_ && _) eqn:Hcastle in H.
  - bool_hyps. split; [|split].
    + intros [= _ ->]. lia.
    + by left.
    + tauto.
  - assert (~ (type piece = king /\ fr = tr /\ Z.abs (tc - fc) = 2)) as Hnc.
    { intros (Hk & -> & Ha). rewrite Hk, Z.eqb_refl, Ha in Hcastle. discriminate. }
    bind_inv H. destruct a as [| |]; [| |discriminate].
    + bind_inv H. destruct a; [|discriminate].
      destruct (isValidPieceMove_guards b fr fc tr tc piece Hp E0)
        as (Hto & Hne & Hown).
      split; [done|]. split; [right; by right | done].
    + pose proof E as Hcap. apply enPassant_Capture in Hcap
        as (t & q & -> & Hpawn & -> & -> & Hd & Hfr & Habs & _).
      assert (inside (row t) (col t)) as Hto by (by eapply rd_null_inside).
      split; [|split].
      * intros [= _ Hc]. rewrite Hc in Habs. lia.
      * right; by left.
      * intros _. split; [done|]. intros q' Hq'. congruence.
Qed.

Section Captures.
Variable b : BoardState.
Hypothesis Hwf : wf_board b = true.

(** The destination of an accepted castle is empty or holds the castling
    rook. *)
Lemma castling_destination piece fr fc tc :
  inside fr fc -> 0 <= tc < 8 -> Z.abs (tc - fc) = 2 ->
  castling b piece fr fc tc = Ret true ->
  rd b fr tc = Ret JNull
  \/ exists rk, rd b fr tc = Ret (JPiece rk) /\ color rk = color piece.
Proof.
  intros [Hfr Hfc] Htc Habs H.
  apply castling_true in H as (rk & nb & Hrk & _ & Hcol & _ & Hgap & _).
  set (rookCol := if tc >? fc then 7 else 0) in *.
  set (step := if tc >? fc then 1 else -1) in *.
  destruct (decide (tc = rookCol)) as [Heq|Hne];
    [right; exists rk; by rewrite Heq|]. left.
  assert (step <> 0) as Hs by (subst step; destruct (tc >? fc); lia).
  assert (exists n : nat, (n < 8)%nat /\ (1 <= n)%nat
                          /\ rookCol = fc + step + Z.of_nat n * step
                          /\ tc = fc + step + Z.of_nat 1 * step)
    as (n & Hn & Hn1 & Hr & Ht).
  { subst step rookCol. rewrite Z.gtb_ltb in *. destruct (Z.ltb_spec fc tc).
    - exists (Z.to_nat (6 - fc)). lia.
    - exists (Z.to_nat (fc - 1)). lia. }
  rewrite (gapLoop_true b 8 n) in Hgap by done.
  rewrite Ht. apply Hgap.
  destruct (decide (n = 1%nat)) as [->|]; [|lia]. exfalso. apply Hne. lia.
Qed.

(** A piece of a colour that has a pattern move onto a square attacks it. *)
Lemma pattern_move_attacks fr fc tr tc piece :
  rd b fr fc = Ret (JPiece piece) ->
  isValidPieceMove b fr fc tr tc = Ret true ->
  isSquareAttacked b tr tc (color piece) = Ret true.
Proof.
  intros Hp H. assert (inside fr fc) as Hfrom by (by eapply rd_piece_inside).
  unfold isSquareAttacked.
  apply (existsR_intro _ _ (fr, fc)); [|by apply elem_of_squares|].
  - intros s [Hs1 Hs2]%squares_inside.
    destruct (rd_returns b s.1 s.2 Hwf Hs1) as [v ->]. rewrite bind_Ret.
    destruct (same_color v (color piece)); [|apply returns_Ret].
    by apply isValidPieceMove_returns.
  - simpl. rewrite Hp, bind_Ret. simpl. unfold color_eqb.
    by rewrite bool_decide_eq_true_2.
Qed.
End Captures.

(** X6. [isValidMove] accepts the capture of an enemy piece only on a square
    that [isSquareAttacked] reports as attacked by the mover's colour. So the
    king that [findKingPosition] reports for a colour can be captured only on
    a board where [isKingInCheck] already holds for that colour. *)
Theorem capture_only_if_attacked (b : BoardState) (fr fc tr tc : Z)
    (ep : option Position) (piece q : ChessPiece) :
  wf_board b = true -> rd b fr fc = Ret (JPiece piece) ->
  rd b tr tc = Ret (JPiece q) -> color q <> color piece ->
  isValidMove b fr fc tr tc ep = Ret true ->
  isSquareAttacked b tr tc (color piece) = Ret true
  /\ (findKingPosition b (color q) = Ret (Some (tr, tc)) ->
      isKingInCheck b (color q) = Ret true).
Proof.
  intros Hwf Hp Hq Hcol H.
  assert (inside fr fc) as Hfrom by (by eapply rd_piece_inside).
  assert (inside tr tc) as Hto by (by eapply rd_piece_inside).
  assert (isValidPieceMove b fr fc tr tc = Ret true) as Hpat.
  { unfold isValidMove in H. rewrite Hp, bind_Ret in H.
    destruct (_ && _) eqn:Hcastle in H.
    - exfalso. bool_hyps. subst tr.
      destruct (castling_destination b piece fr fc tc) as [Hn|(rk & Hrk & Hc)];
        try done; try apply Hto; congruence.
    - bind_inv H. destruct a as [| |]; [| |discriminate].
      + bind_inv H. by destruct a.
      + exfalso. apply enPassant_Capture in E
          as (t & q' & _ & _ & -> & -> & Hd & _). congruence. }
  assert (isSquareAttacked b tr tc (color piece) = Ret true) as Hatt
      by (by apply (pattern_move_attacks b Hwf fr fc)).
  split; [done|]. intros Hking. unfold isKingInCheck.
  rewrite Hking, bind_Ret.
  assert (opponent (color q) = color piece) as ->; [|done].
  destruct (color q), (color piece); done.
Qed.

(** ** Terminal positions *)

(** X7. On an 8 by 8 board a colour is in exactly one of three situations:
    it has a legal move, it is checkmated, or it is stalemated. *)
Theorem terminal_trichotomy (b : BoardState) (c : Color) (ep : option Position) :
  wf_board b = true ->
  (hasAnyLegalMove b c ep = Ret false <->
   isCheckmate b c ep = Ret true \/ isStalemate b c ep = Ret true)
  /\ (isCheckmate b c ep = Ret true -> isStalemate b c ep = Ret false)
  /\ (isStalemate b c ep = Ret true -> isCheckmate b c ep = Ret false)
  /\ (hasAnyLegalMove b c ep = Ret true ->
      isCheckmate b c ep = Ret false /\ isStalemate b c ep = Ret false).
Proof.
  intros Hwf. unfold isCheckmate, isStalemate.
  destruct (isKingInCheck_returns b Hwf c) as [chk ->].
  destruct (hasAnyLegalMove_returns b Hwf c ep) as [any ->].
  rewrite !bind_Ret. destruct chk, any; simpl; repeat split; try done;
    try (intros [?|?]; done); try (intros _; by left); try (intros _; by right).
Qed.

Lemma findR_None {A} (f : A -> result bool) (l : list A) :
  (forall x, x ∈ l -> f x = Ret false) -> findR f l = Ret None.
Proof.
  induction l as [|x l IH]; intros H; [done|].
  unfold findR; fold (@findR A). rewrite (H x) by left. rewrite bind_Ret.
  apply IH. intros y Hy. apply H. by right.
Qed.

(** X8. On an 8 by 8 board with no king of a colour, [isKingInCheck] is false
    for that colour, [isCheckmate] is false, and [isStalemate] is true
    exactly when the colour has no legal move. *)
Theorem no_king_no_check (b : BoardState) (c : Color) (ep : option Position) :
  wf_board b = true ->
  (forall r k q, rd b r k = Ret (JPiece q) -> ~ (type q = king /\ color q = c)) ->
  isKingInCheck b c = Ret false
  /\ isCheckmate b c ep = Ret false
  /\ (isStalemate b c ep = Ret true <-> ~ legalMoveExists b c ep).
Proof.
  intros Hwf Hno.
  assert (isKingInCheck b c = Ret false) as Hchk.
  { unfold isKingInCheck, findKingPosition. rewrite findR_None; [done|].
    intros s [Hs1 Hs2]%squares_inside.
    destruct (rd_returns b s.1 s.2 Hwf Hs1) as [v Hv]. rewrite Hv, bind_Ret.
    f_equal. destruct v as [| |q]; try done. simpl.
    destruct (ptype_eqb (type q) king && color_eqb (color q) c) eqn:Hk; [|done].
    bool_hyps. by destruct (Hno _ _ _ Hv). }
  unfold isCheckmate, isStalemate. rewrite Hchk, !bind_Ret. simpl.
  rewrite <- (hasAnyLegalMove_false b Hwf c ep).
  destruct (hasAnyLegalMove_returns b Hwf c ep) as [[] ->]; rewrite bind_Ret;
    simpl; repeat split; try done; congruence.
Qed.

(** ** Attacked squares *)

(** X9. On an 8 by 8 board [isSquareAttacked] is true exactly when some
    piece of the given colour has a pattern move onto the square, and it is
    false for every square outside the board. *)
Theorem isSquareAttacked_spec (b : BoardState) (r c : Z) (byColor : Color) :
  wf_board b = true ->
  (isSquareAttacked b r c byColor = Ret true <->
   exists pr pc p, rd b pr pc = Ret (JPiece p) /\ color p = byColor
                   /\ isValidPieceMove b pr pc r c = Ret true)
  /\ (~ inside r c -> isSquareAttacked b r c byColor = Ret false).
Proof.
  intros Hwf. split; [split|].
  - intros ([pr pc] & _ & H)%existsR_true. simpl in H. bind_inv H.
    destruct (same_color a byColor) eqn:Hc; [|discriminate].
    apply same_color_piece in Hc as (p & -> & Hp). by exists pr, pc, p.
  - intros (pr & pc & p & Hp & <- & H). by apply (pattern_move_attacks b Hwf pr pc).
  - intros Hout.
    destruct (isSquareAttacked_returns b Hwf r c byColor) as [v Hv].
    destruct v; [|done].
    apply existsR_true in Hv as ([pr pc] & _ & H). simpl in H. bind_inv H.
    destruct (same_color a byColor); [|discriminate].
    by rewrite isValidPieceMove_outside in H.
Qed.

(** X10. Attack detection reuses the movement pattern, so the empty square
    straight ahead of a pawn counts as attacked by it: a king may not castle
    when a square it crosses or lands on is empty and has an enemy pawn one
    row away that could step onto it. *)
Theorem pawn_ahead_blocks_castle (b : BoardState) (fr fc tc c pr : Z)
    (ep : option Position) (piece q : ChessPiece) :
  wf_board b = true -> rd b fr fc = Ret (JPiece piece) -> type piece = king ->
  0 <= tc < 8 -> Z.abs (tc - fc) = 2 ->
  Z.min fc tc <= c <= Z.max fc tc -> c <> fc ->
  rd b fr c = Ret JNull ->
  rd b pr c = Ret (JPiece q) -> type q = pawn -> color q <> color piece ->
  fr = pr + pawnDirection (color q) ->
  isSquareAttacked b fr c (color q) = Ret true
  /\ isValidMove b fr fc fr tc ep = Ret false.
Proof.
  intros Hwf Hp Hk Htc Habs Hc Hcne Hnull Hq Hpawn Hcol Hrow.
  assert (inside fr fc) as Hfrom by (by eapply rd_piece_inside).
  assert (inside fr c) as Hsq by (by eapply rd_null_inside).
  assert (isSquareAttacked b fr c (color q) = Ret true) as Hatt.
  { apply (pattern_move_attacks b Hwf pr c); [done|].
    rewrite (isValidPieceMove_body b pr c fr c q Hq JNull); try done.
    - cbv zeta. rewrite Hpawn. unfold pawnMove.
      fold (pawnDirection (color q)). rewrite Z.eqb_refl. simpl.
      by rewrite (proj2 (Z.eqb_eq _ _) Hrow).
    - intros [= Heq]. unfold pawnDirection in Hrow. destruct (color q); lia. }
  split; [done|].
  assert (isValidMove b fr fc fr tc ep = castling b piece fr fc tc) as ->.
  { unfold isValidMove. by rewrite Hp, bind_Ret, Hk, Z.eqb_refl, Habs. }
  destruct (castling_returns b Hwf piece fr fc tc Hfrom Htc Habs) as [v Hv].
  destruct v; [|done].
  exfalso. apply castling_true in Hv as (rk & nb & _ & _ & _ & _ & _ & Ht & _).
  set (step := if tc >? fc then 1 else -1) in *.
  assert (step <> 0 /\ tc = fc + 2 * step) as [Hs Htc2].
  { subst step. rewrite Z.gtb_ltb. destruct (Z.ltb_spec fc tc); lia. }
  replace (tc + step) with (fc + step + 2 * step) in Ht by lia.
  apply transitLoop_true in Ht as [H1 H2]; [|done].
  assert (opponent (color piece) = color q) as Hopp
      by (destruct (color q), (color piece); done).
  rewrite Hopp in H1, H2.
  assert (c = fc + step \/ c = fc + step + step) as [->| ->]
      by (subst step; destruct (tc >? fc); lia); congruence.
Qed.

(** ** The en passant target *)

(** X11. The en passant target changes nothing unless a pawn is moved onto
    it while it is empty: for a piece that is not a pawn, for a destination
    that is not the target, and for a destination that holds a piece,
    [isValidMove] answers as it does without a target. *)
Theorem en_passant_target_local (b : BoardState) (fr fc tr tc : Z)
    (t : Position) :
  (forall p, rd b fr fc = Ret (JPiece p) -> type p <> pawn)
  \/ (tr, tc) <> (row t, col t)
  \/ (exists q, rd b tr tc = Ret (JPiece q)) ->
  isValidMove b fr fc tr tc (Some t) = isValidMove b fr fc tr tc None.
Proof.
  intros H. unfold isValidMove.
  destruct (rd b fr fc) as [[| |piece]| |] eqn:Hp; try done. rewrite !bind_Ret.
  destruct (_ && _); [done|].
  assert (enPassant b piece fr fc tr tc (Some t) = Ret NotEnPassant) as ->.
  { unfold enPassant.
    destruct (ptype_eqb (type piece) pawn && (tr =? row t) && (tc =? col t))
      eqn:Hhit; [|done].
    bool_hyps. destruct H as [H|[H|(q & Hq)]].
    - by destruct (H piece).
    - destruct H. congruence.
    - by rewrite Hq, bind_Ret. }
  by rewrite bind_Ret.
Qed.

(** ** Encoded moves *)

(** X12. Encoding a square of the board as [row * 8 + col] and decoding it
    with [decodeIndex] gives the square back, and every index in 0..63
    decodes to a square of the board whose encoding is that index. *)
Theorem index_round_trip (r c i : Z) :
  (inside r c ->
   decodeIndex (r * 8 + c) = (r, c) /\ 0 <= r * 8 + c < 64)
  /\ (0 <= i < 64 ->
      inside (decodeIndex i).1 (decodeIndex i).2
      /\ (decodeIndex i).1 * 8 + (decodeIndex i).2 = i).
Proof.
  split.
  - intros H. split; [by apply decodeIndex_encode | by apply encode_inside].
  - intros Hi. split; [by apply decodeIndex_inside|].
    unfold decodeIndex. simpl. rewrite Z.rem_mod_nonneg by lia.
    pose proof (Z.div_mod i 8 ltac:(lia)). lia.
Qed.

Lemma NoDup_squares : NoDup squares.
Proof. apply (bool_decide_unpack _). by vm_compute. Qed.

Lemma filterR_NoDup {A} (f : A -> result bool) (l out : list A) :
  NoDup l -> filterR f l = Ret out -> NoDup out.
Proof.
  revert out. induction l as [|x l IH]; intros out Hnd H.
  - injection H as <-. constructor.
  - apply NoDup_cons in Hnd as [Hx Hnd].
    unfold filterR in H; fold (@filterR A) in H. bind_inv H. bind_inv H.
    injection H as <-. destruct a; [|by apply IH].
    apply NoDup_cons. split; [|by apply IH].
    intros Hin. apply (filterR_elem f l a0 x E0) in Hin as [? _]. done.
Qed.

Lemma encode_injective from to1 to2 :
  inside to1.1 to1.2 -> inside to2.1 to2.2 ->
  encode from to1 = encode from to2 -> to1 = to2.
Proof.
  destruct to1 as [r1 c1], to2 as [r2 c2]. unfold encode, inside. simpl.
  intros H1 H2 [= H]. f_equal; lia.
Qed.

Section Listing.
Variable b : BoardState.
Hypothesis Hwf : wf_board b = true.
Variable c : Color.

Lemma movesFrom_NoDup from ms :
  from ∈ squares -> movesFrom b c from = Ret ms ->
  NoDup ms /\ forall m, m ∈ ms -> decodeIndex (row m) = from
                                    /\ 0 <= row m < 64 /\ 0 <= col m < 64.
Proof.
  intros Hfrom H. pose proof (squares_inside _ Hfrom) as Hin.
  unfold movesFrom in H. bind_inv H.
  destruct (same_color a c); [|injection H as <-; split; [constructor|]].
  - bind_inv H. injection H as <-. rename a0 into tos.
    assert (forall to, to ∈ tos -> inside to.1 to.2) as Htos.
    { intros to Hto. apply (filterR_elem _ _ _ _ E0) in Hto as [Hto _].
      by apply squares_inside. }
    split.
    + apply NoDup_fmap_2_strong; [|by eapply filterR_NoDup, E0; apply NoDup_squares].
      intros to1 to2 H1 H2. apply encode_injective; by apply Htos.
    + intros m (to & -> & Hto)%list_elem_of_fmap. specialize (Htos to Hto).
      destruct from as [fr fc], to as [tr tc]. simpl in *.
      split; [by apply decodeIndex_encode|]. unfold inside in *. lia.
  - intros m Hm. by apply elem_of_nil in Hm.
Qed.

Lemma collect_NoDup (l : list (Z * Z)) (acc out : list Position) :
  NoDup l -> (forall s, s ∈ l -> s ∈ squares) -> NoDup acc ->
  (forall m, m ∈ acc -> decodeIndex (row m) ∉ l) ->
  foldR (fun moves from => movesFrom b c from ≫= fun ms => Ret (moves ++ ms))
        acc l = Ret out ->
  NoDup out.
Proof.
  revert acc. induction l as [|x l IH]; intros acc Hnd Hsq Hacc Hsrc H.
  - by injection H as <-.
  - apply NoDup_cons in Hnd as [Hx Hnd].
    unfold foldR in H; fold (@foldR (Z * Z) (list Position)) in H.
    bind_inv H. bind_inv E. injection E as <-. rename a0 into ms.
    destruct (movesFrom_NoDup x ms) as [Hms Hrow]; [apply Hsq; left | done|].
    apply (IH (acc ++ ms)); try done.
    + intros s Hs. apply Hsq. by right.
    + apply NoDup_app. repeat split; [done| |done].
      intros m Hm Hm'. apply (Hsrc m Hm). destruct (Hrow m Hm') as [-> _]. left.
    + intros m [Hm|Hm]%elem_of_app.
      * intros Hl. apply (Hsrc m Hm). by right.
      * by destruct (Hrow m Hm) as [-> _].
Qed.
End Listing.

(** X13. The list [getAllValidMoves] returns holds every legal move once:
    it has no duplicates, and its entries are pairs of indices in 0..63. *)
Theorem getAllValidMoves_NoDup (b : BoardState) (c : Color)
    (moves : list Position) :
  wf_board b = true -> getAllValidMoves b c = Ret moves ->
  NoDup moves
  /\ forall m, m ∈ moves -> 0 <= row m < 64 /\ 0 <= col m < 64.
Proof.
  intros Hwf H. split.
  - apply (collect_NoDup b c squares [] moves); try done.
    + apply NoDup_squares.
    + constructor.
    + intros m Hm. by apply elem_of_nil in Hm.
  - destruct (getAllValidMoves_spec b Hwf c) as (moves' & Hm' & Hspec).
    assert (moves' = moves) as -> by congruence.
    intros m (fr & fc & tr & tc & p & -> & Hfrom & Hto & _)%Hspec. simpl.
    unfold inside in *. lia.
Qed.

(** ** The levels of the computer opponent *)

(** X14. With any number [Math.random()] can return, [getAIMove] returns
    [null] exactly on the boards where black is checkmated or stalemated (no
    en passant target being supplied). *)
Theorem getAIMove_null_is_terminal (b : BoardState) (d : Difficulty) (u : Draw) :
  wf_board b = true -> isDraw u = true ->
  getAIMove b d u = Ret None <->
  isCheckmate b black None = Ret true \/ isStalemate b black None = Ret true.
Proof.
  intros Hwf Hu.
  assert (getAIMove b d u = Ret None <-> hasAnyLegalMove b black None = Ret false)
    as ->.
  { rewrite hasAnyLegalMove_false by done. split.
    - intros Hn Hex. destruct (getAIMove_some b d u Hwf Hu Hex) as [m Hm].
      congruence.
    - intros Hno.
      destruct (getAIMove_levels b Hwf) as (moves & _ & Hspec & Hnil & _).
      apply Hnil. destruct moves as [|m moves]; [done|]. destruct Hno.
      apply legalMove_exists. exists m. apply Hspec. left. }
  unfold isCheckmate, isStalemate.
  destruct (isKingInCheck_returns b Hwf black) as [chk ->].
  destruct (hasAnyLegalMove_returns b Hwf black None) as [any ->].
  rewrite !bind_Ret. destruct chk, any; simpl; split; try done;
    try (intros [?|?]; done); try (intros _; by left); try (intros _; by right).
Qed.

(** X15. At the easy level every legal black move is returned for some
    number [Math.random()] can return: for each entry of the list of legal
    moves there is a binary64 value in [0, 1) whose binary64 product with
    the length of the list has that entry's index as its integer part. *)
Theorem easy_reaches_every_move (b : BoardState) (m : Position) :
  wf_board b = true -> legalMove b black m ->
  exists u, isDraw u = true /\ getAIMove b easy u = Ret (Some m).
Proof.
  intros Hwf Hm.
  destruct (getAIMove_levels b Hwf) as (moves & Hmoves & Hspec & _ & Hcons).
  apply Hspec in Hm. assert (moves <> []) as Hne.
  { intros ->. by apply elem_of_nil in Hm. }
  apply list_elem_of_lookup in Hm as [k Hk].
  pose proof (lookup_lt_Some _ _ _ Hk) as Hlt.
  destruct (randomIndex_reach (length moves) (Z.of_nat k)) as (u & Hu & Hi);
    [by eapply getAllValidMoves_length | lia |].
  exists u. split; [done|].
  destruct (Hcons Hne u) as (-> & _). do 2 f_equal. rewrite Hi.
  unfold pickAt. destruct (Z.ltb_spec (Z.of_nat k) 0); [lia|].
  by rewrite Nat2Z.id.
Qed.

(** ** Nodes of the search *)

Lemma minimax_S b d isMaximizing :
  minimax b (S d) isMaximizing =
  let c := if isMaximizing then black else white in
  getAllValidMoves b c ≫= fun moves =>
    match moves with
    | [] =>
        isKingInCheck b c ≫= fun inCheck =>
          if (inCheck : bool)
          then Ret (if isMaximizing then NegInf else PosInf)
          else Ret (Fin 0)
    | _ =>
        if isMaximizing then
          foldR (fun maxEval move =>
                   play b move ≫= fun newBoard =>
                   minimax newBoard d false ≫= fun evalScore =>
                   Ret (num_max maxEval evalScore)) NegInf moves
        else
          foldR (fun minEval move =>
                   play b move ≫= fun newBoard =>
                   minimax newBoard d true ≫= fun evalScore =>
                   Ret (num_min minEval evalScore)) PosInf moves
    end.
Proof. reflexivity. Qed.

(** X16. At a node of the search with moves left to search, a checkmated
    side to move is valued [-Infinity] when it is black and [+Infinity] when
    it is white, and a stalemated side to move is valued 0, whatever the
    material on the board. *)
Theorem minimax_terminal (b : BoardState) (d : nat) (isMaximizing : bool) :
  wf_board b = true ->
  let c := if isMaximizing then black else white in
  (isCheckmate b c None = Ret true ->
   minimax b (S d) isMaximizing
   = Ret (if isMaximizing then NegInf else PosInf))
  /\ (isStalemate b c None = Ret true ->
      minimax b (S d) isMaximizing = Ret (Fin 0)).
Proof.
  intros Hwf c.
  assert (hasAnyLegalMove b c None = Ret false -> getAllValidMoves b c = Ret [])
    as Hnone.
  { intros Hno%hasAnyLegalMove_false; [|done].
    destruct (getAllValidMoves_spec b Hwf c) as (moves & -> & Hspec).
    destruct moves as [|m moves]; [done|]. destruct Hno.
    apply legalMove_exists. exists m. apply Hspec. left. }
  unfold isCheckmate, isStalemate. rewrite minimax_S. cbv zeta. fold c.
  destruct (isKingInCheck_returns b Hwf c) as [chk Hchk].
  destruct (hasAnyLegalMove_returns b Hwf c None) as [any Hany].
  rewrite Hchk, Hany, !bind_Ret.
  destruct chk, any; simpl; split; try discriminate; intros _;
    rewrite Hnone by done; by rewrite bind_Ret.
Qed.

Section Extremum.
Variable better : num -> num -> bool.
Variable init : num.
Hypothesis better_irrefl : forall x, better x x = false.
Hypothesis better_trans :
  forall e a y, better e a = true -> better y a = false -> better y e = false.
Hypothesis init_worst : forall v, v = init \/ better v init = true.

(** A loop that replaces the value kept by every better one ends with a value
    some element has and none betters. *)
Lemma extremum_loop (value : Position -> result num) (l : list Position) :
  (forall x, x ∈ l -> returns (value x)) ->
  exists acc,
    foldR (fun acc m => value m ≫= fun e => Ret (if better e acc then e else acc))
          init l = Ret acc
    /\ ((l = [] /\ acc = init) \/
        exists x, x ∈ l /\ value x = Ret acc
                  /\ forall y, y ∈ l ->
                       exists vy, value y = Ret vy /\ better vy acc = false).
Proof.
  induction l as [|x l IH] using rev_ind; intros Hval.
  - exists init. split; [done | by left].
  - destruct IH as (acc & Hfold & Hinv).
    { intros y Hy. apply Hval, elem_of_app. by left. }
    destruct (Hval x) as [e He]; [apply elem_of_app; right; left|].
    rewrite foldR_app, Hfold, bind_Ret. unfold foldR. rewrite He, !bind_Ret.
    eexists. split; [done|]. right.
    assert (x ∈ l ++ [x]) as Hx by (apply elem_of_app; right; left).
    destruct Hinv as [[-> ->]|(x0 & Hx0 & Hv0 & Hall)].
    + exists x. destruct (better e init) eqn:Hb.
      * repeat split; try done. intros y Hy.
        apply list_elem_of_singleton in Hy as ->. exists e. by split.
      * destruct (init_worst e) as [->|]; [|congruence].
        repeat split; try done. intros y Hy.
        apply list_elem_of_singleton in Hy as ->. by exists init.
    + destruct (better e acc) eqn:Hb.
      * exists x. repeat split; try done.
        intros y [Hy|Hy]%elem_of_app.
        -- destruct (Hall y Hy) as (vy & ? & ?). exists vy. split; [done|].
           by apply (better_trans e acc).
        -- apply list_elem_of_singleton in Hy as ->. exists e. by split.
      * exists x0. repeat split; [apply elem_of_app; by left | done|].
        intros y [Hy|Hy]%elem_of_app; [by apply Hall|].
        apply list_elem_of_singleton in Hy as ->. by exists e.
Qed.
End Extremum.

Lemma num_gtb_antisym x y : num_gtb x y = false -> num_gtb y x = false -> x = y.
Proof. intros. num_cases. f_equal. lia. Qed.

Lemma max_loop b d (l : list Position) :
  (forall x, x ∈ l -> returns (childValue b d false x)) ->
  exists acc,
    foldR (fun maxEval move =>
             play b move ≫= fun newBoard =>
             minimax newBoard d false ≫= fun evalScore =>
             Ret (num_max maxEval evalScore)) NegInf l = Ret acc
    /\ ((l = [] /\ acc = NegInf) \/
        exists x, x ∈ l /\ childValue b d false x = Ret acc
                  /\ forall y, y ∈ l ->
                       exists vy, childValue b d false y = Ret vy
                                  /\ num_gtb vy acc = false).
Proof.
  intros Hval.
  destruct (extremum_loop num_gtb NegInf num_gtb_irrefl) with
    (value := childValue b d false) (l := l) as (acc & Hfold & Hinv); try done.
  - intros e a y H1 H2. num_cases.
  - intros v. destruct v; auto.
  - exists acc. split; [|done]. rewrite <- Hfold. apply foldR_ext.
    intros acc' m. unfold childValue, num_max. by destruct (play b m).
Qed.

Lemma min_loop_num b d (l : list Position) :
  (forall x, x ∈ l -> returns (childValue b d true x)) ->
  exists acc,
    foldR (fun minEval move =>
             play b move ≫= fun newBoard =>
             minimax newBoard d true ≫= fun evalScore =>
             Ret (num_min minEval evalScore)) PosInf l = Ret acc
    /\ ((l = [] /\ acc = PosInf) \/
        exists x, x ∈ l /\ childValue b d true x = Ret acc
                  /\ forall y, y ∈ l ->
                       exists vy, childValue b d true y = Ret vy
                                  /\ num_gtb acc vy = false).
Proof.
  intros Hval.
  destruct (extremum_loop (fun e a => num_gtb a e) PosInf) with
    (value := childValue b d true) (l := l) as (acc & Hfold & Hinv); try done.
  - apply num_gtb_irrefl.
  - intros e a y H1 H2. num_cases.
  - intros v. destruct v; auto.
  - exists acc. split; [|done]. rewrite <- Hfold. apply foldR_ext.
    intros acc' m. unfold childValue, num_min. by destruct (play b m).
Qed.

Lemma childValue_returns b c d isMaximizing m :
  wf_board b = true -> legalMove b c m ->
  returns (childValue b d isMaximizing m).
Proof.
  intros Hwf Hm. unfold childValue.
  destruct (play_wf b Hwf c m Hm) as (nb & -> & Hw). rewrite bind_Ret.
  by apply minimax_returns.
Qed.

(** X17. A node of the search whose side to move has a legal move is valued
    as one of its children: a maximizing node (black to move) as a child no
    other child exceeds, a minimizing node (white to move) as a child that
    exceeds no other child. *)
Theorem minimax_node_extremum (b : BoardState) (d : nat) (isMaximizing : bool) :
  wf_board b = true ->
  legalMoveExists b (if isMaximizing then black else white) None ->
  exists v m,
    minimax b (S d) isMaximizing = Ret v
    /\ legalMove b (if isMaximizing then black else white) m
    /\ childValue b d (negb isMaximizing) m = Ret v
    /\ forall m', legalMove b (if isMaximizing then black else white) m' ->
         exists v', childValue b d (negb isMaximizing) m' = Ret v'
                    /\ (if isMaximizing then num_gtb v' v else num_gtb v v')
                       = false.
Proof.
  intros Hwf Hex. rewrite minimax_S. cbv zeta.
  set (c := if isMaximizing then black else white) in *.
  destruct (getAllValidMoves_spec b Hwf c) as (moves & -> & Hspec).
  rewrite bind_Ret.
  assert (moves <> []) as Hne.
  { apply legalMove_exists in Hex as [m Hm%Hspec]. intros ->.
    by apply elem_of_nil in Hm. }
  assert (forall isMax' x, x ∈ moves -> returns (childValue b d isMax' x)) as Hret.
  { intros isMax' x Hx%Hspec. by apply (childValue_returns b c). }
  destruct moves as [|m0 moves'] eqn:Hm; [done|]. rewrite <- Hm in *. clear Hm.
  destruct isMaximizing; simpl.
  - destruct (max_loop b d moves (Hret false)) as (acc & -> & Hinv).
    destruct Hinv as [[? _]|(x & Hx & Hv & Hall)]; [done|].
    exists acc, x. repeat split; [by apply Hspec | done|].
    intros m' Hm'%Hspec. by apply Hall.
  - destruct (min_loop_num b d moves (Hret true)) as (acc & -> & Hinv).
    destruct Hinv as [[? _]|(x & Hx & Hv & Hall)]; [done|].
    exists acc, x. repeat split; [by apply Hspec | done|].
    intros m' Hm'%Hspec. by apply Hall.
Qed.

(** X18. On an 8 by 8 board where black has a legal move, the value of the
    move the hard level returns is the value [minimax] gives the board at
    depth 2 with black to move: the loop of [getAIMove] and the maximizing
    node of [minimax] agree. *)
Theorem hard_choice_is_minimax (b : BoardState) (u : Draw) :
  wf_board b = true -> legalMoveExists b black None ->
  exists m v,
    getAIMove b hard u = Ret (Some m) /\ moveValue b m = Ret v
    /\ minimax b 2 true = Ret v.
Proof.
  intros Hwf Hex.
  destruct (getAIMove_levels b Hwf) as (moves & Hmoves & Hspec & _ & Hcons).
  assert (moves <> []) as Hne.
  { apply legalMove_exists in Hex as [m Hm%Hspec]. intros ->.
    by apply elem_of_nil in Hm. }
  destruct (Hcons Hne u) as (_ & _ & ([bm bv] & Hbest & Hhard)).
  unfold firstBest in Hbest. simpl in Hbest, Hhard.
  destruct bm as [m|]; [|by destruct Hbest].
  destruct Hbest as (l1 & l2 & Hsplit & Hm & H1 & H2).
  exists m, bv. split; [done|]. split; [done|].
  rewrite minimax_S. cbv zeta. rewrite Hmoves, bind_Ret.
  destruct (max_loop b 1 moves) as (acc & Hfold & Hinv).
  { intros x Hx%Hspec. by apply (childValue_returns b black). }
  destruct moves as [|m0 moves'] eqn:Hmv; [done|]. rewrite <- Hmv in *. clear Hmv.
  rewrite Hfold. f_equal.
  destruct Hinv as [[? _]|(x & Hx & Hv & Hall)]; [done|].
  change (childValue b 1 false) with (moveValue b) in *.
  assert (m ∈ moves) as Hin by (rewrite Hsplit; apply elem_of_app; right; left).
  apply num_gtb_antisym.
  - rewrite Hsplit in Hx. apply elem_of_app in Hx as [Hx|Hx].
    + destruct (H1 x Hx) as (vx & Hvx & Hgt). assert (vx = acc) as -> by congruence.
      by apply num_gtb_asym.
    + apply elem_of_cons in Hx as [->|Hx].
      * assert (bv = acc) as -> by congruence. apply num_gtb_irrefl.
      * destruct (H2 x Hx) as (vx & Hvx & Hle). congruence.
  - destruct (Hall m Hin) as (vm & Hvm & Hle). congruence.
Qed.

(** ** The material balance *)

Lemma total_same g g' (l : list (Z * Z)) :
  (forall y, y ∈ l -> g' y = g y) -> total g' l = total g l.
Proof.
  induction l as [|y l IH]; intros H; simpl; [done|].
  rewrite (H y) by left. rewrite IH; [done|]. intros z Hz. apply H. by right.
Qed.

(** Changing the summand on one square of a duplicate-free list. *)
Lemma total_change g g' (l : list (Z * Z)) x :
  NoDup l -> x ∈ l -> (forall y, y ∈ l -> y <> x -> g' y = g y) ->
  total g' l = total g l + (g' x - g x).
Proof.
  induction l as [|y l IH]; intros Hnd Hx H; [by apply elem_of_nil in Hx|].
  apply NoDup_cons in Hnd as [Hy Hnd]. simpl.
  destruct (decide (y = x)) as [->|Hne].
  - rewrite (total_same g g' l); [lia|].
    intros z Hz. apply H; [by right|]. intros ->. done.
  - apply elem_of_cons in Hx as [->|Hx]; [done|].
    rewrite (H y) by (left || done). rewrite IH; [lia | done | done|].
    intros z Hz. apply H. by right.
Qed.

Lemma evaluateBoard_total b :
  wf_board b = true ->
  evaluateBoard b = Ret (total (fun s => signedValue (cellAt b s)) squares).
Proof.
  intros Hwf. unfold evaluateBoard.
  assert (forall l acc, (forall s, s ∈ l -> s ∈ squares) ->
            foldR (fun score s =>
                     rd b s.1 s.2 ≫= fun v =>
                     match v with
                     | JPiece piece =>
                         let value := pieceValues (type piece) in
                         Ret (score + match color piece with
                                      | black => value
                                      | white => - value
                                      end)
                     | _ => Ret score
                     end) acc l
            = Ret (acc + total (fun s => signedValue (cellAt b s)) l)) as Hgen.
  { induction l as [|s l IH]; intros acc Hl.
    - simpl. unfold foldR. f_equal. lia.
    - unfold foldR; fold (@foldR (Z * Z) Z).
      destruct (rd_inside b s.1 s.2 Hwf) as (v & Hv & _);
        [apply squares_inside, Hl; left|].
      assert (cellAt b s = v) as Hc by (unfold cellAt; by rewrite Hv).
      rewrite Hv, bind_Ret. simpl. rewrite Hc.
      destruct v as [| |p]; rewrite ?bind_Ret, IH
        by (intros z Hz; apply Hl; by right); f_equal; simpl;
        try destruct (color p); lia. }
  rewrite Hgen by done. f_equal.
Qed.

(** X19. The material balance after [makeMove] of a piece to another square
    is the balance before, less what the destination square held, with the
    piece counted as what it becomes: a capture changes the balance by the
    value of the captured piece, a move to an empty square that does not
    promote leaves it unchanged. *)
Theorem evaluateBoard_after_makeMove (b nb : BoardState) (from to : Position)
    (piece : ChessPiece) (t : jsval) :
  wf_board b = true -> 0 <= row from < 64 -> 0 <= col to < 64 ->
  let fr := (decodeIndex (row from)).1 in
  let fc := (decodeIndex (row from)).2 in
  let tr := (decodeIndex (col to)).1 in
  let tc := (decodeIndex (col to)).2 in
  (fr, fc) <> (tr, tc) ->
  rd b fr fc = Ret (JPiece piece) -> rd b tr tc = Ret t ->
  makeMove b from to = Ret nb ->
  exists s,
    evaluateBoard b = Ret s
    /\ evaluateBoard nb
       = Ret (s - signedValue t
              + (signedValue (JPiece (finalPiece piece tr))
                 - signedValue (JPiece piece))).
Proof.
  intros Hwf Hf Ht fr fc tr tc Hne Hp Htgt Hmove.
  pose proof (decodeIndex_inside _ Hf) as Hfrom.
  pose proof (decodeIndex_inside _ Ht) as Hto.
  destruct (makeMove_inside b from to fr fc tr tc) as (nb' & Hnb & Hw & Hrd);
    [done | by destruct (decodeIndex (row from))
    | by destruct (decodeIndex (col to)) | done | done|].
  assert (nb' = nb) as -> by congruence.
  specialize (Hrd _ Hp). cbv beta iota in Hrd.
  eexists. split; [by apply evaluateBoard_total|].
  rewrite evaluateBoard_total by done. f_equal.
  set (g := fun s => signedValue (cellAt b s)).
  set (g' := fun s => signedValue (cellAt nb s)).
  set (g1 := fun s : Z * Z => if decide (s = (fr, fc)) then 0 else g s).
  assert (forall s, g' s = if decide (s = (tr, tc))
                           then signedValue (JPiece (finalPiece piece tr))
                           else g1 s) as Hg'.
  { intros [r c]. subst g' g1 g. cbv beta. unfold cellAt. cbn [fst snd].
    rewrite Hrd. repeat case_decide; destruct_and?; simplify_eq; try done; tauto. }
  assert (total g1 squares = total g squares + (g1 (fr, fc) - g (fr, fc))) as H1.
  { apply total_change; [apply NoDup_squares | by apply elem_of_squares|].
    intros y _ Hy. subst g1. cbv beta. by case_decide. }
  assert (total g' squares = total g1 squares + (g' (tr, tc) - g1 (tr, tc))) as H2.
  { apply total_change; [apply NoDup_squares | by apply elem_of_squares|].
    intros y _ Hy. rewrite Hg'. by case_decide. }
  assert (g (fr, fc) = signedValue (JPiece piece)) as Hgf.
  { subst g. cbv beta. unfold cellAt. cbn [fst snd]. by rewrite Hp. }
  assert (g (tr, tc) = signedValue t) as Hgt.
  { subst g. cbv beta. unfold cellAt. cbn [fst snd]. by rewrite Htgt. }
  assert (g1 (fr, fc) = 0) as Hg1f by (subst g1; cbv beta; by case_decide).
  assert (g1 (tr, tc) = g (tr, tc)) as Hg1t.
  { subst g1. cbv beta. case_decide; [congruence | done]. }
  assert (g' (tr, tc) = signedValue (JPiece (finalPiece piece tr))) as Hg't.
  { rewrite Hg'. by case_decide. }
  fold g'. rewrite H2, H1, Hg't, Hg1t, Hg1f, Hgt, Hgf. fold g. lia.
Qed.

(** ** The game flow of the component *)

(** What a pawn's pattern accepts: a step ahead onto an empty square, two
    steps from the start row over an empty square, or a diagonal step onto a
    piece. *)
Lemma pawnMove_true b piece t fr fc tr tc :
  pawnMove b piece t fr fc tr tc = Ret true ->
  (fc = tc /\ truthy t = false
   /\ (tr = fr + pawnDirection (color piece)
       \/ (fr = pawnStartRow (color piece)
           /\ tr = fr + 2 * pawnDirection (color piece)
           /\ rd b (fr + pawnDirection (color piece)) fc = Ret JNull)))
  \/ (Z.abs (fc - tc) = 1 /\ tr = fr + pawnDirection (color piece)
      /\ truthy t = true).
Proof.
  unfold pawnMove, pawnDirection, pawnStartRow. intros H. bind_inv H.
  destruct a.
  - left. destruct (_ && _) eqn:Hs in E; [|discriminate]. bool_hyps.
    split; [done|]. split; [done|].
    destruct (_ =? _) eqn:Hone in E; [left; by bool_hyps|]. right.
    destruct (_ && _) eqn:Htwo in E; [|discriminate]. bool_hyps.
    bind_inv E. destruct a; try discriminate. done.
  - right. injection H as H. bool_hyps. done.
Qed.

(** A pawn that [isValidMove] lets advance two rows leaves its start row on
    its own file, over an empty square and onto an empty square. *)
Lemma double_step_shape b fr fc tr tc ep piece :
  wf_board b = true -> rd b fr fc = Ret (JPiece piece) -> type piece = pawn ->
  Z.abs (tr - fr) = 2 -> isValidMove b fr fc tr tc ep = Ret true ->
  inside tr tc /\ fc = tc /\ tr = fr + 2 * pawnDirection (color piece)
  /\ rd b (fr + pawnDirection (color piece)) fc = Ret JNull
  /\ rd b tr tc = Ret JNull
  /\ enPassant b piece fr fc tr tc ep = Ret NotEnPassant
  /\ fr = pawnStartRow (color piece).
Proof.
  intros Hwf Hp Hpawn Habs H. unfold isValidMove in H.
  rewrite Hp, bind_Ret, Hpawn in H. simpl in H. bind_inv H.
  destruct a as [| |]; [| |discriminate].
  - bind_inv H. destruct a; [|discriminate].
    destruct (isValidPieceMove_guards b fr fc tr tc piece Hp E0)
      as (Hto & Hne & Hown).
    destruct (rd_inside b tr tc Hwf Hto) as (t & Ht & Hcell).
    rewrite (isValidPieceMove_body b fr fc tr tc piece Hp t) in E0;
      [|done..|by apply (notOwn_same_color b tr tc piece t)].
    rewrite Hpawn in E0. simpl in E0.
    apply pawnMove_true in E0
      as [(-> & Hemp & [Hone|(Hstart & Htwo & Hmid)])|(_ & Hone & _)];
      try (unfold pawnDirection in Hone; destruct (color piece); lia).
    destruct t; try discriminate. done.
  - exfalso. apply enPassant_Capture in E
      as (t & q & _ & _ & -> & _ & _ & Hfr & _).
    unfold captureRowOf in Hfr. destruct (color piece); lia.
Qed.

(** X20. When [isValidMove] accepts a pawn's advance of two rows,
    [handleSquareClick] plays it; the en passant target it computes is the
    square the pawn skipped, in the pawn's file and empty on the new board.
    The target it stores is [null] exactly when the move checkmates or
    stalemates the opponent, and the computed target otherwise. For every
    enemy pawn that stands beside the square the pawn landed on, the branch
    of [isValidMove] that decides en passant recognises the capture onto
    the computed target; and when [isValidMove] accepts that capture, the
    target has been stored. *)
Theorem double_step_then_en_passant (b : BoardState) (fr fc tr tc : Z)
    (ep : option Position) (piece : ChessPiece) :
  wf_board b = true -> rd b fr fc = Ret (JPiece piece) -> type piece = pawn ->
  Z.abs (tr - fr) = 2 -> isValidMove b fr fc tr tc ep = Ret true ->
  exists nb t stored,
    playerMove b (color piece) fr fc tr tc ep = Ret (Some nb)
    /\ nextEnPassant piece fr tr tc = Some t
    /\ (fr < row t < tr \/ tr < row t < fr) /\ col t = fc
    /\ rd nb (row t) (col t) = Ret JNull
    /\ clickTarget nb piece (color piece) fr tr tc = Ret stored
    /\ (stored = None <->
        isCheckmate nb (opponent (color piece)) (Some t) = Ret true
        \/ isStalemate nb (opponent (color piece)) (Some t) = Ret true)
    /\ (stored <> None -> stored = Some t)
    /\ forall (capturer : ChessPiece) (cc : Z),
         rd b tr cc = Ret (JPiece capturer) -> type capturer = pawn ->
         color capturer <> color piece -> Z.abs (cc - tc) = 1 ->
         enPassant nb capturer tr cc (row t) (col t) (Some t) = Ret Capture
         /\ (isValidMove nb tr cc (row t) (col t) (Some t) = Ret true ->
             stored = Some t).
Proof.
  intros Hwf Hp Hpawn Habs H.
  destruct (double_step_shape b fr fc tr tc ep piece Hwf Hp Hpawn Habs H)
    as (Hto & <- & Htr & Hmid & Hdest & Hep & Hstart).
  assert (inside fr fc) as Hfrom by (by eapply rd_piece_inside).
  destruct (wr_inside b fr fc JNull Hwf Hfrom eq_refl) as (b1 & Hb1 & Hwf1).
  destruct (wr_inside b1 tr fc (JPiece piece) Hwf1 Hto eq_refl)
    as (nb & Hnb & Hwfn).
  assert (simulate b piece fr fc tr fc false ep = Ret nb) as Hsim.
  { unfold simulate. rewrite cloneBoard_wf, Hb1, bind_Ret by done.
    destruct ep; by rewrite bind_Ret. }
  set (d := pawnDirection (color piece)) in *.
  assert (d = 1 \/ d = -1) as Hd by (subst d; destruct (color piece); auto).
  pose proof (fun r c => rd_wr b fr fc JNull b1 r c Hwf Hfrom Hb1) as R1.
  pose proof (fun r c => rd_wr b1 tr fc (JPiece piece) nb r c Hwf1 Hto Hnb) as R2.
  assert (rd nb (fr + d) fc = Ret JNull) as Nmid.
  { rewrite R2, R1. rewrite !decide_False by lia. done. }
  assert (rd nb tr fc = Ret (JPiece piece)) as Ndest.
  { rewrite R2. by rewrite decide_True. }
  set (t := mkPos (fr + d) fc).
  set (c' := opponent (color piece)).
  assert (nextEnPassant piece fr tr fc = Some t) as Hnext.
  { unfold nextEnPassant. rewrite Hpawn. simpl.
    rewrite (proj2 (Z.eqb_eq _ _) Habs). subst t. do 2 f_equal.
    replace (tr + fr) with ((fr + d) * 2) by lia. by rewrite Z.div_mul. }
  destruct (isKingInCheck_returns nb Hwfn c') as [chk Hchk].
  destruct (hasAnyLegalMove_returns nb Hwfn c' (Some t)) as [any Hany].
  assert (isCheckmate nb c' (Some t) = Ret (chk && negb any)) as Hmate.
  { unfold isCheckmate. rewrite Hchk, bind_Ret. destruct chk; simpl; [|done].
    by rewrite Hany, bind_Ret. }
  assert (isStalemate nb c' (Some t) = Ret (negb chk && negb any)) as Hstale.
  { unfold isStalemate. rewrite Hchk, bind_Ret. destruct chk; simpl; [done|].
    by rewrite Hany, bind_Ret. }
  assert (clickTarget nb piece (color piece) fr tr fc
          = Ret (if any then Some t else None)) as Hclick.
  { unfold clickTarget. rewrite Hpawn, Hnext. fold c'.
    assert ((tr =? 0) || (tr =? 7) = false) as ->.
    { apply orb_false_iff. rewrite !Z.eqb_neq.
      unfold pawnStartRow in Hstart. subst d. unfold pawnDirection in *.
      destruct (color piece); lia. }
    simpl. unfold settleTarget. rewrite Hmate, bind_Ret.
    destruct chk, any; simpl; try done.
    - by rewrite Hstale, bind_Ret, Hchk, bind_Ret.
    - rewrite Hstale, bind_Ret. simpl. by rewrite Hchk, bind_Ret.
    - by rewrite Hstale, bind_Ret. }
  exists nb, t, (if any then Some t else None). simpl.
  split.
  { apply (playerMove_simulate b Hwf piece fr fc tr fc ep NotEnPassant nb);
      try done. by rewrite Hpawn. }
  split; [done|]. split; [lia|]. split; [done|]. split; [done|].
  split; [done|]. split.
  { rewrite Hmate, Hstale. destruct chk, any; simpl; split; try done;
      try (intros [?|?]; done); try (intros _; by left);
      try (intros _; by right). }
  split; [by destruct any|].
  intros capturer cc Hcap Hcpawn Hcol Hadj.
  assert (rd nb tr cc = Ret (JPiece capturer)) as Ncap.
  { rewrite R2, R1. rewrite !decide_False by lia. done. }
  split.
  - unfold enPassant. simpl. rewrite Hcpawn, !Z.eqb_refl. simpl.
    rewrite Nmid, bind_Ret. simpl.
    assert (captureRowOf capturer t = tr) as ->.
    { unfold captureRowOf. simpl. subst d. unfold pawnDirection in *.
      destruct (color capturer), (color piece); try done; lia. }
    rewrite Z.eqb_refl, (proj2 (Z.eqb_eq _ _) Hadj). simpl.
    rewrite Ndest, bind_Ret, Hpawn. simpl. unfold color_eqb.
    rewrite bool_decide_eq_false_2 by congruence. done.
  - intros Hlegal.
    assert (legalMoveExists nb c' (Some t)) as Hex.
    { exists tr, cc, (fr + d), fc, capturer.
      assert (inside tr cc) by (by eapply rd_piece_inside).
      assert (inside (fr + d) fc) by (by eapply rd_null_inside).
      unfold inside in *. repeat split; try done; try lia.
      subst c'. destruct (color capturer), (color piece); simpl; congruence. }
    apply (hasAnyLegalMove_true nb Hwfn c' (Some t)) in Hex.
    assert (any = true) as -> by congruence. done.
Qed.

(** A pattern move is never taken for an en passant capture by the
    component, whatever target is pending: a pawn's diagonal step lands on a
    piece. *)
Lemma isEnPassantMove_pattern b fr fc tr tc ep piece :
  wf_board b = true -> rd b fr fc = Ret (JPiece piece) ->
  isValidPieceMove b fr fc tr tc = Ret true ->
  isEnPassantMove b piece fc tr tc ep = Ret false.
Proof.
  intros Hwf Hp H. unfold isEnPassantMove. destruct ep as [t|]; [|done].
  if_case Hhit; [|done]. bool_hyps.
  destruct (isValidPieceMove_guards b fr fc tr tc piece Hp H)
    as (Hto & Hne & Hown).
  destruct (rd_inside b tr tc Hwf Hto) as (v & Hv & Hcell).
  rewrite (isValidPieceMove_body b fr fc tr tc piece Hp v) in H;
    [|done..|by apply (notOwn_same_color b tr tc piece v)].
  assert (type piece = pawn) as Hpawn by done.
  rewrite Hpawn in H. simpl in H.
  match goal with |- context [rd b ?r ?c] => replace (rd b r c) with (Ret v : result jsval) by congruence end.
  rewrite bind_Ret. f_equal.
  apply pawnMove_true in H as [(-> & _)|(_ & _ & Ht)].
  - rewrite Z.sub_diag. simpl. apply andb_false_r.
  - by destruct v.
Qed.

(** X21. The move [getAIMove] returns is played by the component on the
    board the search valued it on: unless it is a king's move of two files,
    the board the effect builds is the board [makeMove] returns, whatever en
    passant target is pending. *)
Theorem ai_update_matches_search (b : BoardState) (d : Difficulty) (u : Draw)
    (m : Position) (ep : option Position) :
  wf_board b = true -> getAIMove b d u = Ret (Some m) ->
  ~ castleShaped b (decodeIndex (row m)).1 (decodeIndex (row m)).2
                   (decodeIndex (col m)).1 (decodeIndex (col m)).2 ->
  exists nb, play b m = Ret nb /\ aiBoardUpdate b m ep = Ret (Some nb).
Proof.
  intros Hwf Hai Hnc. apply getAIMove_legal in Hai; [|done].
  apply legalMove_decode in Hai
    as (fr & fc & tr & tc & p & Hfrom & Hto & Hif & Hit & Hp & _ & Hleg).
  rewrite Hfrom, Hto in Hnc. simpl in Hnc.
  assert (ptype_eqb (type p) king && (fr =? tr) && (Z.abs (tc - fc) =? 2)
          = false) as Hcastle.
  { destruct (_ && _) eqn:Hc; [|done]. exfalso. apply Hnc. bool_hyps.
    by exists p. }
  assert (isValidPieceMove b fr fc tr tc = Ret true) as Hpat.
  { unfold isValidMove in Hleg. rewrite Hp, bind_Ret, Hcastle in Hleg.
    bind_inv Hleg. injection E as <-. bind_inv Hleg. by destruct a. }
  destruct (wr_inside b fr fc JNull Hwf Hif eq_refl) as (b1 & Hb1 & Hwf1).
  destruct (wr_inside b1 tr tc (JPiece (finalPiece p tr)) Hwf1 Hit eq_refl)
    as (nb & Hnb & Hwfn).
  unfold decodeIndex in Hfrom, Hto.
  injection Hfrom as Hfr Hfc. injection Hto as Htr Htc.
  exists nb. split.
  - unfold play, makeMove, decodeIndex. simpl. rewrite Hfr, Hfc, Htr, Htc.
    rewrite cloneBoard_wf by done. rewrite Hp, bind_Ret, Hb1, bind_Ret. done.
  - unfold aiBoardUpdate. rewrite Hfr, Hfc, Htr, Htc.
    rewrite cloneBoard_wf by done. rewrite Hp, bind_Ret.
    rewrite (isEnPassantMove_pattern b fr fc tr tc ep p) by done.
    rewrite bind_Ret, Hb1, bind_Ret.
    simpl. unfold moveRook. rewrite Hcastle.
    destruct ep; rewrite !bind_Ret; fold (finalPiece p tr);
      by rewrite Hnb, bind_Ret.
Qed.

(** X22. A pawn that reaches the last row by a move that is not an en
    passant capture: [handleSquareClick] places it as a pawn, and choosing
    the queen in [handlePromotionChoice] then gives exactly the board that
    [makeMove], which promotes to a queen at once, returns for the same
    move. *)
Theorem queen_promotion_matches_search (b : BoardState) (fr fc tr tc : Z)
    (ep : option Position) (piece : ChessPiece) :
  wf_board b = true -> rd b fr fc = Ret (JPiece piece) -> type piece = pawn ->
  tr = 0 \/ tr = 7 ->
  isValidMove b fr fc tr tc ep = Ret true ->
  enPassant b piece fr fc tr tc ep = Ret NotEnPassant ->
  exists nb nb',
    playerMove b (color piece) fr fc tr tc ep = Ret (Some nb)
    /\ promotionBoard nb (mkPos tr tc) toQueen (color piece) = Ret nb'
    /\ play b (encode (fr, fc) (tr, tc)) = Ret nb'.
Proof.
  intros Hwf Hp Hpawn Hlast H Hep.
  assert (inside fr fc) as Hfrom by (by eapply rd_piece_inside).
  assert (isValidPieceMove b fr fc tr tc = Ret true) as Hpat.
  { unfold isValidMove in H. rewrite Hp, bind_Ret, Hpawn, Hep in H.
    simpl in H. bind_inv H. by destruct a. }
  destruct (isValidPieceMove_guards b fr fc tr tc piece Hp Hpat)
    as (Hto & Hne & _).
  destruct (wr_inside b fr fc JNull Hwf Hfrom eq_refl) as (b1 & Hb1 & Hwf1).
  destruct (wr_inside b1 tr tc (JPiece piece) Hwf1 Hto eq_refl)
    as (nb & Hnb & Hwfn).
  destruct (wr_inside nb tr tc (JPiece (mkPiece queen (color piece))) Hwfn Hto
              eq_refl) as (nb' & Hnb' & Hwfn').
  assert (simulate b piece fr fc tr tc false ep = Ret nb) as Hsim.
  { unfold simulate. rewrite cloneBoard_wf, Hb1, bind_Ret by done.
    destruct ep; by rewrite bind_Ret. }
  exists nb, nb'. split.
  { apply (playerMove_simulate b Hwf piece fr fc tr tc ep NotEnPassant nb);
      try done. by rewrite Hpawn. }
  split.
  { unfold promotionBoard. simpl. by rewrite cloneBoard_wf. }
  destruct (makeMove_inside b (mkPos (fr * 8 + fc) 0) (mkPos 0 (tr * 8 + tc))
              fr fc tr tc Hwf) as (nb2 & Hmk & Hwf2 & Hrd);
    [by apply decodeIndex_encode..|done|done|].
  unfold play, encode. simpl. rewrite Hmk. f_equal.
  specialize (Hrd _ Hp). cbv beta iota in Hrd.
  apply board_ext; [done..|]. intros r c _. rewrite Hrd.
  rewrite (rd_wr nb tr tc _ nb' r c Hwfn Hto Hnb').
  rewrite (rd_wr b1 tr tc _ nb r c Hwf1 Hto Hnb).
  rewrite (rd_wr b fr fc _ b1 r c Hwf Hfrom Hb1).
  unfold finalPiece. rewrite Hpawn. simpl.
  assert ((tr =? 0) || (tr =? 7) = true) as ->
      by (destruct Hlast as [-> | ->]; done).
  by repeat case_decide.
Qed.

(** ** Instances of the further properties *)

Lemma isPathClear_spec_witness :
  (isPathClear createInitialBoard 2 0 5 3 = Ret true
   <-> pathEmpty createInitialBoard 2 0 5 3)
  /\ (isPathClear createInitialBoard 2 0 5 3 = Ret false
      <-> ~ pathEmpty createInitialBoard 2 0 5 3).
Proof.
  apply (isPathClear_spec createInitialBoard 2 0 5 3).
  - reflexivity.
  - unfold inside; lia.
  - unfold inside; lia.
  - intros [=].
  - right; right; reflexivity.
Defined.

Lemma slider_move_spec_witness :
  isValidPieceMove castleReadyBoard 7 7 3 7 = Ret true <->
  inside 3 7 /\ (7, 7) <> (3, 7) /\ notOwn castleReadyBoard white 3 7
  /\ lineOf rook (3 - 7) (7 - 7) /\ pathEmpty castleReadyBoard 7 7 3 7.
Proof.
  apply (slider_move_spec castleReadyBoard 7 7 3 7 (mkPiece rook white)).
  - reflexivity.
  - reflexivity.
  - left; reflexivity.
Defined.

Lemma pawn_move_spec_witness :
  isValidPieceMove createInitialBoard 6 4 4 4 = Ret true <->
  inside 4 4 /\
  ((4 = 4 /\ rd createInitialBoard 4 4 = Ret JNull
    /\ (4 = 6 + -1 \/
        (6 = pawnStartRow white /\ 4 = 6 + 2 * -1
         /\ rd createInitialBoard (6 + -1) 4 = Ret JNull)))
   \/ (Z.abs (4 - 4) = 1 /\ 4 = 6 + -1
       /\ exists q, rd createInitialBoard 4 4 = Ret (JPiece q)
                    /\ color q <> white)).
Proof.
  apply (pawn_move_spec createInitialBoard 6 4 4 4 (mkPiece pawn white)).
  - reflexivity.
  - reflexivity.
  - reflexivity.
Defined.

Lemma leaper_move_spec_witness :
  (knight = knight ->
   (isValidPieceMove createInitialBoard 7 1 5 2 = Ret true <->
    inside 5 2 /\ notOwn createInitialBoard white 5 2
    /\ ((Z.abs (5 - 7) = 2 /\ Z.abs (2 - 1) = 1)
        \/ (Z.abs (5 - 7) = 1 /\ Z.abs (2 - 1) = 2))))
  /\ (knight = king ->
      (isValidPieceMove createInitialBoard 7 1 5 2 = Ret true <->
       inside 5 2 /\ (7, 1) <> (5, 2) /\ notOwn createInitialBoard white 5 2
       /\ Z.abs (5 - 7) <= 1 /\ Z.abs (2 - 1) <= 1)).
Proof.
  apply (leaper_move_spec createInitialBoard 7 1 5 2 (mkPiece knight white)).
  - reflexivity.
  - reflexivity.
Defined.

Lemma accepted_move_shape_witness :
  (6, 4) <> (4, 4)
  /\ ((pawn = king /\ 6 = 4 /\ Z.abs (4 - 4) = 2)
      \/ enPassant createInitialBoard (mkPiece pawn white) 6 4 4 4 None
         = Ret Capture
      \/ isValidPieceMove createInitialBoard 6 4 4 4 = Ret true)
  /\ (~ (pawn = king /\ 6 = 4 /\ Z.abs (4 - 4) = 2) ->
      inside 4 4 /\ notOwn createInitialBoard white 4 4).
Proof.
  apply (accepted_move_shape createInitialBoard 6 4 4 4 None
           (mkPiece pawn white)).
  - reflexivity.
  - reflexivity.
  - vm_compute; reflexivity.
Defined.

Lemma capture_only_if_attacked_witness :
  isSquareAttacked foolsMateBoard 4 6 black = Ret true
  /\ (findKingPosition foolsMateBoard white = Ret (Some (4, 6)) ->
      isKingInCheck foolsMateBoard white = Ret true).
Proof.
  apply (capture_only_if_attacked foolsMateBoard 4 7 4 6 None
           (mkPiece queen black) (mkPiece pawn white)).
  - reflexivity.
  - reflexivity.
  - reflexivity.
  - discriminate.
  - vm_compute; reflexivity.
Defined.

Lemma terminal_trichotomy_witness :
  (hasAnyLegalMove stalemateBoard black None = Ret false <->
   isCheckmate stalemateBoard black None = Ret true
   \/ isStalemate stalemateBoard black None = Ret true)
  /\ (isCheckmate stalemateBoard black None = Ret true ->
      isStalemate stalemateBoard black None = Ret false)
  /\ (isStalemate stalemateBoard black None = Ret true ->
      isCheckmate stalemateBoard black None = Ret false)
  /\ (hasAnyLegalMove stalemateBoard black None = Ret true ->
      isCheckmate stalemateBoard black None = Ret false
      /\ isStalemate stalemateBoard black None = Ret false).
Proof. apply (terminal_trichotomy stalemateBoard black None). reflexivity. Defined.

Lemma no_king_no_check_witness :
  isKingInCheck cornerBoard black = Ret false
  /\ isCheckmate cornerBoard black None = Ret false
  /\ (isStalemate cornerBoard black None = Ret true
      <-> ~ legalMoveExists cornerBoard black None).
Proof.
  apply (no_king_no_check cornerBoard black None).
  - reflexivity.
  - intros r k q H [Hk Hc].
    destruct (rd_piece_inside cornerBoard r k q eq_refl H) as [Hr Hk'].
    assert (r = 0 \/ r = 1 \/ r = 2 \/ r = 3 \/ r = 4 \/ r = 5 \/ r = 6
            \/ r = 7) as Hrs by lia.
    assert (k = 0 \/ k = 1 \/ k = 2 \/ k = 3 \/ k = 4 \/ k = 5 \/ k = 6
            \/ k = 7) as Hks by lia.
    destruct Hrs as [->|[->|[->|[->|[->|[->|[->| ->]]]]]]];
      destruct Hks as [->|[->|[->|[->|[->|[->|[->| ->]]]]]]];
      vm_compute in H; try discriminate; injection H as <-; discriminate.
Defined.

Lemma isSquareAttacked_spec_witness :
  (isSquareAttacked createInitialBoard 2 0 black = Ret true <->
   exists pr pc p, rd createInitialBoard pr pc = Ret (JPiece p)
                   /\ color p = black
                   /\ isValidPieceMove createInitialBoard pr pc 2 0 = Ret true)
  /\ (~ inside 2 0 -> isSquareAttacked createInitialBoard 2 0 black = Ret false).
Proof. apply (isSquareAttacked_spec createInitialBoard 2 0 black). reflexivity. Defined.

Lemma pawn_ahead_blocks_castle_witness :
  isSquareAttacked pawnBeforeCastleBoard 7 5 black = Ret true
  /\ isValidMove pawnBeforeCastleBoard 7 4 7 6 None = Ret false.
Proof.
  apply (pawn_ahead_blocks_castle pawnBeforeCastleBoard 7 4 6 5 6 None
           (mkPiece king white) (mkPiece pawn black)).
  - reflexivity.
  - reflexivity.
  - reflexivity.
  - lia.
  - reflexivity.
  - lia.
  - lia.
  - reflexivity.
  - reflexivity.
  - reflexivity.
  - discriminate.
  - reflexivity.
Defined.

Lemma en_passant_target_local_witness :
  isValidMove createInitialBoard 6 4 4 4 (Some (mkPos 2 5))
  = isValidMove createInitialBoard 6 4 4 4 None.
Proof.
  apply (en_passant_target_local createInitialBoard 6 4 4 4 (mkPos 2 5)).
  right; left. intros [=].
Defined.

Lemma index_round_trip_witness :
  (decodeIndex (3 * 8 + 4) = (3, 4) /\ 0 <= 3 * 8 + 4 < 64)
  /\ inside (decodeIndex 28).1 (decodeIndex 28).2
  /\ (decodeIndex 28).1 * 8 + (decodeIndex 28).2 = 28.
Proof.
  destruct (index_round_trip 3 4 28) as [Hsquare Hindex]. split.
  - apply Hsquare. unfold inside; lia.
  - apply Hindex. lia.
Defined.

Lemma getAllValidMoves_NoDup_witness :
  NoDup [mkPos 4 3; mkPos 4 5; mkPos 4 11; mkPos 4 12; mkPos 4 13]
  /\ forall m, m ∈ [mkPos 4 3; mkPos 4 5; mkPos 4 11; mkPos 4 12; mkPos 4 13]
               -> 0 <= row m < 64 /\ 0 <= col m < 64.
Proof.
  apply (getAllValidMoves_NoDup castleReadyBoard black).
  - reflexivity.
  - vm_compute; reflexivity.
Defined.

Lemma getAIMove_null_is_terminal_witness :
  getAIMove createInitialBoard easy (mkDraw 1 1) = Ret None <->
  isCheckmate createInitialBoard black None = Ret true
  \/ isStalemate createInitialBoard black None = Ret true.
Proof.
  apply (getAIMove_null_is_terminal createInitialBoard easy (mkDraw 1 1)).
  - reflexivity.
  - reflexivity.
Defined.

Lemma easy_reaches_every_move_witness :
  exists u, isDraw u = true
            /\ getAIMove createInitialBoard easy u = Ret (Some (mkPos 8 16)).
Proof.
  apply (easy_reaches_every_move createInitialBoard (mkPos 8 16)).
  - reflexivity.
  - exists 1, 0, 2, 0, (mkPiece pawn black). unfold inside.
    repeat split; try lia; vm_compute; reflexivity.
Defined.

Lemma minimax_terminal_witness :
  (isCheckmate stalemateBoard black None = Ret true ->
   minimax stalemateBoard 1 true = Ret NegInf)
  /\ (isStalemate stalemateBoard black None = Ret true ->
      minimax stalemateBoard 1 true = Ret (Fin 0)).
Proof. apply (minimax_terminal stalemateBoard 0 true). reflexivity. Defined.

Lemma minimax_node_extremum_witness :
  exists v m,
    minimax createInitialBoard 1 true = Ret v
    /\ legalMove createInitialBoard black m
    /\ childValue createInitialBoard 0 false m = Ret v
    /\ forall m', legalMove createInitialBoard black m' ->
         exists v', childValue createInitialBoard 0 false m' = Ret v'
                    /\ num_gtb v' v = false.
Proof.
  apply (minimax_node_extremum createInitialBoard 0 true).
  - reflexivity.
  - exists 1, 0, 2, 0, (mkPiece pawn black). unfold inside.
    repeat split; try lia; vm_compute; reflexivity.
Defined.

Lemma hard_choice_is_minimax_witness :
  exists m v,
    getAIMove createInitialBoard hard (mkDraw 0 0) = Ret (Some m)
    /\ moveValue createInitialBoard m = Ret v
    /\ minimax createInitialBoard 2 true = Ret v.
Proof.
  apply (hard_choice_is_minimax createInitialBoard (mkDraw 0 0)).
  - reflexivity.
  - exists 1, 0, 2, 0, (mkPiece pawn black). unfold inside.
    repeat split; try lia; vm_compute; reflexivity.
Defined.

Lemma evaluateBoard_after_makeMove_witness :
  exists nb,
    makeMove foolsMateBoard (mkPos 39 0) (mkPos 0 38) = Ret nb
    /\ exists s,
         evaluateBoard foolsMateBoard = Ret s
         /\ evaluateBoard nb
            = Ret (s - signedValue (JPiece (mkPiece pawn white))
                   + (signedValue (JPiece (finalPiece (mkPiece queen black) 4))
                      - signedValue (JPiece (mkPiece queen black)))).
Proof.
  eexists. split; [vm_compute; reflexivity|].
  apply (evaluateBoard_after_makeMove foolsMateBoard _ (mkPos 39 0)
           (mkPos 0 38) (mkPiece queen black) (JPiece (mkPiece pawn white))).
  - reflexivity.
  - simpl; lia.
  - simpl; lia.
  - intros [=].
  - reflexivity.
  - reflexivity.
  - vm_compute; reflexivity.
Defined.

Lemma double_step_then_en_passant_witness :
  exists nb t stored,
    playerMove beforeDoubleStepBoard black 1 5 3 5 None = Ret (Some nb)
    /\ nextEnPassant (mkPiece pawn black) 1 3 5 = Some t
    /\ (1 < row t < 3 \/ 3 < row t < 1) /\ col t = 5
    /\ rd nb (row t) (col t) = Ret JNull
    /\ clickTarget nb (mkPiece pawn black) black 1 3 5 = Ret stored
    /\ (stored = None <->
        isCheckmate nb white (Some t) = Ret true
        \/ isStalemate nb white (Some t) = Ret true)
    /\ (stored <> None -> stored = Some t)
    /\ forall (capturer : ChessPiece) (cc : Z),
         rd beforeDoubleStepBoard 3 cc = Ret (JPiece capturer) ->
         type capturer = pawn -> color capturer <> black ->
         Z.abs (cc - 5) = 1 ->
         enPassant nb capturer 3 cc (row t) (col t) (Some t) = Ret Capture
         /\ (isValidMove nb 3 cc (row t) (col t) (Some t) = Ret true ->
             stored = Some t).
Proof.
  apply (double_step_then_en_passant beforeDoubleStepBoard 1 5 3 5 None
           (mkPiece pawn black)).
  - reflexivity.
  - reflexivity.
  - reflexivity.
  - reflexivity.
  - vm_compute; reflexivity.
Defined.

Lemma ai_update_matches_search_witness :
  exists nb,
    play createInitialBoard (mkPos 1 16) = Ret nb
    /\ aiBoardUpdate createInitialBoard (mkPos 1 16) (Some (mkPos 5 4))
       = Ret (Some nb).
Proof.
  apply (ai_update_matches_search createInitialBoard hard (mkDraw 0 0) (mkPos 1 16)
           (Some (mkPos 5 4))).
  - reflexivity.
  - vm_compute; reflexivity.
  - intros (piece & H & Hk & _). vm_compute in H. injection H as <-.
    discriminate.
Defined.

Lemma queen_promotion_matches_search_witness :
  exists nb nb',
    playerMove pawnOnSeventhBoard white 1 0 0 0 None = Ret (Some nb)
    /\ promotionBoard nb (mkPos 0 0) toQueen white = Ret nb'
    /\ play pawnOnSeventhBoard (encode (1, 0) (0, 0)) = Ret nb'.
Proof.
  apply (queen_promotion_matches_search pawnOnSeventhBoard 1 0 0 0 None
           (mkPiece pawn white)).
  - reflexivity.
  - reflexivity.
  - reflexivity.
  - left; reflexivity.
  - vm_compute; reflexivity.
  - reflexivity.
Defined.
